(** * sentry.models.file: content-addressed chunked blob storage

    A shallow embedding of [src/sentry/models/file.py]: the content hasher
    [_get_size_and_checksum], the blob store ([FileBlob.from_file],
    [FileBlob.from_files]), the file index ([File.putfile],
    [File.assemble_from_file_blob_ids]) and the chunked reader
    ([ChunkedFileBlobIndexWrapper]).

    Modelling conventions.
    - Python [bytes] are [list byte]; Python integers are [Z].
    - A file object (Django [ContentFile], a storage stream, a temp file) is
      a buffer with a cursor, [FileObj].  Whether an underlying handle has
      been closed is not tracked; only the wrapper's own [closed] flag is.
    - [hashlib.sha1] is a parameter [sha1 : bytes -> string] (the hex
      digest of a whole byte string); a hash object is modelled by the bytes
      fed to it so far.
    - The relational tables, the storage backend, the named locks, the clock
      and the [uuid4] source form the explicit state [World]; methods are
      written in a state-and-exception monad [M], in which the state
      survives an exception exactly as Python side effects do, and
      [transaction_atomic] restores the relational tables when its body
      raises.
    - One caller at a time: the named locks are modelled (acquire, release,
      failure to acquire a held lock) but there is no interleaving of
      several callers. *)

From stdpp Require Import base numbers list sorting gmap strings.
From Stdlib Require Import ZArith Lia.

Open Scope Z_scope.

(** ** Python values *)

Abbreviation bytes := (list Byte.byte).

Definition len {A} (l : list A) : Z := Z.of_nat (length l).

(** Exceptions raised by the module (and by the libraries it calls).
    [Diverged] is not a Python exception: it marks a loop of the model that
    ran out of fuel, and is proved unreachable for the loops below. *)
Inductive exn :=
| ValueError (msg : string)
| IOError (msg : string)
| TypeError (msg : string)
| IndexError (msg : string)
| AssertionError
| AssembleChecksumMismatch (msg : string)
| DoesNotExist
| MultipleObjectsReturned
| IntegrityError
| UnableToAcquireLock
| AttributeError
| Diverged.

Inductive Result (A : Type) :=
| Ok (a : A)
| Raise (e : exn).
Arguments Ok {A} a.
Arguments Raise {A} e.

(** ** File objects: a buffer and a cursor *)

Record FileObj := mkFileObj { f_data : bytes; f_pos : nat }.

(** [ContentFile(contents)]: a fresh in-memory file positioned at 0. *)
Definition ContentFile (contents : bytes) : FileObj := mkFileObj contents 0.

(** The bytes between the cursor and the end. *)
Definition f_rest (f : FileObj) : bytes := drop (f_pos f) (f_data f).

(** [f.read(n)]: everything up to the end when [n < 0], otherwise at most
    [n] bytes; the cursor moves past what was returned. *)
Definition f_read (n : Z) (f : FileObj) : bytes * FileObj :=
  let out := if n <? 0 then f_rest f else take (Z.to_nat n) (f_rest f) in
  (out, mkFileObj (f_data f) (f_pos f + length out)).

(** [f.seek(pos)]: negative positions are refused, positions past the end
    are accepted (a later read returns nothing). *)
Definition f_seek (pos : Z) (f : FileObj) : Result FileObj :=
  if pos <? 0 then Raise (IOError "Invalid argument")
  else Ok (mkFileObj (f_data f) (Z.to_nat pos)).

Definition f_tell (f : FileObj) : Z := Z.of_nat (f_pos f).

(** [f.write(chunk)]: overwrite at the cursor, extending the file. *)
Definition f_write (chunk : bytes) (f : FileObj) : FileObj :=
  mkFileObj
    (take (f_pos f) (f_data f) ++ replicate (f_pos f - length (f_data f)) Byte.x00
       ++ chunk ++ drop (f_pos f + length chunk) (f_data f))
    (f_pos f + length chunk).

(** [File.chunks()]: rewinds, then yields the whole content. *)
Definition f_chunks (f : FileObj) : bytes := f_data f.

(** ** Rows of the relational tables *)

(** A storage key as [generate_unique_path] builds it:
    days / seconds-in-day / uuid4. *)
Definition Path : Type := Z * Z * N.

Record FileBlob := mkFileBlob {
  b_id : Z;
  b_path : option Path;
  b_size : Z;
  b_checksum : string;
  b_timestamp : Z
}.

Record FileBlobIndex := mkFileBlobIndex {
  idx_id : Z;
  idx_file : Z;
  idx_blob : FileBlob;
  idx_offset : Z
}.

Record FileBlobOwner := mkFileBlobOwner {
  owner_blob : Z;
  owner_organization : Z
}.

(** The persisted part of a [File] row that this module writes. *)
Record File := mkFile {
  file_id : Z;
  file_size : option Z;
  file_checksum : option string
}.

#[global] Instance FileBlob_eq_dec : EqDecision FileBlob.
Proof. solve_decision. Defined.
#[global] Instance FileBlobIndex_eq_dec : EqDecision FileBlobIndex.
Proof. solve_decision. Defined.
#[global] Instance FileBlobOwner_eq_dec : EqDecision FileBlobOwner.
Proof. solve_decision. Defined.

(** ** The world *)

Record World := mkWorld {
  fileblobs : list FileBlob;            (* table sentry_fileblob, oldest first *)
  fileblobindexes : list FileBlobIndex; (* table sentry_fileblobindex *)
  fileblobowners : list FileBlobOwner;  (* table sentry_fileblobowner *)
  files : list File;                    (* table sentry_file *)
  next_blob_id : Z;                     (* next primary key of sentry_fileblob *)
  next_index_id : Z;                    (* next primary key of sentry_fileblobindex *)
  storage_log : list (Path * bytes);    (* storage.save calls, newest first *)
  locks_held : gset string;             (* named locks currently held *)
  clock : Z;                            (* timezone.now, seconds since epoch *)
  uuid_calls : nat                      (* how many uuid4 values were drawn *)
}.

(** The state-and-exception monad, over any state [S]: the world for the
    class methods, the world and the local variables of a call, or the
    fields of a reader object. *)
Definition M (S A : Type) : Type := S → Result A * S.

Definition ret {S A} (a : A) : M S A := λ s, (Ok a, s).
Definition raise {S A} (e : exn) : M S A := λ s, (Raise e, s).
Definition bind {S A B} (m : M S A) (k : A → M S B) : M S B :=
  λ s, match m s with
       | (Ok a, s') => k a s'
       | (Raise e, s') => (Raise e, s')
       end.
Definition get {S} : M S S := λ s, (Ok s, s).
Definition modify {S} (f : S → S) : M S unit := λ s, (Ok tt, f s).
Definition lift {S A} (r : Result A) : M S A := λ s, (r, s).

(** [try: m finally: h]: [h] runs on both exits; an exception of [m] is
    re-raised after [h] unless [h] raises itself. *)
Definition finally {S A} (m : M S A) (h : M S unit) : M S A :=
  λ s, match m s with
       | (r, s') => match h s' with
                    | (Ok _, s'') => (r, s'')
                    | (Raise e, s'') => (Raise e, s'')
                    end
       end.

(** A computation on the world, or on the local variables, run inside a
    call that has both. *)
Definition on_world {L A} (m : M World A) : M (L * World) A :=
  λ '(l, w), match m w with (r, w') => (r, (l, w')) end.
Definition on_local {L A} (m : M L A) : M (L * World) A :=
  λ '(l, w), match m l with (r, l') => (r, (l', w)) end.

Declare Scope m_scope.
Delimit Scope m_scope with M.
Notation "'let*' x := m 'in' k" := (bind m (λ x, k))
  (at level 10, x name, m at level 100, k at level 200) : m_scope.
Notation "'let*' ' p := m 'in' k" := (bind m (λ x, match x with p => k end))
  (at level 10, p pattern, m at level 100, k at level 200) : m_scope.
Notation "m ;; k" := (bind m (λ _, k))
  (at level 100, k at level 200, right associativity) : m_scope.
Open Scope m_scope.

(** World updates, one per field the module writes. *)
Definition set_fileblobs (l : list FileBlob) (w : World) : World :=
  mkWorld l (fileblobindexes w) (fileblobowners w) (files w) (next_blob_id w)
    (next_index_id w) (storage_log w) (locks_held w) (clock w) (uuid_calls w).
Definition set_fileblobindexes (l : list FileBlobIndex) (w : World) : World :=
  mkWorld (fileblobs w) l (fileblobowners w) (files w) (next_blob_id w)
    (next_index_id w) (storage_log w) (locks_held w) (clock w) (uuid_calls w).
Definition set_fileblobowners (l : list FileBlobOwner) (w : World) : World :=
  mkWorld (fileblobs w) (fileblobindexes w) l (files w) (next_blob_id w)
    (next_index_id w) (storage_log w) (locks_held w) (clock w) (uuid_calls w).
Definition set_files (l : list File) (w : World) : World :=
  mkWorld (fileblobs w) (fileblobindexes w) (fileblobowners w) l (next_blob_id w)
    (next_index_id w) (storage_log w) (locks_held w) (clock w) (uuid_calls w).
Definition set_next_blob_id (n : Z) (w : World) : World :=
  mkWorld (fileblobs w) (fileblobindexes w) (fileblobowners w) (files w) n
    (next_index_id w) (storage_log w) (locks_held w) (clock w) (uuid_calls w).
Definition set_next_index_id (n : Z) (w : World) : World :=
  mkWorld (fileblobs w) (fileblobindexes w) (fileblobowners w) (files w)
    (next_blob_id w) n (storage_log w) (locks_held w) (clock w) (uuid_calls w).
Definition set_storage_log (l : list (Path * bytes)) (w : World) : World :=
  mkWorld (fileblobs w) (fileblobindexes w) (fileblobowners w) (files w)
    (next_blob_id w) (next_index_id w) l (locks_held w) (clock w) (uuid_calls w).
Definition set_locks_held (s : gset string) (w : World) : World :=
  mkWorld (fileblobs w) (fileblobindexes w) (fileblobowners w) (files w)
    (next_blob_id w) (next_index_id w) (storage_log w) s (clock w) (uuid_calls w).
Definition set_uuid_calls (n : nat) (w : World) : World :=
  mkWorld (fileblobs w) (fileblobindexes w) (fileblobowners w) (files w)
    (next_blob_id w) (next_index_id w) (storage_log w) (locks_held w) (clock w) n.

(** ** The storage backend: [get_storage().save] and [.open]

    [save] stores the whole content of the file object under the path (a
    later save to the same path wins); [open] returns a fresh stream. *)
Definition storage_save (path : Path) (content : FileObj) : M World unit :=
  modify (λ w, set_storage_log ((path, f_chunks content) :: storage_log w) w).

Definition storage_lookup (log : list (Path * bytes)) (path : Path) : option bytes :=
  snd <$> find (λ e, bool_decide (e.1 = path)) log.

Definition storage_open (log : list (Path * bytes)) (path : Path) : Result FileObj :=
  match storage_lookup log path with
  | Some b => Ok (ContentFile b)
  | None => Raise (IOError "No such file or directory")
  end.

(** ** Named locks: [locks.get(key, duration).acquire] under a retry policy

    With a single caller a held lock is never released by anyone else, so
    the bounded retry ends in failure. *)
Definition lock_key (checksum : string) : string :=
  "fileblob:upload:" +:+ checksum.

Definition lock_acquire (key : string) : M World unit :=
  λ w, if bool_decide (key ∈ locks_held w) then (Raise UnableToAcquireLock, w)
       else (Ok tt, set_locks_held ({[key]} ∪ locks_held w) w).

Definition lock_release (key : string) : M World unit :=
  modify (λ w, set_locks_held (locks_held w ∖ {[key]}) w).

(** [FileBlob.objects.get(checksum=checksum)] *)
Definition FileBlob_objects_get (checksum : string) : M World FileBlob :=
  λ w, match filter (λ b, b_checksum b = checksum) (fileblobs w) with
       | [] => (Raise DoesNotExist, w)
       | [b] => (Ok b, w)
       | _ => (Raise MultipleObjectsReturned, w)
       end.

(** [blob.save()] of a new instance: the row gets the next primary key;
    the unique constraint on [checksum] refuses a second row. *)
Definition FileBlob_save (blob : FileBlob) : M World FileBlob :=
  λ w, if bool_decide (b_checksum blob ∈ b_checksum <$> fileblobs w)
       then (Raise IntegrityError, w)
       else
         let saved := mkFileBlob (next_blob_id w) (b_path blob) (b_size blob)
                        (b_checksum blob) (b_timestamp blob) in
         (Ok saved,
          set_next_blob_id (next_blob_id w + 1) (set_fileblobs (fileblobs w ++ [saved]) w)).

(** [FileBlobIndex.objects.create(file=file, blob=blob, offset=offset)]:
    the triple is unique together. *)
Definition FileBlobIndex_create (file : File) (blob : FileBlob) (offset : Z)
    : M World FileBlobIndex :=
  λ w, if bool_decide (Exists (λ i, idx_file i = file_id file
                                      ∧ b_id (idx_blob i) = b_id blob
                                      ∧ idx_offset i = offset) (fileblobindexes w))
       then (Raise IntegrityError, w)
       else
         let row := mkFileBlobIndex (next_index_id w) (file_id file) blob offset in
         (Ok row,
          set_next_index_id (next_index_id w + 1)
            (set_fileblobindexes (fileblobindexes w ++ [row]) w)).

(** [file.save()]: write the row with the file's primary key, replacing the
    one already there. *)
Definition File_save (file : File) : M World unit :=
  modify (λ w,
    if bool_decide (file_id file ∈ file_id <$> files w)
    then set_files ((λ r, if bool_decide (file_id r = file_id file) then file else r)
                      <$> files w) w
    else set_files (files w ++ [file]) w).

(** [with transaction.atomic(): body]: when the body raises, the relational
    tables are as they were on entry; storage, locks and the key sequences
    are outside the transaction. *)
Definition rollback (entry now : World) : World :=
  set_fileblobs (fileblobs entry)
    (set_fileblobindexes (fileblobindexes entry)
       (set_fileblobowners (fileblobowners entry)
          (set_files (files entry) now))).

Definition transaction_atomic {L A} (body : M (L * World) A) : M (L * World) A :=
  λ '(l, w), match body (l, w) with
             | (Ok a, s) => (Ok a, s)
             | (Raise e, (l', w')) => (Raise e, (l', rollback w w'))
             end.

(** [blob.getfile()] against a given storage content. *)
Definition getfile (log : list (Path * bytes)) (blob : FileBlob) : Result FileObj :=
  match b_path blob with
  | None => Raise AssertionError
  | Some path => storage_open log path
  end.

(** [FileBlob.objects.filter(id__in=ids).all()], in table order. *)
Definition FileBlob_objects_filter_id_in (ids : list Z) : M World (list FileBlob) :=
  λ w, (Ok (filter (λ b, b_id b ∈ ids) (fileblobs w)), w).

(** [ids.index(x)]: position of the first occurrence, [ValueError] when
    there is none. *)
Fixpoint list_index (x : Z) (ids : list Z) : option nat :=
  match ids with
  | [] => None
  | y :: ids => if bool_decide (y = x) then Some O else S <$> list_index x ids
  end.

(** [sorted(l, key=key)]: the keys are computed first, then a stable sort
    by key; written as an insertion sort that places an element after the
    elements whose key is not larger. *)
Fixpoint insert_by_key {A} (k : nat) (x : A) (l : list (nat * A)) : list (nat * A) :=
  match l with
  | [] => [(k, x)]
  | (k', y) :: l' =>
      if bool_decide (k < k')%nat then (k, x) :: l
      else (k', y) :: insert_by_key k x l'
  end.

Fixpoint sort_keyed {A} (l : list (nat * A)) : list (nat * A) :=
  match l with
  | [] => []
  | (k, x) :: l' => insert_by_key k x (sort_keyed l')
  end.

Fixpoint decorate {A} (key : A → option nat) (l : list A) : Result (list (nat * A)) :=
  match l with
  | [] => Ok []
  | x :: l' =>
      match key x with
      | None => Raise (ValueError "is not in list")
      | Some k => match decorate key l' with
                  | Ok d => Ok ((k, x) :: d)
                  | Raise e => Raise e
                  end
      end
  end.

Definition sorted {A} (key : A → option nat) (l : list A) : Result (list A) :=
  match decorate key l with
  | Ok d => Ok (snd <$> sort_keyed (reverse d))
  | Raise e => Raise e
  end.

Definition ONE_DAY : Z := 60 * 60 * 24.
Definition DEFAULT_BLOB_SIZE : Z := 1024 * 1024.
Definition MULTI_BLOB_UPLOAD_CONCURRENCY : nat := 8.

Section FileStore.

(** [hashlib.sha1(b).hexdigest()], and the sequence of values [uuid4()]
    returns. *)
Variable sha1 : bytes → string.
Variable uuid4 : nat → N.

(** *** Content hasher *)

(** The loop of [_get_size_and_checksum]; [checksum] holds the bytes fed to
    the hash object so far.  The file object is returned as the loop leaves
    it. *)
Fixpoint _get_size_and_checksum_loop (fuel : nat) (fileobj : FileObj)
    (size : Z) (checksum : bytes) : Result (Z * string) * FileObj :=
  match fuel with
  | O => (Raise Diverged, fileobj)
  | S fuel =>
      let '(chunk, fileobj) := f_read 65536 fileobj in
      if bool_decide (chunk = []) then (Ok (size, sha1 checksum), fileobj)
      else _get_size_and_checksum_loop fuel fileobj (size + len chunk) (checksum ++ chunk)
  end.

Definition _get_size_and_checksum (fileobj : FileObj) : Result (Z * string) * FileObj :=
  _get_size_and_checksum_loop (S (length (f_rest fileobj))) fileobj 0 [].

(** *** Blob store *)

(** [_locked_blob(checksum).__enter__()]: take the lock, then look the
    checksum up; an exception other than [DoesNotExist] leaves through the
    retry policy's [with], which releases the lock. *)
Definition _locked_blob_enter (checksum : string) : M World (option FileBlob) :=
  lock_acquire (lock_key checksum);;
  λ w, match FileBlob_objects_get checksum w with
       | (Ok existing, w) => (Ok (Some existing), w)
       | (Raise DoesNotExist, w) => (Ok None, w)
       | (Raise e, w) => (lock_release (lock_key checksum);; raise e) w
       end.

(** [_locked_blob(checksum).__exit__(None, None, None)] *)
Definition _locked_blob_exit (checksum : string) : M World unit :=
  lock_release (lock_key checksum).

(** [with _locked_blob(checksum) as existing: body] *)
Definition with_locked_blob {A} (checksum : string)
    (body : option FileBlob → M World A) : M World A :=
  let* existing := _locked_blob_enter checksum in
  finally (body existing) (_locked_blob_exit checksum).

(** [FileBlob.generate_unique_path(timestamp)] *)
Definition generate_unique_path (timestamp : Z) : M World Path :=
  λ w, (Ok (timestamp `div` ONE_DAY, timestamp `mod` ONE_DAY, uuid4 (uuid_calls w)),
        set_uuid_calls (S (uuid_calls w)) w).

(** [cls(size=size, checksum=checksum)]: an unsaved instance, stamped with
    [timezone.now]; the primary key is unset (written 0 here, [FileBlob_save]
    assigns it). *)
Definition FileBlob_new (size : Z) (checksum : string) : M World FileBlob :=
  λ w, (Ok (mkFileBlob 0 None size checksum (clock w)), w).

Definition with_path (path : Path) (blob : FileBlob) : FileBlob :=
  mkFileBlob (b_id blob) (Some path) (b_size blob) (b_checksum blob)
    (b_timestamp blob).

(** [FileBlob.from_file(fileobj)] *)
Definition from_file (fileobj : FileObj) : M World FileBlob :=
  let '(r, fileobj) := _get_size_and_checksum fileobj in
  let* '(size, checksum) := lift r in
  with_locked_blob checksum (λ existing,
    match existing with
    | Some existing => ret existing
    | None =>
        let* blob := FileBlob_new size checksum in
        let* path := generate_unique_path (b_timestamp blob) in
        let blob := with_path path blob in
        storage_save path fileobj;;
        FileBlob_save blob
    end).

(** *** Files: [File.putfile] and [File.assemble_from_file_blob_ids]

    A method of [File] runs on the pair of [self] (its in-memory fields)
    and the world. *)

Definition set_size_checksum (size : Z) (checksum : string) (self : File) : File :=
  mkFile (file_id self) (Some size) (Some checksum).

Definition self_save : M (File * World) unit :=
  let* self := on_local get in on_world (File_save self).

(** The [while True] loop of [putfile]; [checksum] holds the bytes fed to
    the running SHA-1. *)
Fixpoint putfile_loop (fuel : nat) (fileobj : FileObj) (blob_size : Z)
    (results : list FileBlobIndex) (offset : Z) (checksum : bytes)
    : M (File * World) (list FileBlobIndex * Z * bytes) :=
  match fuel with
  | O => raise Diverged
  | S fuel =>
      let '(contents, fileobj) := f_read blob_size fileobj in
      if bool_decide (contents = []) then ret (results, offset, checksum)
      else
        let checksum := checksum ++ contents in
        let blob_fileobj := ContentFile contents in
        let* blob := on_world (from_file blob_fileobj) in
        let* self := on_local get in
        let* row := on_world (FileBlobIndex_create self blob offset) in
        putfile_loop fuel fileobj blob_size (results ++ [row])
          (offset + b_size blob) checksum
  end.

(** [file.putfile(fileobj, blob_size, commit)] *)
Definition putfile (fileobj : FileObj) (blob_size : Z) (commit : bool)
    : M (File * World) (list FileBlobIndex) :=
  let* '(results, offset, checksum) :=
    putfile_loop (S (length (f_rest fileobj))) fileobj blob_size [] 0 [] in
  on_local (modify (set_size_checksum offset (sha1 checksum)));;
  (if commit then self_save else ret tt);;
  ret results.

(** The [for blob in file_blobs] loop of [assemble_from_file_blob_ids];
    the chunks of a blob are fed to the hash and written to the temp file
    in order, which is the blob's whole content. *)
Fixpoint assemble_loop (file_blobs : list FileBlob) (offset : Z)
    (new_checksum : bytes) (tf : FileObj)
    : M (File * World) (Z * bytes * FileObj) :=
  match file_blobs with
  | [] => ret (offset, new_checksum, tf)
  | blob :: file_blobs =>
      let* self := on_local get in
      on_world (FileBlobIndex_create self blob offset);;
      let* w := on_world get in
      let* f := lift (getfile (storage_log w) blob) in
      let chunks := f_chunks f in
      assemble_loop file_blobs (offset + b_size blob)
        (new_checksum ++ chunks) (f_write chunks tf)
  end.

(** [file.assemble_from_file_blob_ids(file_blob_ids, checksum, commit)] *)
Definition assemble_from_file_blob_ids (file_blob_ids : list Z) (checksum : string)
    (commit : bool) : M (File * World) FileObj :=
  let tf := ContentFile [] in
  let* '(offset, tf) :=
    transaction_atomic (
      let* file_blobs := on_world (FileBlob_objects_filter_id_in file_blob_ids) in
      let* file_blobs :=
        lift (sorted (λ blob, list_index (b_id blob) file_blob_ids) file_blobs) in
      let* '(offset, new_checksum, tf) := assemble_loop file_blobs 0 [] tf in
      on_local (modify (set_size_checksum offset (sha1 new_checksum)));;
      if bool_decide (checksum ≠ sha1 new_checksum)
      then raise (AssembleChecksumMismatch "Checksum mismatch")
      else ret (offset, tf)) in
  (if commit then self_save else ret tt);;
  lift (f_seek 0 tf).

(** *** Batch intake: [FileBlob.from_files] *)

(** An element of [files]: a file object, or a tuple of a file object and
    a reference checksum (which may be [None]). *)
Inductive upload :=
| Plain (fileobj : FileObj)
| Tuple (fileobj : FileObj) (reference_checksum : option string).

(** What a call evaluates to. *)
Inductive pyvalue :=
| PyNone
| PyBlobs (l : list FileBlob).

(** The local variables of one [from_files] call that its nested functions
    share.  A lock object is identified by the checksum it was made for;
    [blobs_to_save] grows at the end and is popped from the end. *)
Record FromFiles := mkFromFiles {
  checksums_seen : list string;
  blobs_created : list FileBlob;
  blobs_to_save : list (FileBlob * string);
  locks : list string;
  semaphore : nat
}.

Definition set_checksums_seen (l : list string) (s : FromFiles) : FromFiles :=
  mkFromFiles l (blobs_created s) (blobs_to_save s) (locks s) (semaphore s).
Definition set_blobs_created (l : list FileBlob) (s : FromFiles) : FromFiles :=
  mkFromFiles (checksums_seen s) l (blobs_to_save s) (locks s) (semaphore s).
Definition set_blobs_to_save (l : list (FileBlob * string)) (s : FromFiles) : FromFiles :=
  mkFromFiles (checksums_seen s) (blobs_created s) l (locks s) (semaphore s).
Definition set_locks (l : list string) (s : FromFiles) : FromFiles :=
  mkFromFiles (checksums_seen s) (blobs_created s) (blobs_to_save s) l (semaphore s).
Definition set_semaphore (n : nat) (s : FromFiles) : FromFiles :=
  mkFromFiles (checksums_seen s) (blobs_created s) (blobs_to_save s) (locks s) n.

(** [FileBlobOwner.objects.create(organization=organization, blob=blob)]:
    the pair is unique together. *)
Definition FileBlobOwner_create (organization : Z) (blob : FileBlob) : M World unit :=
  λ w, let row := mkFileBlobOwner (b_id blob) organization in
       if bool_decide (row ∈ fileblobowners w) then (Raise IntegrityError, w)
       else (Ok tt, set_fileblobowners (fileblobowners w ++ [row]) w).

Section from_files.

Variable organization : option Z.

(** [_upload_and_pend_chunk(fileobj, size, checksum, lock)] *)
Definition _upload_and_pend_chunk (fileobj : FileObj) (size : Z) (checksum : string)
    (lock : string) : M (FromFiles * World) unit :=
  let* blob := on_world (FileBlob_new size checksum) in
  let* path := on_world (generate_unique_path (b_timestamp blob)) in
  let blob := with_path path blob in
  on_world (storage_save path fileobj);;
  on_local (modify (λ s, set_blobs_to_save (blobs_to_save s ++ [(blob, lock)]) s)).

(** [_ensure_blob_owned(blob)] *)
Definition _ensure_blob_owned (blob : FileBlob) : M (FromFiles * World) unit :=
  match organization with
  | None => ret tt
  | Some organization =>
      λ s, match transaction_atomic (on_world (FileBlobOwner_create organization blob)) s with
           | (Raise IntegrityError, s') => (Ok tt, s')
           | other => other
           end
  end.

(** [_save_blob(blob)]; the saved row is what [blob] denotes afterwards. *)
Definition _save_blob (blob : FileBlob) : M (FromFiles * World) unit :=
  let* blob := on_world (FileBlob_save blob) in
  _ensure_blob_owned blob.

(** [semaphore.acquire()]: with no permit left the call never returns. *)
Definition semaphore_acquire : M (FromFiles * World) unit :=
  λ '(s, w), match semaphore s with
             | O => (Raise Diverged, (s, w))
             | S n => (Ok tt, (set_semaphore n s, w))
             end.

Definition semaphore_release : M (FromFiles * World) unit :=
  on_local (modify (λ s, set_semaphore (S (semaphore s)) s)).

(** [_flush_blobs()]: pop until [IndexError]. *)
Fixpoint _flush_blobs_loop (fuel : nat) : M (FromFiles * World) unit :=
  match fuel with
  | O => raise Diverged
  | S fuel =>
      let* s := on_local get in
      match reverse (blobs_to_save s) with
      | [] => ret tt
      | (blob, lock) :: rest =>
          on_local (modify (set_blobs_to_save (reverse rest)));;
          _save_blob blob;;
          on_world (_locked_blob_exit lock);;
          on_local (modify (λ s, set_locks (filter (λ l, l ≠ lock) (locks s)) s));;
          semaphore_release;;
          _flush_blobs_loop fuel
      end
  end.

Definition _flush_blobs : M (FromFiles * World) unit :=
  let* s := on_local get in
  _flush_blobs_loop (S (length (blobs_to_save s))).

(** The body of the [for fileobj, reference_checksum in files_with_checksums]
    loop.  [exe.submit] receives the value of the call
    [_upload_and_pend_chunk(...)], so the upload runs in the calling thread
    before [submit]; what the pool is then given is [None], and the failure
    of that task stays in a future nobody reads. *)
Definition from_files_step (fileobj : FileObj) (reference_checksum : option string)
    : M (FromFiles * World) unit :=
  _flush_blobs;;
  let '(r, fileobj) := _get_size_and_checksum fileobj in
  let* '(size, checksum) := lift r in
  if match reference_checksum with
     | Some c => bool_decide (checksum ≠ c)
     | None => false
     end
  then raise (IOError "Checksum mismatch")
  else
    let* s := on_local get in
    if bool_decide (checksum ∈ checksums_seen s) then ret tt
    else
      on_local (modify (λ s, set_checksums_seen (checksum :: checksums_seen s) s));;
      let lock := checksum in
      let* existing := on_world (_locked_blob_enter checksum) in
      match existing with
      | Some existing =>
          on_world (_locked_blob_exit lock);;
          on_local (modify (λ s, set_blobs_created (blobs_created s ++ [existing]) s));;
          _ensure_blob_owned existing
      | None =>
          on_local (modify (λ s, set_locks (lock :: locks s) s));;
          semaphore_acquire;;
          _upload_and_pend_chunk fileobj size checksum lock
      end.

Fixpoint from_files_loop (files_with_checksums : list (FileObj * option string))
    : M (FromFiles * World) unit :=
  match files_with_checksums with
  | [] => ret tt
  | (fileobj, reference_checksum) :: rest =>
      from_files_step fileobj reference_checksum;;
      from_files_loop rest
  end.

(** The [finally] clause: every lock still in [locks] is released, a
    failing release is ignored. *)
Definition release_locks : M (FromFiles * World) unit :=
  λ '(s, w), (Ok tt, (s, foldr (λ lock w, (_locked_blob_exit lock w).2) w (locks s))).

Definition files_with_checksums (files : list upload) : list (FileObj * option string) :=
  (λ u, match u with
        | Plain fileobj => (fileobj, None)
        | Tuple fileobj reference_checksum => (fileobj, reference_checksum)
        end) <$> files.

(** [FileBlob.from_files(files, organization)]: the body has no [return]
    statement. *)
Definition from_files (files : list upload) : M World pyvalue :=
  λ w,
    let locals := mkFromFiles [] [] [] [] MULTI_BLOB_UPLOAD_CONCURRENCY in
    match finally (from_files_loop (files_with_checksums files);; _flush_blobs)
                  release_locks (locals, w) with
    | (Ok _, (_, w')) => (Ok PyNone, w')
    | (Raise e, (_, w')) => (Raise e, w')
    end.

End from_files.

End FileStore.

(** ** The chunked reader: [ChunkedFileBlobIndexWrapper]

    The fields of the object are the state; [_idxiter] is the part of the
    list the iterator has not yielded yet.  The methods read the storage
    backend, whose content is fixed while a reader is used. *)

Record ChunkedFileBlobIndexWrapper := mkWrapper {
  _indexes : list FileBlobIndex;
  _curfile : option FileObj;
  _curidx : option FileBlobIndex;
  _idxiter : list FileBlobIndex;
  prefetched : bool;
  closed : bool
}.

Definition set_curfile (f : option FileObj) (r : ChunkedFileBlobIndexWrapper) :=
  mkWrapper (_indexes r) f (_curidx r) (_idxiter r) (prefetched r) (closed r).
Definition set_curidx (i : option FileBlobIndex) (r : ChunkedFileBlobIndexWrapper) :=
  mkWrapper (_indexes r) (_curfile r) i (_idxiter r) (prefetched r) (closed r).
Definition set_idxiter (l : list FileBlobIndex) (r : ChunkedFileBlobIndexWrapper) :=
  mkWrapper (_indexes r) (_curfile r) (_curidx r) l (prefetched r) (closed r).
Definition set_closed (b : bool) (r : ChunkedFileBlobIndexWrapper) :=
  mkWrapper (_indexes r) (_curfile r) (_curidx r) (_idxiter r) (prefetched r) b.

(** [enumerate(l)] *)
Definition enumerate {A} (l : list A) : list (nat * A) := zip (seq 0 (length l)) l.

(** [idx != self._curidx]: model instances compare by primary key, and
    differ from [None]. *)
Definition idx_ne (idx : FileBlobIndex) (cur : option FileBlobIndex) : bool :=
  match cur with
  | None => true
  | Some cur => bool_decide (idx_id idx ≠ idx_id cur)
  end.

(** [mem[start:stop] = chunk] on a memory map: the slice bounds are clipped
    as for any sequence, and the assignment must not change the size. *)
Definition clip (length i : Z) : Z :=
  if i <? 0 then Z.max (i + length) 0 else Z.min i length.

Definition mmap_setslice (start stop : Z) (chunk : bytes) : M bytes unit :=
  λ mem,
    let start := clip (len mem) start in
    let stop := clip (len mem) stop in
    let slicelen := Z.max (stop - start) 0 in
    if bool_decide (len chunk ≠ slicelen)
    then (Raise (IndexError "mmap slice assignment is wrong size"), mem)
    else (Ok tt, take (Z.to_nat start) mem ++ chunk
                   ++ drop (Z.to_nat start + length chunk) mem).

Section Reader.

Variable log : list (Path * bytes).

(** The [size] property. *)
Definition size (r : ChunkedFileBlobIndexWrapper) : Z :=
  foldr (λ i acc, b_size (idx_blob i) + acc) 0 (_indexes r).

Definition _nextidx : M ChunkedFileBlobIndexWrapper unit :=
  λ r,
    if prefetched r then (Raise AssertionError, r)
    else match _idxiter r with
         | [] => (Ok tt, set_curfile None (set_curidx None r))
         | idx :: rest =>
             let r := set_curidx (Some idx) (set_idxiter rest r) in
             match getfile log (idx_blob idx) with
             | Ok f => (Ok tt, set_curfile (Some f) r)
             | Raise e => (Raise e, r)
             end
         end.

(** [self._curfile.seek(pos)] *)
Definition curfile_seek (pos : Z) : M ChunkedFileBlobIndexWrapper unit :=
  λ r, match _curfile r with
       | None => (Raise AttributeError, r)
       | Some f => match f_seek pos f with
                   | Ok f => (Ok tt, set_curfile (Some f) r)
                   | Raise e => (Raise e, r)
                   end
       end.

Definition seek (pos : Z) : M ChunkedFileBlobIndexWrapper unit :=
  let* r := get in
  if closed r then raise (ValueError "I/O operation on closed file")
  else if prefetched r then curfile_seek pos
  else if pos <? 0 then raise (IOError "Invalid argument")
  else
    match find (λ '(n, idx), bool_decide (idx_offset idx ≤ pos))
               (enumerate (reverse (_indexes r))) with
    | Some (n, idx) =>
        (if idx_ne idx (_curidx r)
         then modify (set_idxiter (drop (length (_indexes r) - (n + 1)) (_indexes r)));;
              _nextidx
         else ret tt);;
        let* r := get in
        match _curidx r with
        | None => raise AttributeError
        | Some curidx => curfile_seek (pos - idx_offset curidx)
        end
    | None => raise (ValueError "Cannot seek to pos")
    end.

Definition tell : M ChunkedFileBlobIndexWrapper Z :=
  let* r := get in
  if closed r then raise (ValueError "I/O operation on closed file")
  else match _curfile r with
       | None => if prefetched r then raise AttributeError else ret (size r)
       | Some f =>
           if prefetched r then ret (f_tell f)
           else match _curidx r with
                | None => raise AttributeError
                | Some curidx => ret (idx_offset curidx + f_tell f)
                end
       end.

(** [blob_result = self._curfile.read(n)] *)
Definition curfile_read (n : Z) : M ChunkedFileBlobIndexWrapper bytes :=
  λ r, match _curfile r with
       | None => (Raise AttributeError, r)
       | Some f => let '(out, f) := f_read n f in (Ok out, set_curfile (Some f) r)
       end.

(** The loop of [read] for [n < 0]. *)
Fixpoint read_all_loop (fuel : nat) (result : bytes) : M ChunkedFileBlobIndexWrapper bytes :=
  match fuel with
  | O => raise Diverged
  | S fuel =>
      let* r := get in
      match _curfile r with
      | None => ret result
      | Some _ =>
          let* blob_result := curfile_read 32768 in
          if bool_decide (blob_result = []) then _nextidx;; read_all_loop fuel result
          else read_all_loop fuel (result ++ blob_result)
      end
  end.

(** The loop of [read] for [n >= 0]. *)
Fixpoint read_n_loop (fuel : nat) (n : Z) (result : bytes) : M ChunkedFileBlobIndexWrapper bytes :=
  match fuel with
  | O => raise Diverged
  | S fuel =>
      let* r := get in
      match _curfile r with
      | None => ret result
      | Some _ =>
          if bool_decide (n > 0) then
            let* blob_result := curfile_read (Z.min n 32768) in
            if bool_decide (blob_result = []) then _nextidx;; read_n_loop fuel n result
            else read_n_loop fuel (n - len blob_result) (result ++ blob_result)
          else ret result
      end
  end.

(** Enough iterations for either loop: every iteration takes a byte from
    the current stream or moves to the next index entry. *)
Definition stored_length (idx : FileBlobIndex) : nat :=
  match getfile log (idx_blob idx) with
  | Ok f => length (f_data f)
  | Raise _ => 0
  end.

Definition read_fuel (r : ChunkedFileBlobIndexWrapper) : nat :=
  S (from_option (λ f, S (length (f_rest f))) 0%nat (_curfile r)
     + foldr (λ idx acc, S (stored_length idx) + acc)%nat 0%nat (_idxiter r)).

Definition read (n : Z) : M ChunkedFileBlobIndexWrapper bytes :=
  let* r := get in
  if closed r then raise (ValueError "I/O operation on closed file")
  else if prefetched r then curfile_read n
  else if n <? 0 then read_all_loop (read_fuel r) []
  else read_n_loop (read_fuel r) n [].

Definition close : M ChunkedFileBlobIndexWrapper unit :=
  modify (λ r, set_closed true (set_curidx None (set_curfile None r))).

Definition open : M ChunkedFileBlobIndexWrapper unit :=
  modify (set_closed false);;
  seek 0.

(** [fetch_file(offset, getfile)], the task of one worker; the state is the
    memory map. *)
Fixpoint fetch_file_loop (fuel : nat) (offset : Z) (sf : FileObj) : M bytes unit :=
  match fuel with
  | O => raise Diverged
  | S fuel =>
      let '(chunk, sf) := f_read 65535 sf in
      if bool_decide (chunk = []) then ret tt
      else mmap_setslice offset (offset + len chunk) chunk;;
           fetch_file_loop fuel (offset + len chunk) sf
  end.

Definition fetch_file (offset : Z) (blob : FileBlob) : M bytes unit :=
  let* sf := lift (getfile log blob) in
  fetch_file_loop (S (length (f_rest sf))) offset sf.

(** [exe.submit(task)] followed by the pool's shutdown: the task has run;
    an exception it raised stays in its future. *)
Definition submit (task : M bytes unit) : M bytes unit :=
  λ mem, match task mem with
         | (Raise Diverged, mem) => (Raise Diverged, mem)
         | (_, mem) => (Ok tt, mem)
         end.

(** The workers' tasks, run one after the other in the order [order]. *)
Fixpoint fetch_all (order : list FileBlobIndex) : M bytes unit :=
  match order with
  | [] => ret tt
  | idx :: order => submit (fetch_file (idx_offset idx) (idx_blob idx));; fetch_all order
  end.

(** [_prefetch]: the temp file is extended to [size] bytes by writing one
    zero byte at [size - 1], mapped, filled by the workers and becomes the
    current file.  [schedule] is the order in which the workers' tasks
    run. *)
Definition _prefetch_scheduled (schedule : list FileBlobIndex)
    : M ChunkedFileBlobIndexWrapper unit :=
  let* r := get in
  let size := size r in
  let f := ContentFile [] in
  if bool_decide (size = 0) then modify (set_curfile (Some f))
  else
    let* f := lift (f_seek (size - 1) f) in
    let f := f_write [Byte.x00] f in
    match fetch_all schedule (f_data f) with
    | (Ok _, mem) => modify (set_curfile (Some (mkFileObj mem (f_pos f))))
    | (Raise e, _) => raise e
    end.

Definition _prefetch : M ChunkedFileBlobIndexWrapper unit :=
  let* r := get in _prefetch_scheduled (_indexes r).

(** [ChunkedFileBlobIndexWrapper(indexes, prefetch=prefetch)] *)
Definition ChunkedFileBlobIndexWrapper_init (indexes : list FileBlobIndex)
    (prefetch : bool) : Result ChunkedFileBlobIndexWrapper :=
  let self := mkWrapper indexes None None [] prefetch false in
  match ((if prefetch then _prefetch else ret tt);; open) self with
  | (Ok _, self) => Ok self
  | (Raise e, _) => Raise e
  end.

Definition detach_tempfile : M ChunkedFileBlobIndexWrapper FileObj :=
  let* r := get in
  if negb (prefetched r) then raise (TypeError "Can only detech tempfiles in prefetch mode")
  else
    let rv := _curfile r in
    modify (set_curfile None);;
    close;;
    match rv with
    | None => raise AttributeError
    | Some rv => lift (f_seek 0 rv)
    end.

End Reader.

(** ** Vocabulary of the properties *)

(** The rows start at [o] and each next offset is the previous offset plus
    the previous blob's size. *)
Fixpoint cumulative_from (o : Z) (rows : list FileBlobIndex) : Prop :=
  match rows with
  | [] => True
  | row :: rows => idx_offset row = o ∧ cumulative_from (o + b_size (idx_blob row)) rows
  end.

(** The bytes the storage backend holds for a blob. *)
Definition blob_data (log : list (Path * bytes)) (blob : FileBlob) : bytes :=
  match getfile log blob with
  | Ok f => f_data f
  | Raise _ => []
  end.

(** A blob whose bytes can be fetched and whose [size] is their number. *)
Definition blob_ok (log : list (Path * bytes)) (blob : FileBlob) : Prop :=
  getfile log blob = Ok (ContentFile (blob_data log blob))
  ∧ b_size blob = len (blob_data log blob).

(** The concatenation of the blobs of an index, in list order. *)
Definition file_bytes (log : list (Path * bytes)) (indexes : list FileBlobIndex) : bytes :=
  concat ((λ idx, blob_data log (idx_blob idx)) <$> indexes).

(** The index of a file as [File._get_chunked_blob] hands it to the reader:
    rows with distinct primary keys, at cumulative offsets from 0, over
    blobs that are in the storage backend. *)
Definition indexed (log : list (Path * bytes)) (indexes : list FileBlobIndex) : Prop :=
  NoDup (idx_id <$> indexes)
  ∧ cumulative_from 0 indexes
  ∧ Forall (λ idx, blob_ok log (idx_blob idx)) indexes.

(** The calls a program can make on a reader, and the states they lead to
    from a streaming-mode reader over [indexes]. *)
Inductive reachable (log : list (Path * bytes)) (indexes : list FileBlobIndex)
    : ChunkedFileBlobIndexWrapper → Prop :=
| reach_init r :
    ChunkedFileBlobIndexWrapper_init log indexes false = Ok r → reachable log indexes r
| reach_seek r pos :
    reachable log indexes r → reachable log indexes (seek log pos r).2
| reach_read r n :
    reachable log indexes r → reachable log indexes (read log n r).2
| reach_tell r :
    reachable log indexes r → reachable log indexes (tell r).2
| reach_close r :
    reachable log indexes r → reachable log indexes (close r).2
| reach_open r :
    reachable log indexes r → reachable log indexes (open log r).2.

(** The logical offset of an open streaming-mode reader. *)
Definition position (r : ChunkedFileBlobIndexWrapper) : Z :=
  match _curfile r, _curidx r with
  | Some f, Some idx => idx_offset idx + f_tell f
  | _, _ => size r
  end.

(** A sequence of calls on a reader, keeping what each one raised. *)
Inductive call :=
| CallRead (n : Z)
| CallSeek (pos : Z)
| CallTell.

Definition raised {S A} (x : Result A * S) : option exn * S :=
  match x with
  | (Ok _, s) => (None, s)
  | (Raise e, s) => (Some e, s)
  end.

Definition run_call (log : list (Path * bytes)) (c : call)
    (r : ChunkedFileBlobIndexWrapper) : option exn * ChunkedFileBlobIndexWrapper :=
  match c with
  | CallRead n => raised (read log n r)
  | CallSeek pos => raised (seek log pos r)
  | CallTell => raised (tell r)
  end.

Fixpoint run_calls (log : list (Path * bytes)) (cs : list call)
    (r : ChunkedFileBlobIndexWrapper) : list (option exn) :=
  match cs with
  | [] => []
  | c :: cs => let '(e, r) := run_call log c r in e :: run_calls log cs r
  end.

(** What a streaming-mode reader has still to return: the rest of the
    current stream, then the blobs the iterator has not yielded. *)
Definition remaining (log : list (Path * bytes)) (r : ChunkedFileBlobIndexWrapper) : bytes :=
  match _curfile r with
  | None => []
  | Some f => f_rest f ++ file_bytes log (_idxiter r)
  end.

(** The state a streaming-mode reader is left in by reading to the end. *)
Definition drained (r : ChunkedFileBlobIndexWrapper) : ChunkedFileBlobIndexWrapper :=
  match _curfile r with
  | None => r
  | Some _ => mkWrapper (_indexes r) None None [] (prefetched r) (closed r)
  end.

(** The invariant of a streaming-mode reader: either no stream is open, or
    the open stream is that of the current entry, positioned inside it
    (anywhere, for the last entry), and the iterator stands just after the
    current entry. *)
Definition streaming_inv (log : list (Path * bytes)) (r : ChunkedFileBlobIndexWrapper) : Prop :=
  prefetched r = false
  ∧ ((_curfile r = None ∧ _curidx r = None)
     ∨ ∃ pre idx post f,
         _indexes r = pre ++ idx :: post ∧ _curidx r = Some idx ∧ _idxiter r = post
         ∧ _curfile r = Some f ∧ f_data f = blob_data log (idx_blob idx)
         ∧ ((f_pos f ≤ length (f_data f))%nat ∨ post = [])).

(** ** A small store, used by the examples *)

Definition ex_log : list (Path * bytes) :=
  [((0, 0, 2%N), [Byte.x6c; Byte.x6c; Byte.x6f]); ((0, 0, 1%N), [Byte.x68; Byte.x65])].
Definition ex_blob1 : FileBlob := mkFileBlob 1 (Some (0, 0, 1%N)) 2 "sha1-of-he" 0.
Definition ex_blob2 : FileBlob := mkFileBlob 2 (Some (0, 0, 2%N)) 3 "sha1-of-llo" 0.
Definition ex_indexes : list FileBlobIndex :=
  [mkFileBlobIndex 1 7 ex_blob1 0; mkFileBlobIndex 2 7 ex_blob2 2].
Definition ex_reader : ChunkedFileBlobIndexWrapper :=
  mkWrapper ex_indexes (Some (mkFileObj [Byte.x68; Byte.x65] 0))
    (Some (mkFileBlobIndex 1 7 ex_blob1 0)) [mkFileBlobIndex 2 7 ex_blob2 2] false false.

(** What every call on a streaming-mode reader over [indexes] keeps. *)
Definition reader_inv (log : list (Path * bytes)) (indexes : list FileBlobIndex)
    (r : ChunkedFileBlobIndexWrapper) : Prop :=
  _indexes r = indexes ∧ indexes ≠ [] ∧ streaming_inv log r.

(** The buffer [mem] after [data] was written into it at [off]. *)
Definition write_at (off : nat) (data mem : bytes) : bytes :=
  take off mem ++ data ++ drop (off + length data) mem.

(** The row [from_file] creates for new content, and the world it leaves. *)
Definition new_blob (sha1 : bytes → string) (uuid4 : nat → N) (w : World)
    (data : bytes) : FileBlob :=
  mkFileBlob (next_blob_id w)
    (Some (clock w `div` ONE_DAY, clock w `mod` ONE_DAY, uuid4 (uuid_calls w)))
    (len data) (sha1 data) (clock w).

Definition new_blob_path (uuid4 : nat → N) (w : World) : Path :=
  (clock w `div` ONE_DAY, clock w `mod` ONE_DAY, uuid4 (uuid_calls w)).

Definition world_after_upload (sha1 : bytes → string) (uuid4 : nat → N) (w : World)
    (data : bytes) : World :=
  mkWorld (fileblobs w ++ [new_blob sha1 uuid4 w data]) (fileblobindexes w)
    (fileblobowners w) (files w) (next_blob_id w + 1) (next_index_id w)
    ((new_blob_path uuid4 w, data) :: storage_log w) (locks_held w) (clock w)
    (S (uuid_calls w)).

(** A stand-in for SHA-1 in the examples: it is injective, which is all the
    properties below ask of the digest.  And a stand-in for [uuid4]. *)
Definition ex_sha1 (b : bytes) : string := String.string_of_list_byte b.
Definition ex_uuid4 (n : nat) : N := N.of_nat n.
Definition ex_world : World := mkWorld [] [] [] [] 1 1 [] ∅ 1000000 0.
Definition ex_hello : bytes := [Byte.x68; Byte.x65; Byte.x6c; Byte.x6c; Byte.x6f].

(** The world between calls of a single caller: no upload lock is held,
    checksums are unique among the rows, and the size of a row is the
    length of the content its checksum stands for. *)
Definition store_consistent (sha1 : bytes → string) (w : World) : Prop :=
  locks_held w = ∅
  ∧ NoDup (b_checksum <$> fileblobs w)
  ∧ ∀ b data, b ∈ fileblobs w → b_checksum b = sha1 data → b_size b = len data.

(** How many chunks [putfile] cuts [total] bytes into (a negative chunk
    size reads everything at once), and where they start. *)
Definition chunk_count (total blob_size : Z) : Z :=
  if blob_size <? 0 then Z.min total 1 else (total + blob_size - 1) `div` blob_size.

Definition chunk_offsets (total blob_size : Z) : list Z :=
  (λ k, k * blob_size) <$> seqZ 0 (chunk_count total blob_size).

(** The blobs [assemble_from_file_blob_ids] works on, in its order: for
    each identifier of the caller's list in turn, the rows that have it
    (none at a repeated identifier). *)
Fixpoint ordered_blobs (ids : list Z) (table : list FileBlob) : list FileBlob :=
  match ids with
  | [] => []
  | id :: ids =>
      filter (λ b, b_id b = id) table
        ++ ordered_blobs ids (filter (λ b, b_id b ≠ id) table)
  end.

(** The elements of a keyed list whose key is in [k, k + m), by key and,
    for one key, in list order: what a stable sort by key returns. *)
Fixpoint buckets_from {A} (k m : nat) (d : list (nat * A)) : list (nat * A) :=
  match m with
  | O => []
  | S m => filter (λ p, p.1 = k) d ++ buckets_from (S k) m d
  end.

(** The sum of the sizes the rows of [blobs] record. *)
Definition total_size (blobs : list FileBlob) : Z :=
  foldr (λ b acc, b_size b + acc) 0 blobs.

(** What [assemble_from_file_blob_ids] puts together from a world. *)
Definition assembled (w : World) (ids : list Z) : bytes :=
  concat (blob_data (storage_log w) <$> ordered_blobs ids (fileblobs w)).

(** A world to assemble from: the two example blobs, kept in the table in
    the reverse of the order a caller asks for, and a file that has no
    rows yet. *)
Definition ex_store : World :=
  mkWorld [ex_blob2; ex_blob1] [] [] [] 3 1 ex_log ∅ 1000000 0.
Definition ex_file : File := mkFile 7 None None.

(** The inputs of a batch whose content is new: not among the checksums
    [known] and not the content of an earlier input of the batch. *)
Fixpoint distinct_new (sha1 : bytes → string) (known : list string)
    (datas : list bytes) : list bytes :=
  match datas with
  | [] => []
  | d :: datas =>
      if bool_decide (sha1 d ∈ known) then distinct_new sha1 known datas
      else d :: distinct_new sha1 (sha1 d :: known) datas
  end.

(** A batch of plain file objects. *)
Definition plain_files (datas : list bytes) : list upload :=
  (λ d, Plain (ContentFile d)) <$> datas.

(** What identifies the content of a row: its checksum and size. *)
Definition blob_info (b : FileBlob) : string * Z := (b_checksum b, b_size b).

(** The rows of the table followed by the blobs that are uploaded but not
    saved yet. *)
Definition table_and_pending (s : FromFiles) (w : World) : list FileBlob :=
  fileblobs w ++ (fst <$> blobs_to_save s).

(** Between two steps of a [from_files] call of a single caller: at most
    one upload waits to be saved, under its checksum's lock, which is the
    only lock held and the only permit taken; checksums are unique among
    the rows and the waiting upload; every checksum seen is among them. *)
Definition batch_inv (s : FromFiles) (w : World) : Prop :=
  (length (blobs_to_save s) ≤ 1)%nat
  ∧ Forall (λ p : FileBlob * string, p.2 = b_checksum p.1) (blobs_to_save s)
  ∧ locks s = snd <$> blobs_to_save s
  ∧ (semaphore s + length (blobs_to_save s))%nat = MULTI_BLOB_UPLOAD_CONCURRENCY
  ∧ locks_held w = list_to_set (lock_key <$> locks s)
  ∧ NoDup (b_checksum <$> table_and_pending s w)
  ∧ ∀ c, c ∈ checksums_seen s → c ∈ b_checksum <$> table_and_pending s w.

(** A batch of six inputs of which the second and the fifth repeat the
    first. *)
Definition ex_batch : list bytes :=
  [ex_hello; ex_hello; [Byte.x61]; [Byte.x62]; ex_hello; [Byte.x63]].

(** ** Reading a file back: [File._get_chunked_blob] and [File.getfile] *)

(** [select_related('blob')]: the index row together with the current row
    of its blob; the relation is not nullable, so the join is an inner
    join and a row whose blob is gone is not returned. *)
Definition select_related_blob (w : World) (i : FileBlobIndex) : option FileBlobIndex :=
  (λ b, mkFileBlobIndex (idx_id i) (idx_file i) b (idx_offset i))
    <$> find (λ b, bool_decide (b_id b = b_id (idx_blob i))) (fileblobs w).

(** [order_by('offset')]: ascending; rows with the same offset are kept in
    table order. *)
Fixpoint insert_by_offset (i : FileBlobIndex) (l : list FileBlobIndex)
    : list FileBlobIndex :=
  match l with
  | [] => [i]
  | j :: l' =>
      if bool_decide (idx_offset i < idx_offset j) then i :: l
      else j :: insert_by_offset i l'
  end.

Definition order_by_offset (l : list FileBlobIndex) : list FileBlobIndex :=
  foldr insert_by_offset [] (reverse l).

(** [FileBlobIndex.objects.filter(file=self).select_related('blob')
      .order_by('offset')] *)
Definition FileBlobIndex_objects_filter_file (self : File) (w : World)
    : list FileBlobIndex :=
  order_by_offset
    (omap (select_related_blob w)
       (filter (λ i, idx_file i = file_id self) (fileblobindexes w))).

(** [file._get_chunked_blob(mode, prefetch)]; [mode] is only stored on the
    reader and is left out. *)
Definition _get_chunked_blob (self : File) (prefetch : bool) (w : World)
    : Result ChunkedFileBlobIndexWrapper :=
  ChunkedFileBlobIndexWrapper_init (storage_log w)
    (FileBlobIndex_objects_filter_file self w) prefetch.

(** What [File.getfile] returns: the reader (wrapped in a Django [File],
    whose [read], [seek] and [tell] are those of the reader), or the
    detached temp file. *)
Inductive getfile_result :=
| AsReader (impl : ChunkedFileBlobIndexWrapper)
| AsTempfile (f : FileObj).

(** [file.getfile(mode, prefetch, as_tempfile)] *)
Definition File_getfile (self : File) (prefetch as_tempfile : bool) (w : World)
    : Result getfile_result :=
  let prefetch := if as_tempfile then true else prefetch in
  match _get_chunked_blob self prefetch w with
  | Raise e => Raise e
  | Ok impl =>
      if as_tempfile then
        match detach_tempfile impl with
        | (Ok f, _) => Ok (AsTempfile f)
        | (Raise e, _) => Raise e
        end
      else Ok (AsReader impl)
  end.

(** ** Deleting a blob: [FileBlob.deletefile] and [FileBlob.delete] *)

(** A [delete_file_task.apply_async(kwargs={'path': .., 'checksum': ..},
    countdown=..)] message on the task queue. *)
Record DeleteFileTask := mkDeleteFileTask {
  task_path : Path;
  task_checksum : string;
  task_countdown : Z
}.

(** A method of [FileBlob] runs on its in-memory fields and the task queue,
    and on the world. *)
Definition BlobLocal : Type := FileBlob * list DeleteFileTask.

(** [blob.save()] of an instance that may have a row already: the row with
    its primary key is replaced; when there is none the instance is
    inserted, under a new primary key if it has none (written 0) and under
    its own otherwise, and the unique constraint on [checksum] may refuse
    the insertion.  The instance as it is afterwards is returned. *)
Definition FileBlob_save_existing (blob : FileBlob) : M World FileBlob :=
  λ w, if bool_decide (b_id blob ∈ b_id <$> fileblobs w)
       then (Ok blob,
             set_fileblobs ((λ r, if bool_decide (b_id r = b_id blob) then blob else r)
                              <$> fileblobs w) w)
       else if bool_decide (b_id blob = 0) then FileBlob_save blob w
       else if bool_decide (b_checksum blob ∈ b_checksum <$> fileblobs w)
       then (Raise IntegrityError, w)
       else (Ok blob, set_fileblobs (fileblobs w ++ [blob]) w).

(** [blob.deletefile(commit)] *)
Definition deletefile (commit : bool) : M (BlobLocal * World) unit :=
  let* '(self, _) := on_local get in
  match b_path self with
  | None => raise AssertionError
  | Some path =>
      on_local (modify (λ '(self, queue),
        (self, queue ++ [mkDeleteFileTask path (b_checksum self) 60])));;
      on_local (modify (λ '(self, queue),
        (mkFileBlob (b_id self) None (b_size self) (b_checksum self) (b_timestamp self),
         queue)));;
      if commit then
        let* '(self, _) := on_local get in
        let* saved := on_world (FileBlob_save_existing self) in
        on_local (modify (λ '(_, queue), (saved, queue)))
      else ret tt
  end.

(** [super(FileBlob, self).delete()]: the row goes, and with it the rows
    that reference it through a cascading foreign key, here those of
    [FileBlobIndex] and [FileBlobOwner] (the legacy reference from [File]
    is not among the fields of [File] kept here); the instance loses its
    primary key (written 0). *)
Definition Model_delete : M (BlobLocal * World) unit :=
  let* '(self, _) := on_local get in
  on_world (modify (λ w,
    set_fileblobs (filter (λ b, b_id b ≠ b_id self) (fileblobs w))
      (set_fileblobindexes
         (filter (λ i, b_id (idx_blob i) ≠ b_id self) (fileblobindexes w))
         (set_fileblobowners
            (filter (λ o, owner_blob o ≠ b_id self) (fileblobowners w)) w))));;
  on_local (modify (λ '(self, queue),
    (mkFileBlob 0 (b_path self) (b_size self) (b_checksum self) (b_timestamp self),
     queue))).

(** [blob.delete()] *)
Definition FileBlob_delete : M (BlobLocal * World) unit :=
  let* '(self, _) := on_local get in
  let key := lock_key (b_checksum self) in
  on_world (lock_acquire key);;
  finally Model_delete (on_world (lock_release key));;
  let* '(self, _) := on_local get in
  match b_path self with
  | Some _ => deletefile false
  | None => ret tt
  end.

(** ** A sound store *)

(** What the uploads of a single caller keep: the store is consistent,
    primary keys are distinct and below the next key, every index row
    points to a row of the blob table, every blob row can be fetched and
    its checksum is that of the bytes fetched, and every stored path was
    drawn from the [uuid4] source. *)
Definition store_sound (sha1 : bytes → string) (uuid4 : nat → N) (w : World) : Prop :=
  store_consistent sha1 w
  ∧ NoDup (b_id <$> fileblobs w)
  ∧ (∀ b, b ∈ fileblobs w → b_id b < next_blob_id w)
  ∧ NoDup (idx_id <$> fileblobindexes w)
  ∧ (∀ i, i ∈ fileblobindexes w → idx_id i < next_index_id w ∧ idx_blob i ∈ fileblobs w)
  ∧ (∀ b, b ∈ fileblobs w →
       ∃ data, getfile (storage_log w) b = Ok (ContentFile data) ∧ b_checksum b = sha1 data)
  ∧ (∀ p d, (p, d) ∈ storage_log w → ∃ k, (k < uuid_calls w)%nat ∧ p.2 = uuid4 k).

(** The pieces [putfile] cuts a stream into: what successive
    [read(blob_size)] calls return until one returns nothing. *)
Fixpoint chunks_loop (fuel : nat) (blob_size : Z) (data : bytes) : list bytes :=
  match fuel with
  | O => []
  | S fuel =>
      let c := if blob_size <? 0 then data else take (Z.to_nat blob_size) data in
      if bool_decide (c = []) then []
      else c :: chunks_loop fuel blob_size (drop (length c) data)
  end.

Definition chunks (blob_size : Z) (data : bytes) : list bytes :=
  chunks_loop (S (length data)) blob_size data.

(** During a [from_files] call for an organization: every row whose
    checksum the call has seen has an owner row for that organization. *)
Definition batch_owned (organization : option Z) (s : FromFiles) (w : World) : Prop :=
  ∀ org c b, organization = Some org → c ∈ checksums_seen s → b ∈ fileblobs w →
             b_checksum b = c → mkFileBlobOwner (b_id b) org ∈ fileblobowners w.

(** * Properties *)

(** ** Lists *)

Lemma take_app_drop_length {A} k (l : list A) :
  take k l ++ drop (length (take k l)) l = l.
Proof.
  rewrite length_take. destruct (decide (k ≤ length l)%nat).
  - by rewrite Nat.min_l, take_drop.
  - rewrite Nat.min_r, take_ge, drop_ge by lia. apply app_nil_r.
Qed.

Lemma take_length_take {A} k (l : list A) : take (length (take k l)) l = take k l.
Proof.
  rewrite length_take. destruct (decide (k ≤ length l)%nat).
  - by rewrite Nat.min_l.
  - by rewrite Nat.min_r, !take_ge by lia.
Qed.

(** A chunk taken from the front of [l], followed by what a later read
    takes or leaves. *)
Lemma take_chunk_then_rest {A} (l k out : list A) m n :
  out = take m l → (length out ≤ n)%nat →
  out ++ take (n - length out) (drop (length out) l ++ k) = take n (l ++ k).
Proof.
  intros -> Hn.
  assert (length (take m l) ≤ length l)%nat as Hle by (rewrite length_take; lia).
  rewrite <-(drop_app_le _ _ _ Hle).
  rewrite <-(take_length_take m l) at 1.
  rewrite <-(take_app_le l k) by done.
  rewrite take_take_drop. f_equal. lia.
Qed.

Lemma drop_chunk_then_rest {A} (l k out : list A) m n :
  out = take m l → (length out ≤ n)%nat →
  drop (n - length out) (drop (length out) l ++ k) = drop n (l ++ k).
Proof.
  intros -> Hn.
  assert (length (take m l) ≤ length l)%nat as Hle by (rewrite length_take; lia).
  rewrite <-(drop_app_le _ _ _ Hle), drop_drop. f_equal. lia.
Qed.

(** In a list with distinct keys an element is found at one place only. *)
Lemma NoDup_fmap_split {A B} (f : A → B) (pre pre' post post' : list A) x y :
  NoDup (f <$> (pre ++ x :: post)) → pre ++ x :: post = pre' ++ y :: post' →
  f x = f y → pre = pre' ∧ x = y ∧ post = post'.
Proof.
  revert pre'. induction pre as [|a pre IH]; intros pre' Hnd Heq Hf.
  - destruct pre' as [|a' pre']; simpl in *.
    + by injection Heq as -> ->.
    + injection Heq as -> ->. rewrite fmap_app in Hnd. simpl in Hnd.
      apply NoDup_cons in Hnd as [Hnd _]. exfalso. apply Hnd.
      rewrite Hf. set_solver.
  - destruct pre' as [|a' pre']; simpl in *.
    + injection Heq as -> <-. apply NoDup_cons in Hnd as [Hnd _].
      exfalso. apply Hnd. rewrite <-Hf, fmap_app. set_solver.
    + injection Heq as -> Heq. apply NoDup_cons in Hnd as [_ Hnd].
      destruct (IH pre' Hnd Heq Hf) as (-> & -> & ->). done.
Qed.

(** ** File objects *)

Lemma f_read_data n f : f_data (f_read n f).2 = f_data f.
Proof. done. Qed.

Lemma f_read_pos n f : f_pos (f_read n f).2 = (f_pos f + length (f_read n f).1)%nat.
Proof. done. Qed.

Lemma f_read_rest n f :
  f_rest (f_read n f).2 = drop (length (f_read n f).1) (f_rest f).
Proof.
  unfold f_read, f_rest; simpl. by rewrite drop_drop.
Qed.

Lemma f_read_take n f :
  0 ≤ n → (f_read n f).1 = take (Z.to_nat n) (f_rest f).
Proof.
  intros Hn. unfold f_read; simpl.
  destruct (Z.ltb_spec n 0); [lia | done].
Qed.

Lemma f_read_nil n f :
  0 < n → (f_read n f).1 = [] → f_rest f = [].
Proof.
  intros Hn. rewrite f_read_take by lia.
  destruct (f_rest f) as [|b l]; [done|].
  destruct (Z.to_nat n) eqn:E; [lia | done].
Qed.

Lemma f_rest_ContentFile data : f_rest (ContentFile data) = data.
Proof. done. Qed.

Lemma f_rest_length f : (length (f_rest f) = length (f_data f) - f_pos f)%nat.
Proof. unfold f_rest. by rewrite length_drop. Qed.

(** ** The chunked reader *)

Section ReaderProofs.

Variable log : list (Path * bytes).

(** What the [for ... else] scan of [seek] finds: the last entry whose
    offset is at most [pos]. *)
Lemma find_enumerate_from (p : FileBlobIndex → bool) (k : nat) (l : list FileBlobIndex) :
  match find (λ '(n, idx), p idx) (zip (seq k (length l)) l) with
  | Some (n, x) =>
      ∃ l1 l2, l = l1 ++ x :: l2 ∧ n = (k + length l1)%nat ∧ p x = true
               ∧ Forall (λ y, p y = false) l1
  | None => Forall (λ y, p y = false) l
  end.
Proof.
  revert k. induction l as [|x l IH]; intros k; simpl; [done|].
  destruct (p x) eqn:Hx.
  - exists [], l. repeat split; auto with lia.
  - specialize (IH (S k)).
    destruct (find _ _) as [[n y]|].
    + destruct IH as (l1 & l2 & -> & -> & Hy & Hl1).
      exists (x :: l1), l2. repeat split; simpl; auto with lia.
    + by constructor.
Qed.

Lemma seek_scan (pos : Z) (indexes : list FileBlobIndex) :
  match find (λ '(n, idx), bool_decide (idx_offset idx ≤ pos))
             (enumerate (reverse indexes)) with
  | Some (n, idx) =>
      ∃ pre post, indexes = pre ++ idx :: post ∧ n = length post
                  ∧ idx_offset idx ≤ pos
                  ∧ Forall (λ i, pos < idx_offset i) post
  | None => Forall (λ i, pos < idx_offset i) indexes
  end.
Proof.
  unfold enumerate.
  pose proof (find_enumerate_from (λ idx, bool_decide (idx_offset idx ≤ pos)) 0
                (reverse indexes)) as H.
  destruct (find _ _) as [[n idx]|].
  - destruct H as (l1 & l2 & Hrev & -> & Hp & Hl1).
    exists (reverse l2), (reverse l1).
    apply (f_equal reverse) in Hrev.
    rewrite reverse_involutive, reverse_app, reverse_cons, <-(assoc_L (++)) in Hrev.
    repeat split; [done| by rewrite length_reverse | by apply bool_decide_eq_true in Hp |].
    apply Forall_reverse. eapply Forall_impl; [exact Hl1|].
    intros i Hi. apply bool_decide_eq_false in Hi. lia.
  - apply Forall_reverse in H. rewrite reverse_involutive in H.
    eapply Forall_impl; [exact H|].
    intros i Hi. apply bool_decide_eq_false in Hi. lia.
Qed.


Lemma stored_length_blob_data idx :
  stored_length log idx = length (blob_data log (idx_blob idx)).
Proof. unfold stored_length, blob_data. by destruct (getfile _ _). Qed.

Lemma file_bytes_cons idx l :
  file_bytes log (idx :: l) = blob_data log (idx_blob idx) ++ file_bytes log l.
Proof. done. Qed.

Lemma read_fuel_eq r :
  read_fuel log r
  = S (from_option (λ f, S (length (f_rest f))) 0%nat (_curfile r)
       + (length (_idxiter r) + length (file_bytes log (_idxiter r))))%nat.
Proof.
  unfold read_fuel. do 2 f_equal.
  induction (_idxiter r) as [|idx l IH]; [done|].
  rewrite file_bytes_cons, length_app. cbn [foldr length].
  rewrite IH, stored_length_blob_data. lia.
Qed.


Lemma file_bytes_app l1 l2 :
  file_bytes log (l1 ++ l2) = file_bytes log l1 ++ file_bytes log l2.
Proof. unfold file_bytes. by rewrite fmap_app, concat_app. Qed.

Lemma _nextidx_nil r :
  prefetched r = false → _idxiter r = [] →
  _nextidx log r = (Ok tt, set_curfile None (set_curidx None r)).
Proof. intros Hp Hi. unfold _nextidx. by rewrite Hp, Hi. Qed.

Lemma _nextidx_cons r idx post :
  prefetched r = false → _idxiter r = idx :: post → blob_ok log (idx_blob idx) →
  _nextidx log r
  = (Ok tt, set_curfile (Some (ContentFile (blob_data log (idx_blob idx))))
              (set_curidx (Some idx) (set_idxiter post r))).
Proof. intros Hp Hi [Hg _]. unfold _nextidx. by rewrite Hp, Hi, Hg. Qed.

Lemma read_all_loop_spec fuel : ∀ r acc,
  prefetched r = false →
  (_curfile r ≠ None → Forall (λ idx, blob_ok log (idx_blob idx)) (_idxiter r)) →
  (read_fuel log r ≤ fuel)%nat →
  read_all_loop log fuel acc r = (Ok (acc ++ remaining log r), drained r).
Proof.
  induction fuel as [|fuel IH]; intros r acc Hp Hok Hfuel.
  { rewrite read_fuel_eq in Hfuel. lia. }
  rewrite read_fuel_eq in Hfuel.
  simpl. unfold bind at 1, get at 1. unfold remaining, drained.
  destruct (_curfile r) as [f|] eqn:Hf; simpl in *.
  2:{ unfold ret. by rewrite app_nil_r. }
  specialize (Hok ltac:(done)).
  unfold bind at 1, curfile_read. rewrite Hf.
  pose proof (f_read_rest 32768 f) as Hrest.
  pose proof (f_read_take 32768 f ltac:(lia)) as Htake.
  destruct (f_read 32768 f) as [out f'] eqn:Hrd; simpl in *.
  case_bool_decide as Hout.
  - assert (f_rest f = []) as Hnil.
    { apply (f_read_nil 32768); [lia| by rewrite Hrd]. }
    rewrite Hnil in *. simpl in *.
    unfold bind at 1.
    destruct (_idxiter r) as [|idx post] eqn:Hit.
    + rewrite _nextidx_nil by done.
      rewrite IH.
      * unfold remaining, drained; simpl.
        destruct r; simpl in *; by subst.
      * done.
      * done.
      * rewrite read_fuel_eq; simpl. rewrite Hit; simpl. lia.
    + apply Forall_cons in Hok as [Hidx Hok].
      rewrite (_nextidx_cons _ idx post) by done.
      rewrite IH.
      * unfold remaining, drained; simpl. by destruct r; simpl in *; subst.
      * done.
      * done.
      * rewrite read_fuel_eq; simpl. rewrite f_rest_ContentFile.
        rewrite file_bytes_cons, length_app in Hfuel. simpl in Hfuel. lia.
  - rewrite IH; [|done|done|].
    + unfold remaining, drained; simpl. rewrite Hrest, <-!(assoc_L (++)).
      rewrite (assoc_L (++) out), Htake, take_app_drop_length. done.
    + rewrite read_fuel_eq; simpl. rewrite Hrest, length_drop.
      destruct out; [done|]. simpl in *.
      assert (length (f_rest f) ≠ 0)%nat by (destruct (f_rest f); simpl in *; [by destruct (Z.to_nat 32768)|lia]).
      lia.
Qed.


Lemma indexed_blob_ok indexes idx :
  indexed log indexes → idx ∈ indexes → blob_ok log (idx_blob idx).
Proof. intros (_ & _ & H) Hin. by eapply Forall_forall in H. Qed.

Lemma read_n_loop_spec fuel : ∀ r n acc,
  indexed log (_indexes r) → streaming_inv log r → 0 ≤ n →
  (read_fuel log r ≤ fuel)%nat →
  ∃ r', read_n_loop log fuel n acc r
          = (Ok (acc ++ take (Z.to_nat n) (remaining log r)), r')
        ∧ streaming_inv log r' ∧ _indexes r' = _indexes r ∧ closed r' = closed r
        ∧ remaining log r' = drop (Z.to_nat n) (remaining log r).
Proof.
  induction fuel as [|fuel IH]; intros r n acc Hidx Hinv Hn Hfuel;
    rewrite read_fuel_eq in Hfuel; [lia|].
  simpl. unfold bind at 1, get at 1.
  destruct Hinv as (Hp & [[Hf Hci]|(pre & idx & post & f & Hdec & Hci & Hit & Hf & Hdata & Hpos)]).
  { rewrite Hf. exists r. unfold remaining, ret. rewrite Hf, take_nil, drop_nil, app_nil_r.
    repeat split; auto. }
  rewrite Hf. case_bool_decide as Hn0.
  2:{ exists r. assert (n = 0) as -> by lia. unfold ret. simpl.
      rewrite app_nil_r, drop_0. repeat split; auto.
      right. by exists pre, idx, post, f. }
  unfold bind at 1, curfile_read. rewrite Hf.
  pose proof (f_read_rest (Z.min n 32768) f) as Hrest.
  pose proof (f_read_take (Z.min n 32768) f ltac:(lia)) as Htake.
  destruct (f_read (Z.min n 32768) f) as [out f'] eqn:Hrd. simpl in Hrest, Htake.
  assert (f_data f' = f_data f) as Hdata'.
  { by rewrite <-(f_read_data (Z.min n 32768) f), Hrd. }
  assert (f_pos f' = f_pos f + length out)%nat as Hpos'.
  { unfold f_read in Hrd. by injection Hrd as <- <-. }
  unfold remaining. rewrite Hf, Hit. simpl in Hfuel. rewrite Hf, Hit in Hfuel. simpl in Hfuel.
  case_bool_decide as Hout.
  - assert (f_rest f = []) as Hnil.
    { apply (f_read_nil (Z.min n 32768)); [lia| by rewrite Hrd]. }
    rewrite Hnil in *. simpl. unfold bind at 1.
    destruct post as [|idx' post'].
    + rewrite _nextidx_nil by done.
      destruct (IH (set_curfile None (set_curidx None (set_curfile (Some f') r))) n acc)
        as (r' & Hrun & Hinv' & Hi' & Hc' & Hrem'); auto.
      { split; [done|]. by left. }
      { rewrite read_fuel_eq. simpl. rewrite Hit. simpl in *. lia. }
      exists r'. rewrite Hrun. unfold remaining in *. simpl in *.
      change (file_bytes log []) with (@nil Byte.byte). by split_and!.
    + assert (blob_ok log (idx_blob idx')) as Hok.
      { eapply indexed_blob_ok; [exact Hidx|]. rewrite Hdec. set_solver. }
      rewrite (_nextidx_cons _ idx' post') by done.
      destruct (IH (set_curfile (Some (ContentFile (blob_data log (idx_blob idx'))))
                      (set_curidx (Some idx') (set_idxiter post' (set_curfile (Some f') r))))
                   n acc)
        as (r' & Hrun & Hinv' & Hi' & Hc' & Hrem'); auto.
      { split; [done|]. right.
        exists (pre ++ [idx]), idx', post', (ContentFile (blob_data log (idx_blob idx'))).
        simpl. rewrite <-(assoc_L (++)). repeat split; auto with lia. }
      { rewrite read_fuel_eq. simpl. rewrite f_rest_ContentFile.
        rewrite file_bytes_cons, length_app in Hfuel. simpl in Hfuel. lia. }
      exists r'. rewrite Hrun. unfold remaining in *. simpl in *. by split_and!.
  - assert (length out ≤ length (f_rest f))%nat as Hle.
    { rewrite Htake, length_take. lia. }
    assert (length out ≠ 0)%nat as Hne by (by destruct out).
    assert (length out ≤ Z.to_nat n)%nat as Hlen.
    { rewrite Htake, length_take. lia. }
    destruct (IH (set_curfile (Some f') r) (n - len out) (acc ++ out))
      as (r' & Hrun & Hinv' & Hi' & Hc' & Hrem'); auto.
    { split; [done|]. right. exists pre, idx, post, f'. simpl.
      repeat split; auto; [congruence|].
      destruct Hpos as [Hpos| ->]; [left|by right].
      rewrite f_rest_length in Hle. rewrite Hdata', Hpos'. lia. }
    { unfold len. lia. }
    { rewrite read_fuel_eq. simpl. rewrite Hit, Hrest, length_drop. lia. }
    exists r'. rewrite Hrun. unfold remaining in *. simpl in *. rewrite Hit, Hrest in *.
    replace (Z.to_nat (n - len out)) with (Z.to_nat n - length out)%nat in * by (unfold len; lia).
    split_and!; auto.
    + rewrite <-(assoc_L (++)), (take_chunk_then_rest _ _ _ (Z.to_nat (Z.min n 32768))); auto.
    + rewrite Hrem', (drop_chunk_then_rest _ _ _ (Z.to_nat (Z.min n 32768))); auto.
Qed.


(** Offsets and sizes of a well-formed index. *)
Lemma cumulative_from_app o l1 l2 :
  cumulative_from o (l1 ++ l2)
  ↔ cumulative_from o l1
    ∧ cumulative_from (o + foldr (λ i acc, b_size (idx_blob i) + acc) 0 l1) l2.
Proof.
  revert o. induction l1 as [|x l1 IH]; intros o; simpl.
  - rewrite Z.add_0_r. tauto.
  - rewrite IH, Z.add_assoc. tauto.
Qed.

Lemma sizes_file_bytes l :
  Forall (λ idx, blob_ok log (idx_blob idx)) l →
  foldr (λ i acc, b_size (idx_blob i) + acc) 0 l = len (file_bytes log l).
Proof.
  induction 1 as [|x l [_ Hx] _ IH]; [done|].
  rewrite file_bytes_cons. unfold len in *. rewrite length_app. simpl. lia.
Qed.

Lemma size_file_bytes r :
  indexed log (_indexes r) → size r = len (file_bytes log (_indexes r)).
Proof. intros (_ & _ & H). by apply sizes_file_bytes. Qed.

Lemma indexed_offset pre idx post :
  indexed log (pre ++ idx :: post) → idx_offset idx = len (file_bytes log pre).
Proof.
  intros (_ & Hc & Hok). apply cumulative_from_app in Hc as [_ [Hc _]].
  apply Forall_app in Hok as [Hok _].
  rewrite sizes_file_bytes in Hc by done. lia.
Qed.

Lemma indexed_next_offset pre idx idx' post :
  indexed log (pre ++ idx :: idx' :: post) →
  idx_offset idx' = idx_offset idx + len (blob_data log (idx_blob idx)).
Proof.
  intros H. pose proof (indexed_offset pre idx _ H) as H1.
  replace (pre ++ idx :: idx' :: post) with ((pre ++ [idx]) ++ idx' :: post) in H
    by (by rewrite <-(assoc_L (++))).
  apply indexed_offset in H. rewrite file_bytes_app, file_bytes_cons in H.
  change (file_bytes log []) with (@nil Byte.byte) in H. rewrite app_nil_r in H.
  unfold len in *. rewrite length_app in H. lia.
Qed.

(** What is left to read is the file from the logical offset on. *)
Lemma remaining_position r :
  indexed log (_indexes r) → streaming_inv log r →
  remaining log r = drop (Z.to_nat (position r)) (file_bytes log (_indexes r)).
Proof.
  intros Hidx (Hp & [[Hf Hci]|(pre & idx & post & f & Hdec & Hci & Hit & Hf & Hdata & Hpos)]).
  - unfold remaining, position. rewrite Hf, size_file_bytes by done.
    rewrite drop_ge; [done|]. unfold len. lia.
  - unfold remaining, position. rewrite Hf, Hci, Hit.
    rewrite Hdec in Hidx. rewrite (indexed_offset _ _ _ Hidx), Hdec.
    rewrite file_bytes_app, file_bytes_cons. unfold f_tell, len.
    replace (Z.to_nat (Z.of_nat (length (file_bytes log pre)) + Z.of_nat (f_pos f)))
      with (length (file_bytes log pre) + f_pos f)%nat by lia.
    rewrite drop_app_add. unfold f_rest. rewrite Hdata in *.
    destruct Hpos as [Hpos| ->].
    + by rewrite drop_app_le.
    + change (file_bytes log []) with (@nil Byte.byte). rewrite !app_nil_r. done.
Qed.


(** [seek] to a non-negative position of a non-empty index: the last entry
    that starts at or before [pos] becomes current, with its stream at
    [pos - offset]. *)
Lemma seek_spec r pos :
  indexed log (_indexes r) → streaming_inv log r → closed r = false →
  _indexes r ≠ [] → 0 ≤ pos →
  ∃ pre idx post,
    _indexes r = pre ++ idx :: post ∧ idx_offset idx ≤ pos
    ∧ Forall (λ i, pos < idx_offset i) post
    ∧ seek log pos r
      = (Ok tt,
         mkWrapper (_indexes r)
           (Some (mkFileObj (blob_data log (idx_blob idx)) (Z.to_nat (pos - idx_offset idx))))
           (Some idx) post false false).
Proof.
  intros Hidx Hinv Hclosed Hne Hpos.
  pose proof (seek_scan pos (_indexes r)) as Hscan.
  unfold seek. unfold bind at 1, get at 1.
  destruct Hinv as (Hp & Hinv). rewrite Hclosed, Hp.
  destruct (Z.ltb_spec pos 0) as [|_]; [lia|].
  destruct (find _ _) as [[n idx]|].
  2:{ exfalso. destruct (_indexes r) as [|i l] eqn:E; [done|].
      apply Forall_cons in Hscan as [Hi _].
      destruct Hidx as (_ & [Ho _] & _). lia. }
  destruct Hscan as (pre & post & Hdec & -> & Hle & Hpost).
  exists pre, idx, post. split_and!; auto.
  assert (blob_ok log (idx_blob idx)) as Hok.
  { eapply indexed_blob_ok; [exact Hidx|]. rewrite Hdec. set_solver. }
  replace (length (_indexes r) - (length post + 1))%nat with (length pre)
    by (rewrite Hdec, length_app; simpl; lia).
  rewrite Hdec at 1. rewrite drop_app_length.
  assert ((pos - idx_offset idx <? 0) = false) as Hlt by lia.
  destruct (idx_ne idx (_curidx r)) eqn:Hidne.
  - unfold bind at 1. unfold bind at 1, modify at 1.
    rewrite (_nextidx_cons _ idx post) by done.
    unfold bind at 1, get at 1. simpl.
    unfold curfile_seek, f_seek. simpl. rewrite Hlt.
    destruct r; simpl in *; by subst.
  - destruct Hinv as [[_ Hci]|(pre' & cur & post' & f & Hdec' & Hci & Hit & Hf & Hdata & _)].
    { rewrite Hci in Hidne. done. }
    rewrite Hci in Hidne. simpl in Hidne. apply bool_decide_eq_false in Hidne.
    assert (idx_id idx = idx_id cur) as Hid.
    { destruct (decide (idx_id idx = idx_id cur)); [done|]. by destruct Hidne. }
    destruct Hidx as (Hnd & _).
    rewrite Hdec in Hnd, Hdec'.
    destruct (NoDup_fmap_split idx_id _ _ _ _ _ _ Hnd Hdec' Hid) as (-> & -> & ->).
    unfold bind at 1, ret at 1. unfold bind at 1, get at 1. rewrite Hci.
    unfold curfile_seek, f_seek. rewrite Hf, Hlt, Hdata.
    destruct r; simpl in *; by subst.
Qed.


(** The state [seek_spec] describes satisfies the invariant. *)
Lemma seek_target_inv indexes pre idx post pos :
  indexed log indexes → indexes = pre ++ idx :: post → idx_offset idx ≤ pos →
  Forall (λ i, pos < idx_offset i) post →
  streaming_inv log
    (mkWrapper indexes
       (Some (mkFileObj (blob_data log (idx_blob idx)) (Z.to_nat (pos - idx_offset idx))))
       (Some idx) post false false).
Proof.
  intros Hidx Hdec Hle Hpost. split; [done|]. right.
  exists pre, idx, post, (mkFileObj (blob_data log (idx_blob idx)) (Z.to_nat (pos - idx_offset idx))).
  simpl. split_and!; auto.
  destruct post as [|idx' post']; [by right|left].
  apply Forall_cons in Hpost as [Hlt _].
  subst indexes. apply indexed_next_offset in Hidx. unfold len in Hidx. lia.
Qed.

Lemma seek_inv indexes r pos :
  indexed log indexes → reader_inv log indexes r → reader_inv log indexes (seek log pos r).2.
Proof.
  intros Hidx H. pose proof H as (Hi & Hne & Hinv).
  destruct (closed r) eqn:Hc.
  { unfold seek, bind, get. by rewrite Hc. }
  destruct (Z.ltb_spec pos 0) as [Hneg|Hpos].
  { unfold seek, bind, get. rewrite Hc. destruct Hinv as [-> _].
    destruct (Z.ltb_spec pos 0); [done|lia]. }
  subst indexes.
  destruct (seek_spec r pos) as (pre & idx & post & Hdec & Hle & Hpost & ->); auto.
  split_and!; auto. by eapply seek_target_inv.
Qed.

Lemma inv_idxiter_ok r :
  indexed log (_indexes r) → streaming_inv log r → _curfile r ≠ None →
  Forall (λ idx, blob_ok log (idx_blob idx)) (_idxiter r).
Proof.
  intros (_ & _ & Hok) (_ & [[Hf _]|(pre & idx & post & f & Hdec & _ & -> & _)]) Hs; [done|].
  rewrite Hdec in Hok. apply Forall_app in Hok as [_ Hok].
  by apply Forall_cons in Hok as [_ Hok].
Qed.

Lemma read_inv indexes r n :
  indexed log indexes → reader_inv log indexes r → reader_inv log indexes (read log n r).2.
Proof.
  intros Hidx H. pose proof H as (Hi & Hne & Hinv). subst indexes.
  unfold read. unfold bind at 1, get at 1.
  destruct (closed r) eqn:Hc; [done|].
  pose proof Hinv as (Hp & Hcases). rewrite Hp.
  destruct (Z.ltb_spec n 0).
  - rewrite read_all_loop_spec; auto using inv_idxiter_ok.
    simpl. unfold drained. split_and!; [by destruct (_curfile r)|done|].
    destruct (_curfile r) eqn:Hf; [|done]. split; [done|by left].
  - destruct (read_n_loop_spec (read_fuel log r) r n []) as (r' & -> & Hinv' & Hi' & _); auto.
    simpl. by split_and!.
Qed.

Lemma tell_state r : (tell r).2 = r.
Proof.
  unfold tell, bind, get, raise, ret.
  destruct (closed r), (_curfile r), (prefetched r), (_curidx r); done.
Qed.

Lemma init_streaming indexes :
  indexed log indexes → indexes ≠ [] →
  ∃ pre idx post,
    indexes = pre ++ idx :: post ∧ idx_offset idx ≤ 0
    ∧ Forall (λ i, 0 < idx_offset i) post
    ∧ ChunkedFileBlobIndexWrapper_init log indexes false
      = Ok (mkWrapper indexes (Some (mkFileObj (blob_data log (idx_blob idx)) 0))
              (Some idx) post false false).
Proof.
  intros Hidx Hne.
  destruct (seek_spec (mkWrapper indexes None None [] false false) 0)
    as (pre & idx & post & Hdec & Hle & Hpost & Hseek); simpl; auto; try lia.
  { split; [done|by left]. }
  simpl in *. exists pre, idx, post. split_and!; auto.
  unfold ChunkedFileBlobIndexWrapper_init, open.
  unfold bind at 1, ret at 1. unfold bind at 1, modify at 1.
  change (set_closed false _) with (mkWrapper indexes None None [] false false).
  rewrite Hseek. simpl. do 4 f_equal.
  rewrite Hdec in Hidx. apply indexed_offset in Hidx. unfold len in Hidx. lia.
Qed.

Lemma init_streaming_inv indexes r :
  indexed log indexes → ChunkedFileBlobIndexWrapper_init log indexes false = Ok r →
  reader_inv log indexes r.
Proof.
  intros Hidx Hinit. destruct (decide (indexes = [])) as [->|Hne]; [done|].
  destruct (init_streaming indexes) as (pre & idx & post & Hdec & Hle & Hpost & Heq); auto.
  rewrite Heq in Hinit. injection Hinit as <-. split_and!; auto.
  replace 0%nat with (Z.to_nat (0 - idx_offset idx)).
  - by eapply seek_target_inv.
  - rewrite Hdec in Hidx. apply indexed_offset in Hidx. unfold len in Hidx. lia.
Qed.

Lemma reachable_inv indexes r :
  indexed log indexes → reachable log indexes r → reader_inv log indexes r.
Proof.
  intros Hidx. induction 1 as [r Hinit|r pos _ IH|r n _ IH|r _ IH|r _ IH|r _ IH].
  - by apply init_streaming_inv.
  - by apply seek_inv.
  - by apply read_inv.
  - by rewrite tell_state.
  - destruct IH as (Hi & Hne & Hp & _). split_and!; auto. split; [done|by left].
  - unfold open. unfold bind at 1, modify at 1.
    apply seek_inv; [done|].
    destruct IH as (Hi & Hne & Hp & Hc). split_and!; auto. split; [done|].
    destruct Hc as [?|(pre & idx & post & f & ?)]; [by left|right].
    by exists pre, idx, post, f.
Qed.


Lemma tell_position r :
  streaming_inv log r → closed r = false → tell r = (Ok (position r), r).
Proof.
  intros (Hp & Hinv) Hc. unfold tell, position, bind, get, ret. rewrite Hc, Hp.
  destruct Hinv as [[-> _]|(pre & idx & post & f & _ & -> & _ & -> & _)]; done.
Qed.

Lemma read_spec indexes r n :
  indexed log indexes → reachable log indexes r → closed r = false →
  (read log n r).1
  = Ok (if n <? 0 then drop (Z.to_nat (position r)) (file_bytes log indexes)
        else take (Z.to_nat n) (drop (Z.to_nat (position r)) (file_bytes log indexes))).
Proof.
  intros Hidx Hreach Hc.
  destruct (reachable_inv indexes r Hidx Hreach) as (<- & Hne & Hinv).
  rewrite <-remaining_position by done.
  unfold read. unfold bind at 1, get at 1. rewrite Hc.
  pose proof Hinv as (-> & _).
  destruct (Z.ltb_spec n 0).
  - rewrite read_all_loop_spec; auto using inv_idxiter_ok. by destruct Hinv.
  - destruct (read_n_loop_spec (read_fuel log r) r n []) as (r' & -> & _); auto.
Qed.

End ReaderProofs.

(** *** C3 *)

(** C3. Over an index at cumulative offsets, a streaming-mode reader can
    be constructed as soon as there is one entry; read to exhaustion from
    its initial position it returns the concatenation of the blobs in
    index order; and in any state a program can bring it to, [read(n)] with
    [n >= 0] returns the [min(n, bytes remaining)] bytes that follow the
    current position ([tell()]) in that concatenation. *)
Theorem chunked_read_concatenation (log : list (Path * bytes))
    (indexes : list FileBlobIndex) (Hidx : indexed log indexes) :
  (indexes ≠ [] → ∃ r, ChunkedFileBlobIndexWrapper_init log indexes false = Ok r)
  ∧ (∀ r n, ChunkedFileBlobIndexWrapper_init log indexes false = Ok r → n < 0 →
       (read log n r).1 = Ok (file_bytes log indexes))
  ∧ (∀ r n, reachable log indexes r → closed r = false → 0 ≤ n →
       ∃ out, (read log n r).1 = Ok out
         ∧ (tell r).1 = Ok (position r)
         ∧ out = take (Z.to_nat n) (drop (Z.to_nat (position r)) (file_bytes log indexes))
         ∧ len out = Z.min n (Z.max 0 (len (file_bytes log indexes) - position r))).
Proof.
  split_and!.
  - intros Hne. destruct (init_streaming log indexes) as (pre & idx & post & _ & _ & _ & ->);
      eauto.
  - intros r n Hinit Hn.
    pose proof (reach_init log indexes r Hinit) as Hreach.
    destruct (decide (indexes = [])) as [->|Hne]; [done|].
    destruct (init_streaming log indexes) as (pre & idx & post & Hdec & Hle & _ & Heq); auto.
    rewrite Heq in Hinit. injection Hinit as <-.
    rewrite (read_spec log indexes); auto.
    destruct (Z.ltb_spec n 0); [|lia].
    unfold position. simpl. unfold f_tell. simpl.
    rewrite Hdec in Hidx. apply indexed_offset in Hidx. unfold len in Hidx.
    replace (Z.to_nat _) with 0%nat by lia. done.
  - intros r n Hreach Hc Hn.
    destruct (reachable_inv log indexes r Hidx Hreach) as (Hi & Hne & Hinv).
    eexists. split; [by apply read_spec|].
    rewrite (tell_position log) by done.
    destruct (Z.ltb_spec n 0); [lia|].
    split_and!; [done..|].
    assert (0 ≤ position r) as Hpos.
    { unfold position. destruct Hinv as (_ & [[-> _]|(pre & idx & post & f & Hdec & -> & _ & -> & _)]).
      - rewrite (size_file_bytes log) by (by rewrite Hi). unfold len. lia.
      - rewrite Hi in Hdec. rewrite Hdec in Hidx. apply indexed_offset in Hidx.
        unfold len, f_tell in *. lia. }
    unfold len. rewrite length_take, length_drop. lia.
Qed.

Lemma ex_indexed : indexed ex_log ex_indexes.
Proof.
  split_and!.
  - apply NoDup_ListNoDup. repeat constructor; simpl; intuition discriminate.
  - simpl. done.
  - repeat constructor.
Qed.

Lemma ex_reader_init : ChunkedFileBlobIndexWrapper_init ex_log ex_indexes false = Ok ex_reader.
Proof. reflexivity. Qed.

Lemma chunked_read_concatenation_witness :
  indexed ex_log ex_indexes
  ∧ (read ex_log (-1) ex_reader).1
    = Ok [Byte.x68; Byte.x65; Byte.x6c; Byte.x6c; Byte.x6f].
Proof.
  split; [exact ex_indexed|].
  destruct (chunked_read_concatenation ex_log ex_indexes ex_indexed) as (_ & H & _).
  exact (H ex_reader (-1) ex_reader_init ltac:(lia)).
Defined.

(** *** C4 *)




(** *** C5 *)

Lemma closed_call_fails log c r :
  closed r = true →
  run_call log c r = (Some (ValueError "I/O operation on closed file"), r).
Proof.
  intros Hc. destruct c; simpl; unfold read, seek, tell, bind, get, raise; by rewrite Hc.
Qed.

(** C5. After [close()], every later [read], [seek] and [tell] raises the
    closed-file error; on an open streaming-mode reader [tell()] is the
    current entry's offset plus the position within its stream, or the
    total size when no stream is open, which is the case after the reader
    was read to exhaustion. *)
Theorem closed_reader_calls_fail (log : list (Path * bytes))
    (r : ChunkedFileBlobIndexWrapper) :
  (∀ cs, Forall (λ e, e = Some (ValueError "I/O operation on closed file"))
           (run_calls log cs (close r).2))
  ∧ (closed r = false → prefetched r = false →
     (∀ f idx, _curfile r = Some f → _curidx r = Some idx →
        tell r = (Ok (idx_offset idx + f_tell f), r))
     ∧ (_curfile r = None → tell r = (Ok (size r), r)))
  ∧ (∀ indexes n, indexed log indexes → reachable log indexes r → closed r = false →
       n < 0 → (tell (read log n r).2).1 = Ok (size r)).
Proof.
  split_and!.
  - intros cs. assert (closed (close r).2 = true) as Hc by done.
    revert Hc. generalize (close r).2 as r'. clear r.
    induction cs as [|c cs IH]; intros r' Hc; simpl; [constructor|].
    rewrite closed_call_fails by done. constructor; auto.
  - intros Hc Hp. split.
    + intros f idx Hf Hi. unfold tell, bind, get, ret. by rewrite Hc, Hf, Hp, Hi.
    + intros Hf. unfold tell, bind, get, ret. by rewrite Hc, Hf, Hp.
  - intros indexes n Hidx Hreach Hc Hn.
    destruct (reachable_inv log indexes r Hidx Hreach) as (Hi & Hne & Hinv).
    unfold read. unfold bind at 1, get at 1. rewrite Hc.
    pose proof Hinv as (Hp & _). rewrite Hp.
    destruct (Z.ltb_spec n 0); [|lia].
    rewrite read_all_loop_spec; auto.
    2:{ apply inv_idxiter_ok; [by rewrite Hi|done]. }
    simpl. unfold drained, tell, bind, get, ret.
    destruct (_curfile r) eqn:Hf; simpl; by rewrite ?Hc, ?Hf, ?Hp.
Qed.

Lemma closed_reader_calls_fail_witness :
  (closed ex_reader = false ∧ prefetched ex_reader = false)
  ∧ tell ex_reader = (Ok 0, ex_reader)
  ∧ (tell (read ex_log (-1) ex_reader).2).1 = Ok 5.
Proof.
  split; [split; reflexivity|].
  destruct (closed_reader_calls_fail ex_log ex_reader) as (_ & Htell & Hend).
  split.
  - destruct (Htell eq_refl eq_refl) as [H _]. exact (H _ _ eq_refl eq_refl).
  - exact (Hend ex_indexes (-1) ex_indexed (reach_init _ _ _ ex_reader_init) eq_refl ltac:(lia)).
Defined.

(** *** C10 *)

(** C10. Over an empty index the streaming-mode constructor raises (its
    initial [seek(0)] finds no entry), while the prefetch-mode constructor
    succeeds and the reader it builds reads as the empty byte string. *)
Theorem empty_index_construction (log : list (Path * bytes)) :
  ChunkedFileBlobIndexWrapper_init log [] false = Raise (ValueError "Cannot seek to pos")
  ∧ ∃ r, ChunkedFileBlobIndexWrapper_init log [] true = Ok r
         ∧ ∀ n, (read log n r).1 = Ok [].
Proof.
  split; [reflexivity|].
  eexists. split; [reflexivity|].
  intros n. unfold read, bind, get, curfile_read, f_read; simpl.
  destruct (n <? 0); [done|]. by destruct (Z.to_nat n).
Qed.

(** ** Prefetch *)

Lemma write_at_length off data mem :
  (off + length data ≤ length mem)%nat → length (write_at off data mem) = length mem.
Proof.
  intros H. unfold write_at. rewrite !length_app, length_take, length_drop. lia.
Qed.

Lemma write_at_nil off mem : write_at off [] mem = mem.
Proof. unfold write_at. simpl. by rewrite Nat.add_0_r, take_drop. Qed.

Lemma write_at_app off d1 d2 mem :
  (off + length d1 + length d2 ≤ length mem)%nat →
  write_at (off + length d1) d2 (write_at off d1 mem) = write_at off (d1 ++ d2) mem.
Proof.
  intros H. unfold write_at.
  assert (length (take off mem) = off) as Hl by (rewrite length_take; lia).
  rewrite (assoc_L (++) (take off mem) d1).
  rewrite take_app_length' by (rewrite length_app; lia).
  rewrite <-!(assoc_L (++)). do 2 f_equal.
  rewrite (assoc_L (++) (take off mem) d1).
  rewrite drop_app_ge by (rewrite length_app; lia).
  rewrite length_app, Hl, drop_drop, length_app. f_equal. f_equal. lia.
Qed.

Lemma write_at_lookup off data mem i :
  (off + length data ≤ length mem)%nat →
  write_at off data mem !! i
  = if decide (off ≤ i < off + length data)%nat then data !! (i - off)%nat else mem !! i.
Proof.
  intros H. unfold write_at.
  assert (length (take off mem) = off) as Hl by (rewrite length_take; lia).
  destruct (decide (i < off)%nat).
  - rewrite lookup_app_l by lia. rewrite lookup_take_lt by lia.
    case_decide; [lia|done].
  - rewrite lookup_app_r by lia. rewrite Hl.
    destruct (decide (i - off < length data)%nat).
    + rewrite lookup_app_l by lia. case_decide; [done|lia].
    + rewrite lookup_app_r by lia. rewrite lookup_drop.
      case_decide; [lia|]. f_equal. lia.
Qed.

Lemma mmap_setslice_in_range (off : Z) chunk mem :
  0 ≤ off → off + len chunk ≤ len mem →
  mmap_setslice off (off + len chunk) chunk mem
  = (Ok tt, write_at (Z.to_nat off) chunk mem).
Proof.
  intros H0 H1. unfold mmap_setslice, clip, write_at, len in *.
  destruct (Z.ltb_spec off 0); [lia|].
  destruct (Z.ltb_spec (off + Z.of_nat (length chunk)) 0); [lia|].
  rewrite !Z.min_l by lia.
  case_bool_decide as Hne; [lia|]. done.
Qed.

Section PrefetchProofs.

Variable log : list (Path * bytes).

Lemma fetch_file_loop_spec fuel : ∀ sf (off : Z) mem,
  (length (f_rest sf) < fuel)%nat → 0 ≤ off → off + len (f_rest sf) ≤ len mem →
  fetch_file_loop fuel off sf mem = (Ok tt, write_at (Z.to_nat off) (f_rest sf) mem).
Proof.
  induction fuel as [|fuel IH]; intros sf off mem Hfuel H0 H1; [lia|].
  unfold fetch_file_loop; fold fetch_file_loop.
  pose proof (f_read_rest 65535 sf) as Hrest.
  pose proof (f_read_take 65535 sf ltac:(lia)) as Htake.
  destruct (f_read 65535 sf) as [chunk sf'] eqn:Hrd. simpl in Hrest, Htake.
  case_bool_decide as Hc.
  - assert (f_rest sf = []) as -> by (apply (f_read_nil 65535); [lia|rewrite Hrd; simpl; congruence]).
    by rewrite write_at_nil.
  - assert (length chunk ≤ length (f_rest sf))%nat as Hle by (rewrite Htake, length_take; lia).
    assert (length chunk ≠ 0)%nat by (by destruct chunk).
    unfold bind.
    rewrite mmap_setslice_in_range by (unfold len in *; lia).
    rewrite IH.
    + f_equal. rewrite Hrest.
      replace (Z.to_nat (off + len chunk)) with (Z.to_nat off + length chunk)%nat
        by (unfold len; lia).
      rewrite write_at_app by (rewrite length_drop; unfold len in *; lia).
      by rewrite Htake, take_app_drop_length.
    + rewrite Hrest, length_drop. lia.
    + unfold len in *. lia.
    + unfold len in *. rewrite write_at_length by lia.
      rewrite Hrest, length_drop. lia.
Qed.

Lemma submit_fetch_file (off : Z) blob mem :
  blob_ok log blob → 0 ≤ off → off + len (blob_data log blob) ≤ len mem →
  submit (fetch_file log off blob) mem
  = (Ok tt, write_at (Z.to_nat off) (blob_data log blob) mem).
Proof.
  intros [Hget _] H0 H1. unfold submit, fetch_file, bind, lift. rewrite Hget.
  rewrite fetch_file_loop_spec; auto.
Qed.


(** The byte range of an index entry in the concatenation. *)
Lemma entry_range indexes pre idx post :
  indexed log indexes → indexes = pre ++ idx :: post →
  0 ≤ idx_offset idx
  ∧ idx_offset idx + len (blob_data log (idx_blob idx)) ≤ len (file_bytes log indexes)
  ∧ ∀ i, (Z.to_nat (idx_offset idx) ≤ i
          < Z.to_nat (idx_offset idx) + length (blob_data log (idx_blob idx)))%nat →
         file_bytes log indexes !! i
         = blob_data log (idx_blob idx) !! (i - Z.to_nat (idx_offset idx))%nat.
Proof.
  intros Hidx ->. pose proof (indexed_offset log _ _ _ Hidx) as Hoff.
  rewrite file_bytes_app, file_bytes_cons. unfold len in *.
  rewrite !length_app. split_and!; [lia..|].
  intros i Hi. rewrite Hoff, Nat2Z.id in *.
  rewrite lookup_app_r by lia. rewrite lookup_app_l by lia. done.
Qed.

Lemma every_position_covered indexes : indexed log indexes →
  ∀ pre post i, indexes = pre ++ post →
    (length (file_bytes log pre) ≤ i < length (file_bytes log indexes))%nat →
    ∃ idx, idx ∈ post
      ∧ (Z.to_nat (idx_offset idx) ≤ i
         < Z.to_nat (idx_offset idx) + length (blob_data log (idx_blob idx)))%nat.
Proof.
  intros Hidx pre post. revert pre.
  induction post as [|idx post IH]; intros pre i Hdec Hi.
  { rewrite Hdec, app_nil_r in Hi. lia. }
  pose proof Hidx as Hidx'. rewrite Hdec in Hidx'.
  apply indexed_offset in Hidx'. unfold len in Hidx'.
  destruct (decide (i < length (file_bytes log pre) + length (blob_data log (idx_blob idx)))%nat).
  - exists idx. split; [set_solver|]. lia.
  - destruct (IH (pre ++ [idx]) i) as (idx' & Hin & Hr).
    + by rewrite <-(assoc_L (++)).
    + rewrite file_bytes_app, file_bytes_cons, !length_app. simpl. lia.
    + exists idx'. split; [set_solver|done].
Qed.

(** Whatever the order of the workers, each one fills the range of its
    entry with the bytes the concatenation has there and touches nothing
    else. *)
Lemma fetch_all_agree indexes (Hidx : indexed log indexes) : ∀ schedule mem,
  (∀ idx, idx ∈ schedule → idx ∈ indexes) →
  length mem = length (file_bytes log indexes) →
  ∃ mem', fetch_all log schedule mem = (Ok tt, mem')
    ∧ length mem' = length (file_bytes log indexes)
    ∧ ∀ i, (mem !! i = file_bytes log indexes !! i
            ∨ ∃ idx, idx ∈ schedule
                ∧ (Z.to_nat (idx_offset idx) ≤ i
                   < Z.to_nat (idx_offset idx) + length (blob_data log (idx_blob idx)))%nat) →
           mem' !! i = file_bytes log indexes !! i.
Proof.
  induction schedule as [|idx schedule IH]; intros mem Hsub Hlen.
  { exists mem. split_and!; auto. intros i [?|(idx & Hin & _)]; [done|set_solver]. }
  assert (idx ∈ indexes) as Hin by (apply Hsub; set_solver).
  apply list_elem_of_split in Hin as (pre & post & Hdec).
  destruct (entry_range indexes pre idx post Hidx Hdec) as (H0 & Hend & Hseg).
  simpl. unfold bind at 1.
  rewrite submit_fetch_file; [| |done|unfold len in *; lia].
  2:{ eapply indexed_blob_ok; [exact Hidx|]. rewrite Hdec. set_solver. }
  destruct (IH (write_at (Z.to_nat (idx_offset idx)) (blob_data log (idx_blob idx)) mem))
    as (mem' & Hrun & Hlen' & Hagree).
  { intros ? ?. apply Hsub. set_solver. }
  { rewrite write_at_length; [done|]. unfold len in *. lia. }
  exists mem'. split_and!; auto.
  intros i Hi. apply Hagree.
  rewrite write_at_lookup by (unfold len in *; lia).
  case_decide as Hr.
  - left. by rewrite Hseg.
  - destruct Hi as [?|(idx' & Hin' & Hr')]; [by left|].
    apply elem_of_cons in Hin' as [->|?]; [done|]. right. by exists idx'.
Qed.

(** Hence the buffer after prefetching is the concatenation. *)
Lemma fetch_all_file_bytes indexes schedule mem :
  indexed log indexes → schedule ≡ₚ indexes →
  length mem = length (file_bytes log indexes) →
  fetch_all log schedule mem = (Ok tt, file_bytes log indexes).
Proof.
  intros Hidx Hperm Hlen.
  destruct (fetch_all_agree indexes Hidx schedule mem) as (mem' & -> & Hlen' & Hagree); auto.
  { intros idx. by rewrite Hperm. }
  f_equal. apply list_eq. intros i.
  destruct (decide (i < length (file_bytes log indexes))%nat) as [Hi|Hi].
  - apply Hagree. right.
    destruct (every_position_covered indexes Hidx [] indexes i) as (idx & Hin & Hr); auto.
    { simpl. lia. }
    exists idx. by rewrite Hperm.
  - rewrite !lookup_ge_None_2 by lia. done.
Qed.


Lemma _prefetch_scheduled_spec indexes schedule r :
  indexed log indexes → _indexes r = indexes → schedule ≡ₚ indexes →
  _prefetch_scheduled log schedule r
  = (Ok tt, set_curfile (Some (mkFileObj (file_bytes log indexes)
                                 (length (file_bytes log indexes)))) r).
Proof.
  intros Hidx Hi Hperm. unfold _prefetch_scheduled. unfold bind at 1, get at 1.
  rewrite (size_file_bytes log) by (by rewrite Hi). rewrite Hi.
  case_bool_decide as Hz.
  - unfold modify. destruct (file_bytes log indexes); [done|]. unfold len in Hz. simpl in Hz. lia.
  - unfold bind at 1, lift at 1, f_seek.
    assert (0 < len (file_bytes log indexes)) as Hpos by (unfold len in *; lia).
    destruct (Z.ltb_spec (len (file_bytes log indexes) - 1) 0) as [|_]; [lia|].
    rewrite (fetch_all_file_bytes indexes); auto.
    + unfold modify, f_write. simpl. do 3 f_equal. unfold len in *. f_equal. lia.
    + unfold f_write. simpl. rewrite take_nil, drop_nil. simpl.
      rewrite length_app, length_replicate. simpl. unfold len in *. lia.
Qed.

Lemma init_prefetch indexes :
  indexed log indexes →
  ChunkedFileBlobIndexWrapper_init log indexes true
  = Ok (mkWrapper indexes (Some (mkFileObj (file_bytes log indexes) 0)) None [] true false).
Proof.
  intros Hidx. unfold ChunkedFileBlobIndexWrapper_init, _prefetch.
  unfold bind at 1. unfold bind at 1, get at 1.
  rewrite (_prefetch_scheduled_spec indexes) by done.
  reflexivity.
Qed.

End PrefetchProofs.

(** *** C9 *)



(** ** Chunk arithmetic *)

Lemma chunk_offsets_step (o total c m : Z) :
  c ≠ 0 → 0 < total → m = (if c <? 0 then total else Z.min c total) →
  (λ k, o + k * c) <$> seqZ 0 (chunk_count total c)
  = o :: ((λ k, o + m + k * c) <$> seqZ 0 (chunk_count (total - m) c)).
Proof.
  intros Hc Ht ->. unfold chunk_count. destruct (Z.ltb_spec c 0) as [Hneg|Hpos].
  - rewrite Z.min_r, Z.sub_diag, Z.min_l by lia.
    rewrite (seqZ_cons 0 1) by lia. rewrite !seqZ_nil by lia.
    simpl. f_equal. lia.
  - destruct (decide (c ≤ total)) as [Hle|Hgt].
    + rewrite Z.min_l by lia.
      replace (total + c - 1) with ((total - c + c - 1) + 1 * c) by lia.
      rewrite Z.div_add by lia.
      assert (0 ≤ (total - c + c - 1) `div` c) by (apply Z.div_pos; lia).
      rewrite seqZ_cons by lia. simpl. f_equal; [lia|].
      replace (Z.pred ((total - c + c - 1) `div` c + 1)) with ((total - c + c - 1) `div` c) by lia.
      rewrite <-(fmap_add_seqZ 1 0), <-list_fmap_compose.
      apply list_fmap_ext. intros _ k _. simpl. lia.
    + rewrite Z.min_r by lia.
      replace (total + c - 1) with ((total - 1) + 1 * c) by lia.
      rewrite Z.div_add, Z.div_small by lia.
      replace (total - total + c - 1) with (c - 1) by lia.
      rewrite (Z.div_small (c - 1)) by lia.
      rewrite (seqZ_cons 0 (0 + 1)) by lia. rewrite !seqZ_nil by lia.
      simpl. f_equal. lia.
Qed.

Lemma chunk_count_0 c : c ≠ 0 → chunk_count 0 c = 0.
Proof.
  intros Hc. unfold chunk_count. destruct (Z.ltb_spec c 0); [lia|].
  apply Z.div_small. lia.
Qed.

(** ** The monad *)

Lemma bind_on_world {L A B} (m : M World A) (k : A → M (L * World) B) l w a w' :
  m w = (Ok a, w') → bind (on_world m) k (l, w) = k a (l, w').
Proof. intros H. unfold bind, on_world. by rewrite H. Qed.

Lemma bind_on_world_raise {L A B} (m : M World A) (k : A → M (L * World) B) l w e w' :
  m w = (Raise e, w') → bind (on_world m) k (l, w) = (Raise e, (l, w')).
Proof. intros H. unfold bind, on_world. by rewrite H. Qed.

Lemma bind_on_local_get {L B} (k : L → M (L * World) B) l w :
  bind (on_local get) k (l, w) = k l (l, w).
Proof. done. Qed.

Lemma bind_on_local_modify {L B} (f : L → L) (k : unit → M (L * World) B) l w :
  bind (on_local (modify f)) k (l, w) = k tt (f l, w).
Proof. done. Qed.

(** ** The blob store *)

Lemma filter_checksum_absent (l : list FileBlob) (c : string) :
  c ∉ b_checksum <$> l → filter (λ x, b_checksum x = c) l = [].
Proof.
  induction l as [|x l IH]; intros Hc; [done|].
  rewrite fmap_cons in Hc. apply not_elem_of_cons in Hc as [Hx Hc].
  rewrite filter_cons_False by congruence. auto.
Qed.

Lemma filter_checksum_unique (l : list FileBlob) (b : FileBlob) :
  NoDup (b_checksum <$> l) → b ∈ l →
  filter (λ x, b_checksum x = b_checksum b) l = [b].
Proof.
  induction l as [|x l IH]; intros Hnd Hin; [by apply elem_of_nil in Hin|].
  rewrite fmap_cons in Hnd. apply NoDup_cons in Hnd as [Hx Hnd].
  apply elem_of_cons in Hin as [<-|Hin].
  - rewrite filter_cons_True by done. by rewrite filter_checksum_absent.
  - rewrite filter_cons_False; [auto|].
    intros Heq. apply Hx. rewrite Heq. by apply list_elem_of_fmap_2.
Qed.

Section BlobStoreProofs.

Variable sha1 : bytes → string.
Variable uuid4 : nat → N.

Lemma _get_size_and_checksum_loop_spec fuel : ∀ f size acc,
  (length (f_rest f) < fuel)%nat →
  _get_size_and_checksum_loop sha1 fuel f size acc
  = (Ok (size + len (f_rest f), sha1 (acc ++ f_rest f)),
     mkFileObj (f_data f) (f_pos f + length (f_rest f))).
Proof.
  induction fuel as [|fuel IH]; intros f size acc Hfuel; [lia|].
  unfold _get_size_and_checksum_loop; fold _get_size_and_checksum_loop.
  pose proof (f_read_rest 65536 f) as Hrest.
  pose proof (f_read_take 65536 f ltac:(lia)) as Htake.
  pose proof (f_read_data 65536 f) as Hd.
  pose proof (f_read_pos 65536 f) as Hp.
  destruct (f_read 65536 f) as [chunk f'] eqn:Hrd. simpl in Hrest, Htake, Hd, Hp.
  case_bool_decide as Hc.
  - assert (f_rest f = []) as Hnil.
    { apply (f_read_nil 65536); [lia|rewrite Hrd; simpl; congruence]. }
    rewrite Hnil, app_nil_r. unfold len. simpl. rewrite Z.add_0_r.
    do 2 f_equal. destruct f'; simpl in *. f_equal; [done|]. rewrite Hp.
    replace chunk with (@nil Byte.byte) by congruence. done.
  - assert (length chunk ≤ length (f_rest f))%nat as Hle by (rewrite Htake, length_take; lia).
    assert (length chunk ≠ 0)%nat by (destruct chunk; [congruence|done]).
    rewrite IH by (rewrite Hrest, length_drop; lia).
    rewrite Hrest, Hd, Hp, length_drop. unfold len. rewrite length_drop.
    f_equal; [f_equal; f_equal|f_equal]; try lia.
    rewrite <-(assoc_L (++)). f_equal. by rewrite Htake, take_app_drop_length.
Qed.

Lemma _get_size_and_checksum_spec f :
  _get_size_and_checksum sha1 f
  = (Ok (len (f_rest f), sha1 (f_rest f)),
     mkFileObj (f_data f) (f_pos f + length (f_rest f))).
Proof.
  unfold _get_size_and_checksum. rewrite _get_size_and_checksum_loop_spec by lia.
  by rewrite Z.add_0_l.
Qed.


Lemma lock_released (key : string) (held : gset string) :
  key ∉ held → ({[key]} ∪ held) ∖ {[key]} = held.
Proof. set_solver. Qed.

(** New content: the bytes are written once and one row is added. *)
Lemma from_file_miss w data :
  lock_key (sha1 data) ∉ locks_held w →
  sha1 data ∉ b_checksum <$> fileblobs w →
  from_file sha1 uuid4 (ContentFile data) w
  = (Ok (new_blob sha1 uuid4 w data), world_after_upload sha1 uuid4 w data).
Proof.
  intros Hlock Hnew. unfold from_file. rewrite _get_size_and_checksum_spec.
  rewrite f_rest_ContentFile. unfold bind at 1, lift at 1.
  unfold with_locked_blob, _locked_blob_enter.
  unfold bind at 1. unfold bind at 1, lock_acquire.
  rewrite bool_decide_eq_false_2 by done.
  unfold FileBlob_objects_get. simpl.
  rewrite filter_checksum_absent by done.
  unfold finally, bind, FileBlob_new, generate_unique_path, storage_save, modify,
    FileBlob_save, _locked_blob_exit, lock_release. simpl.
  rewrite bool_decide_eq_false_2 by done. simpl.
  rewrite lock_released by done.
  reflexivity.
Qed.

(** Known content: the row is returned and nothing changes. *)
Lemma from_file_hit w data existing :
  lock_key (sha1 data) ∉ locks_held w →
  NoDup (b_checksum <$> fileblobs w) →
  existing ∈ fileblobs w → b_checksum existing = sha1 data →
  from_file sha1 uuid4 (ContentFile data) w = (Ok existing, w).
Proof.
  intros Hlock Hnd Hin Hsum. unfold from_file. rewrite _get_size_and_checksum_spec.
  rewrite f_rest_ContentFile. unfold bind at 1, lift at 1.
  unfold with_locked_blob, _locked_blob_enter.
  unfold bind at 1. unfold bind at 1, lock_acquire.
  rewrite bool_decide_eq_false_2 by done.
  unfold FileBlob_objects_get. simpl.
  rewrite <-Hsum, filter_checksum_unique by done.
  unfold finally, ret, _locked_blob_exit, lock_release, modify. simpl.
  rewrite Hsum, lock_released by done.
  by destruct w.
Qed.

End BlobStoreProofs.

Section PutfileProofs.

Variable sha1 : bytes → string.
Variable uuid4 : nat → N.
Hypothesis sha1_inj : ∀ a b, sha1 a = sha1 b → a = b.

Lemma from_file_ok w data :
  store_consistent sha1 w →
  ∃ blob w',
    from_file sha1 uuid4 (ContentFile data) w = (Ok blob, w')
    ∧ store_consistent sha1 w'
    ∧ b_size blob = len data ∧ b_checksum blob = sha1 data
    ∧ fileblobindexes w' = fileblobindexes w ∧ next_index_id w' = next_index_id w
    ∧ files w' = files w.
Proof.
  intros (Hlocks & Hnd & Hsize).
  assert (lock_key (sha1 data) ∉ locks_held w) as Hlock by (rewrite Hlocks; set_solver).
  destruct (decide (sha1 data ∈ b_checksum <$> fileblobs w)) as [Hin|Hnew].
  - apply list_elem_of_fmap in Hin as (existing & Hsum & Hin).
    exists existing, w. split_and!; auto.
    + by apply from_file_hit.
    + by split_and!.
  - exists (new_blob sha1 uuid4 w data), (world_after_upload sha1 uuid4 w data).
    split_and!; auto.
    + by apply from_file_miss.
    + split_and!; simpl; [done| |].
      * rewrite fmap_app. apply NoDup_app. split_and!; [done| |apply NoDup_singleton].
        intros c Hc Hc'. simpl in Hc'. apply list_elem_of_singleton in Hc'. by subst.
      * intros b d Hb Hd. apply elem_of_app in Hb as [Hb|Hb]; [by apply Hsize|].
        apply list_elem_of_singleton in Hb. subst b. simpl in *.
        by rewrite (sha1_inj _ _ Hd).
Qed.

Lemma FileBlobIndex_create_ok (file : File) blob offset w :
  (∀ i, i ∈ fileblobindexes w → idx_file i = file_id file → idx_offset i ≠ offset) →
  FileBlobIndex_create file blob offset w
  = (Ok (mkFileBlobIndex (next_index_id w) (file_id file) blob offset),
     set_next_index_id (next_index_id w + 1)
       (set_fileblobindexes
          (fileblobindexes w ++ [mkFileBlobIndex (next_index_id w) (file_id file) blob offset])
          w)).
Proof.
  intros Hfree. unfold FileBlobIndex_create.
  rewrite bool_decide_eq_false_2; [done|].
  rewrite Exists_exists. intros (i & Hin & Hf & _ & Ho). by eapply Hfree.
Qed.

Lemma putfile_loop_spec (blob_size : Z) (Hbs : blob_size ≠ 0) fuel :
  ∀ fileobj results o acc self w,
    store_consistent sha1 w →
    (∀ i, i ∈ fileblobindexes w → idx_file i = file_id self → idx_offset i < o) →
    (length (f_rest fileobj) < fuel)%nat →
    ∃ rows w',
      putfile_loop sha1 uuid4 fuel fileobj blob_size results o acc (self, w)
      = (Ok (results ++ rows, o + len (f_rest fileobj), acc ++ f_rest fileobj), (self, w'))
      ∧ store_consistent sha1 w'
      ∧ fileblobindexes w' = fileblobindexes w ++ rows
      ∧ files w' = files w
      ∧ cumulative_from o rows
      ∧ Forall (λ row, 0 < b_size (idx_blob row)) rows
      ∧ idx_offset <$> rows
        = (λ k, o + k * blob_size) <$> seqZ 0 (chunk_count (len (f_rest fileobj)) blob_size).
Proof.
  induction fuel as [|fuel IH]; intros fileobj results o acc self w Hok Hfree Hfuel; [lia|].
  cbn [putfile_loop].
  pose proof (f_read_rest blob_size fileobj) as Hrest.
  assert ((f_read blob_size fileobj).1
          = if blob_size <? 0 then f_rest fileobj
            else take (Z.to_nat blob_size) (f_rest fileobj)) as Hout by done.
  destruct (f_read blob_size fileobj) as [contents fileobj'] eqn:Hrd. simpl in Hrest, Hout.
  case_bool_decide as Hc.
  - assert (f_rest fileobj = []) as Hnil.
    { destruct (Z.ltb_spec blob_size 0); [congruence|].
      apply (f_read_nil blob_size); [lia|]. rewrite Hrd. simpl. congruence. }
    exists [], w. rewrite Hnil, !app_nil_r. unfold len. simpl.
    rewrite Z.add_0_r, chunk_count_0, seqZ_nil by lia.
    split_and!; auto.
  - assert (0 < len (f_rest fileobj)) as Htotal.
    { unfold len. destruct (f_rest fileobj); simpl; [|lia].
      destruct (blob_size <? 0); [congruence|]. rewrite take_nil in Hout. congruence. }
    assert (len contents = if blob_size <? 0 then len (f_rest fileobj)
                           else Z.min blob_size (len (f_rest fileobj))) as Hm.
    { rewrite Hout. unfold len. destruct (Z.ltb_spec blob_size 0); [done|].
      rewrite length_take. lia. }
    assert (0 < len contents) as Hmpos.
    { unfold len. destruct contents; simpl; [done|lia]. }
    destruct (from_file_ok w contents Hok)
      as (blob & w1 & Hff & Hok1 & Hsz & Hsum & Hidx1 & Hnext1 & Hfiles1).
    rewrite (bind_on_world _ _ _ _ _ _ Hff), bind_on_local_get.
    assert (∀ i, i ∈ fileblobindexes w1 → idx_file i = file_id self → idx_offset i ≠ o)
      as Hfree1.
    { intros i Hi Hf. rewrite Hidx1 in Hi. specialize (Hfree i Hi Hf). lia. }
    rewrite (bind_on_world _ _ _ _ _ _ (FileBlobIndex_create_ok self blob o w1 Hfree1)).
    set (row := mkFileBlobIndex (next_index_id w1) (file_id self) blob o).
    set (w2 := set_next_index_id _ _).
    destruct (IH fileobj' (results ++ [row]) (o + b_size blob) (acc ++ contents) self w2)
      as (rows & w' & Hrun & Hok' & Hidx' & Hfiles' & Hcum & Hpos & Hoffs).
    { destruct Hok1 as (? & ? & ?). by split_and!. }
    { intros i Hi Hf. subst w2. simpl in Hi. rewrite Hidx1 in Hi.
      apply elem_of_app in Hi as [Hi|Hi].
      - specialize (Hfree i Hi Hf). lia.
      - apply list_elem_of_singleton in Hi. subst i. simpl. lia. }
    { rewrite Hrest, length_drop. unfold len in Hmpos, Htotal. lia. }
    exists (row :: rows), w'. rewrite Hrun.
    assert (len (f_rest fileobj') = len (f_rest fileobj) - len contents) as Hlen'.
    { rewrite Hrest. unfold len in *. rewrite length_drop.
      destruct (Z.ltb_spec blob_size 0); lia. }
    split_and!; auto.
    + assert (contents ++ f_rest fileobj' = f_rest fileobj) as Hsplit.
      { rewrite Hrest, Hout. destruct (blob_size <? 0).
        - by rewrite drop_all, app_nil_r.
        - apply take_app_drop_length. }
      rewrite <-!(assoc_L (++)), Hsplit. simpl.
      replace (o + b_size blob + len (f_rest fileobj')) with (o + len (f_rest fileobj))
        by (rewrite Hsz, Hlen'; lia).
      done.
    + rewrite Hidx'. subst w2. simpl. by rewrite Hidx1, <-(assoc_L (++)).
    + by rewrite Hfiles'.
    + simpl. split; [done|]. exact Hcum.
    + constructor; [simpl; lia|done].
    + rewrite fmap_cons, Hoffs. simpl.
      rewrite (chunk_offsets_step o (len (f_rest fileobj)) blob_size (len contents)) by done.
      by rewrite Hsz, Hlen'.
Qed.

Lemma cumulative_increasing rows : ∀ o,
  cumulative_from o rows → Forall (λ row, 0 < b_size (idx_blob row)) rows →
  StronglySorted Z.lt (idx_offset <$> rows) ∧ Forall (λ x, o ≤ x) (idx_offset <$> rows).
Proof.
  induction rows as [|row rows IH]; intros o Hcum Hpos; simpl.
  { split; constructor. }
  destruct Hcum as [Ho Hcum]. apply Forall_cons in Hpos as [Hrow Hpos].
  destruct (IH _ Hcum Hpos) as [Hsorted Hge]. split.
  - constructor; [done|]. eapply Forall_impl; [exact Hge|]. intros x Hx. simpl in Hx. lia.
  - constructor; [lia|]. eapply Forall_impl; [exact Hge|]. intros x Hx. simpl in Hx. lia.
Qed.

End PutfileProofs.

(** *** C2 *)

(** C2 as amended: for a chunk size other than 0.  In a consistent store,
    for a file that has no index rows yet and a collision-free digest,
    [putfile] returns index rows at cumulative offsets from 0, strictly
    increasing, one per chunk of [blob_size] bytes (a single one for a
    negative [blob_size]); it sets [file.size] to the number of bytes read
    from the stream and [file.checksum] to their SHA-1.  A stream of
    2621440 bytes cut at 1048576 gives rows at 0, 1048576 and 2097152. *)
Theorem putfile_indexes_chunks (sha1 : bytes → string) (uuid4 : nat → N)
    (self : File) (w : World) (fileobj : FileObj) (blob_size : Z) (commit : bool)
    (Hsha1 : ∀ a b, sha1 a = sha1 b → a = b)
    (Hsize : blob_size ≠ 0)
    (Hstore : store_consistent sha1 w)
    (Hfresh : ∀ i, i ∈ fileblobindexes w → idx_file i ≠ file_id self) :
  ∃ results self' w',
    putfile sha1 uuid4 fileobj blob_size commit (self, w) = (Ok results, (self', w'))
    ∧ cumulative_from 0 results
    ∧ StronglySorted Z.lt (idx_offset <$> results)
    ∧ idx_offset <$> results = chunk_offsets (len (f_rest fileobj)) blob_size
    ∧ file_size self' = Some (len (f_rest fileobj))
    ∧ file_checksum self' = Some (sha1 (f_rest fileobj))
    ∧ fileblobindexes w' = fileblobindexes w ++ results
    ∧ (blob_size = 1048576 → len (f_rest fileobj) = 2621440 →
       idx_offset <$> results = [0; 1048576; 2097152]).
Proof.
  destruct (putfile_loop_spec sha1 uuid4 Hsha1 blob_size Hsize (S (length (f_rest fileobj)))
              fileobj [] 0 [] self w)
    as (rows & w1 & Hrun & Hok & Hidx & Hfiles & Hcum & Hpos & Hoffs); auto.
  { intros i Hi Hf. by destruct (Hfresh i Hi). }
  assert (idx_offset <$> rows = chunk_offsets (len (f_rest fileobj)) blob_size) as Hoffs'.
  { rewrite Hoffs. unfold chunk_offsets. apply list_fmap_ext. intros _ k _. lia. }
  set (self' := set_size_checksum (len (f_rest fileobj)) (sha1 (f_rest fileobj)) self).
  set (w' := if commit then (File_save self' w1).2 else w1).
  assert ((if commit then self_save else ret tt) (self', w1) = (Ok tt, (self', w')))
    as Hcommit by (by destruct commit).
  assert (fileblobindexes w' = fileblobindexes w1) as Hsame.
  { subst w'. destruct commit; [|done]. unfold File_save, modify. simpl. by case_bool_decide. }
  exists rows, self', w'.
  split_and!; try done.
  - unfold putfile. unfold bind at 1. rewrite Hrun.
    rewrite bind_on_local_modify. rewrite Z.add_0_l, !app_nil_l.
    unfold bind at 1. fold self'. by rewrite Hcommit.
  - by apply (cumulative_increasing rows 0).
  - by rewrite Hsame.
  - intros -> Hlen. rewrite Hoffs', Hlen. reflexivity.
Qed.

(** *** C1 *)

(** C1. With the upload lock free and checksums unique among the rows:
    when a row with the input's checksum exists, [from_file] returns it and
    leaves the world as it was (no storage write, no new row); when none
    exists it performs one storage write of the bytes and adds one row,
    which it returns; and a second upload of the same bytes then returns
    that same row and changes nothing. *)
Theorem from_file_deduplicates (sha1 : bytes → string) (uuid4 : nat → N)
    (w : World) (data : bytes)
    (Hlock : lock_key (sha1 data) ∉ locks_held w)
    (Huniq : NoDup (b_checksum <$> fileblobs w)) :
  (∀ existing, existing ∈ fileblobs w → b_checksum existing = sha1 data →
     from_file sha1 uuid4 (ContentFile data) w = (Ok existing, w))
  ∧ (sha1 data ∉ b_checksum <$> fileblobs w →
     ∃ blob w' path,
       from_file sha1 uuid4 (ContentFile data) w = (Ok blob, w')
       ∧ fileblobs w' = fileblobs w ++ [blob]
       ∧ storage_log w' = (path, data) :: storage_log w
       ∧ b_path blob = Some path ∧ b_checksum blob = sha1 data ∧ b_size blob = len data
       ∧ from_file sha1 uuid4 (ContentFile data) w' = (Ok blob, w')).
Proof.
  split.
  - intros existing Hin Hsum. by apply from_file_hit.
  - intros Hnew.
    exists (new_blob sha1 uuid4 w data), (world_after_upload sha1 uuid4 w data),
      (new_blob_path uuid4 w).
    split_and!; try done.
    + by apply from_file_miss.
    + apply from_file_hit; simpl; try done.
      * rewrite fmap_app. apply NoDup_app. split_and!; [done| |apply NoDup_singleton].
        intros c Hc Hc'. simpl in Hc'. apply list_elem_of_singleton in Hc'. by subst.
      * set_solver.
Qed.

Lemma from_file_deduplicates_witness :
  (lock_key (ex_sha1 ex_hello) ∉ locks_held ex_world)
  ∧ NoDup (b_checksum <$> fileblobs ex_world)
  ∧ ∃ blob w',
      from_file ex_sha1 ex_uuid4 (ContentFile ex_hello) ex_world = (Ok blob, w')
      ∧ from_file ex_sha1 ex_uuid4 (ContentFile ex_hello) w' = (Ok blob, w').
Proof.
  assert (lock_key (ex_sha1 ex_hello) ∉ locks_held ex_world) as Hlock
    by apply not_elem_of_empty.
  assert (NoDup (b_checksum <$> fileblobs ex_world)) as Huniq by constructor.
  split; [exact Hlock|]. split; [exact Huniq|].
  destruct (from_file_deduplicates ex_sha1 ex_uuid4 ex_world ex_hello Hlock Huniq) as [_ H].
  destruct (H ltac:(apply not_elem_of_nil)) as (blob & w' & path & H1 & _ & _ & _ & _ & _ & H2).
  by exists blob, w'.
Defined.

Lemma ex_sha1_inj a b : ex_sha1 a = ex_sha1 b → a = b.
Proof.
  unfold ex_sha1. intros H.
  rewrite <-(String.list_byte_of_string_of_list_byte a),
    <-(String.list_byte_of_string_of_list_byte b).
  by rewrite H.
Qed.

Lemma ex_world_consistent : store_consistent ex_sha1 ex_world.
Proof.
  split_and!; [done|constructor|].
  intros b data Hb. by apply elem_of_nil in Hb.
Qed.

Lemma putfile_indexes_chunks_witness :
  ((2 : Z) ≠ 0 ∧ store_consistent ex_sha1 ex_world
   ∧ ∀ i, i ∈ fileblobindexes ex_world → idx_file i ≠ file_id (mkFile 7 None None))
  ∧ ∃ results self' w',
      putfile ex_sha1 ex_uuid4 (ContentFile ex_hello) 2 true (mkFile 7 None None, ex_world)
      = (Ok results, (self', w'))
      ∧ idx_offset <$> results = [0; 2; 4]
      ∧ file_size self' = Some 5.
Proof.
  assert (∀ i, i ∈ fileblobindexes ex_world → idx_file i ≠ file_id (mkFile 7 None None))
    as Hfresh.
  { intros i Hi. by apply elem_of_nil in Hi. }
  split; [split_and!; [lia|exact ex_world_consistent|exact Hfresh]|].
  destruct (putfile_indexes_chunks ex_sha1 ex_uuid4 (mkFile 7 None None) ex_world
              (ContentFile ex_hello) 2 true ex_sha1_inj ltac:(lia) ex_world_consistent Hfresh)
    as (results & self' & w' & Hrun & _ & _ & Hoffs & Hsz & _).
  exists results, self', w'. split_and!; [exact Hrun|exact Hoffs|exact Hsz].
Defined.

(** C2, the claim as stated fails for the chunk size 0: the first read
    returns nothing, the loop ends at once, and a five-byte input gets no
    index row, [file.size = 0] and the checksum of the empty string, which
    are not the byte count and the digest of the input. *)
Lemma putfile_zero_chunk_size :
  ∃ self' w',
    putfile ex_sha1 ex_uuid4 (ContentFile ex_hello) 0 true (mkFile 7 None None, ex_world)
    = (Ok [], (self', w'))
    ∧ file_size self' = Some 0
    ∧ file_checksum self' = Some (ex_sha1 [])
    ∧ file_size self' ≠ Some (len ex_hello)
    ∧ file_checksum self' ≠ Some (ex_sha1 ex_hello).
Proof.
  eexists _, _.
  split_and!; [reflexivity|reflexivity|reflexivity|discriminate|discriminate].
Qed.

(** ** [sorted]: a stable sort by key *)

Section Sorted.

Context {A : Type}.
Implicit Types (d l : list (nat * A)) (k : nat) (x : A).

Lemma insert_by_key_le l1 l2 k x :
  Forall (λ p, p.1 ≤ k)%nat l1 →
  insert_by_key k x (l1 ++ l2) = l1 ++ insert_by_key k x l2.
Proof.
  induction 1 as [|[k' y] l1 Hle _ IH]; [done|]. simpl in *.
  rewrite bool_decide_eq_false_2 by lia. by rewrite IH.
Qed.

Lemma insert_by_key_gt l k x :
  Forall (λ p, k < p.1)%nat l → insert_by_key k x l = (k, x) :: l.
Proof.
  destruct 1 as [|[k' y] l Hlt _]; [done|]. simpl in *.
  by rewrite bool_decide_eq_true_2 by lia.
Qed.

Lemma buckets_from_keys k m d :
  Forall (λ p, k ≤ p.1 < k + m)%nat (buckets_from k m d).
Proof.
  revert k. induction m as [|m IH]; intros k; simpl; [constructor|].
  apply Forall_app. split.
  - apply Forall_forall. intros p [Hp _]%list_elem_of_filter. lia.
  - eapply Forall_impl; [apply IH|]. intros p ?. simpl in *. lia.
Qed.

Lemma buckets_from_snoc_out k m d k' x :
  ¬ (k ≤ k' < k + m)%nat → buckets_from k m (d ++ [(k', x)]) = buckets_from k m d.
Proof.
  revert k. induction m as [|m IH]; intros k Hout; simpl; [done|].
  rewrite filter_app, filter_cons_False, filter_nil, app_nil_r by (simpl; lia).
  rewrite IH by lia. done.
Qed.

Lemma insert_buckets_from k m d k' x :
  (k ≤ k' < k + m)%nat →
  insert_by_key k' x (buckets_from k m d) = buckets_from k m (d ++ [(k', x)]).
Proof.
  revert k. induction m as [|m IH]; intros k Hin; simpl; [lia|].
  rewrite insert_by_key_le.
  2:{ apply Forall_forall. intros p [Hp _]%list_elem_of_filter. lia. }
  rewrite filter_app. destruct (decide (k' = k)) as [->|Hne].
  - rewrite filter_cons_True, filter_nil by done.
    rewrite insert_by_key_gt.
    2:{ eapply Forall_impl; [apply buckets_from_keys|]. intros p ?. simpl in *. lia. }
    rewrite buckets_from_snoc_out by lia. by rewrite <-(assoc_L (++)).
  - rewrite filter_cons_False, filter_nil, app_nil_r by (simpl; lia).
    rewrite IH by lia. done.
Qed.

Lemma buckets_from_nil k m : buckets_from k m ([] : list (nat * A)) = [].
Proof. revert k. induction m as [|m IH]; intros k; simpl; [done|]. by rewrite IH. Qed.

(** The insertion sort of [sorted] is the stable sort. *)
Lemma sort_keyed_buckets n d :
  Forall (λ p, p.1 < n)%nat d → sort_keyed (reverse d) = buckets_from 0 n d.
Proof.
  induction d as [|[k x] d IH] using rev_ind; intros Hk.
  { by rewrite buckets_from_nil. }
  apply Forall_app in Hk as [Hd Hx]. apply Forall_cons in Hx as [Hx _]. simpl in Hx.
  rewrite reverse_app. simpl. rewrite IH by done.
  apply insert_buckets_from. lia.
Qed.

End Sorted.

(** ** The order of assembly *)

Lemma list_index_cons x y ids :
  list_index x (y :: ids) = if bool_decide (y = x) then Some 0%nat else S <$> list_index x ids.
Proof. done. Qed.

Lemma list_index_elem_of x ids :
  x ∈ ids → ∃ j, list_index x ids = Some j ∧ (j < length ids)%nat.
Proof.
  induction ids as [|y ids IH]; intros Hin; [by apply elem_of_nil in Hin|].
  rewrite list_index_cons. case_bool_decide as Hy.
  - exists 0%nat. simpl. split; [done|lia].
  - apply elem_of_cons in Hin as [->|Hin]; [done|].
    destruct (IH Hin) as (j & -> & Hj). exists (S j). simpl. split; [done|lia].
Qed.

Lemma list_index_None x ids : x ∉ ids → list_index x ids = None.
Proof.
  induction ids as [|y ids IH]; intros Hin; [done|].
  apply not_elem_of_cons in Hin as [Hne Hin].
  rewrite list_index_cons, bool_decide_eq_false_2 by done. by rewrite IH.
Qed.

Lemma decorate_ok (ids : list Z) (l : list FileBlob) :
  Forall (λ b, b_id b ∈ ids) l →
  decorate (λ b, list_index (b_id b) ids) l
  = Ok ((λ b, (default 0%nat (list_index (b_id b) ids), b)) <$> l).
Proof.
  induction 1 as [|b l Hb _ IH]; [done|]. simpl.
  destruct (list_index_elem_of _ _ Hb) as (j & -> & _). by rewrite IH.
Qed.

Lemma decorate_keys (ids : list Z) (l : list FileBlob) :
  Forall (λ b, b_id b ∈ ids) l →
  Forall (λ p : nat * FileBlob, p.1 < length ids)%nat
    ((λ b, (default 0%nat (list_index (b_id b) ids), b)) <$> l).
Proof.
  intros H. apply Forall_fmap. eapply Forall_impl; [exact H|].
  intros b Hb. simpl. by destruct (list_index_elem_of _ _ Hb) as (j & -> & ?).
Qed.

Lemma snd_filter_key {A} (key : A → nat) (j : nat) (l : list A) :
  snd <$> filter (λ p : nat * A, p.1 = j) ((λ b, (key b, b)) <$> l)
  = filter (λ b, key b = j) l.
Proof.
  induction l as [|b l IH]; [done|]. rewrite fmap_cons.
  destruct (decide (key b = j)) as [Hk|Hk].
  - rewrite (filter_cons_True _ (key b, b)) by done.
    rewrite (filter_cons_True _ b) by done.
    rewrite fmap_cons. simpl (snd _). f_equal. exact IH.
  - rewrite (filter_cons_False _ (key b, b)) by done.
    rewrite (filter_cons_False _ b) by done. done.
Qed.

(** Past the first identifier, the buckets of the caller's list are those
    of its tail over the rows that do not have the first identifier. *)
Lemma buckets_from_shift (id : Z) (ids : list Z) (table : list FileBlob) m : ∀ k,
  snd <$> buckets_from (S k) m
            ((λ b, (default 0%nat (list_index (b_id b) (id :: ids)), b))
               <$> filter (λ b, b_id b ∈ id :: ids) table)
  = snd <$> buckets_from k m
              ((λ b, (default 0%nat (list_index (b_id b) ids), b))
                 <$> filter (λ b, b_id b ∈ ids) (filter (λ b, b_id b ≠ id) table)).
Proof.
  induction m as [|m IH]; intros k; [done|]. simpl.
  rewrite !fmap_app, IH. f_equal.
  rewrite !snd_filter_key, !list_filter_filter.
  apply list_filter_iff. intros b.
  case_bool_decide as Hid; simpl.
  - split; [intros [? _]; lia|]. intros [_ Hne]. by destruct Hne.
  - destruct (decide (b_id b ∈ ids)) as [Hin|Hout].
    + destruct (list_index_elem_of _ _ Hin) as (j & -> & _). simpl.
      split; [intros [? _]|intros [[? _] _]]; split_and!; auto with lia; set_solver.
    + rewrite list_index_None by done. simpl.
      split; [intros [? _]; lia|]. intros [[_ ?] _]. done.
Qed.

Lemma buckets_ordered_blobs (ids : list Z) : ∀ table,
  snd <$> buckets_from 0 (length ids)
            ((λ b, (default 0%nat (list_index (b_id b) ids), b))
               <$> filter (λ b, b_id b ∈ ids) table)
  = ordered_blobs ids table.
Proof.
  induction ids as [|id ids IH]; intros table; [done|].
  cbn [length buckets_from ordered_blobs].
  rewrite fmap_app, buckets_from_shift, IH. f_equal.
  rewrite snd_filter_key, list_filter_filter.
  apply list_filter_iff. intros b.
  rewrite list_index_cons. case_bool_decide as Hid; simpl.
  - split; [intros _; symmetry; exact Hid|]. intros _. split; [done|]. set_solver.
  - split; [|intros ?; by destruct Hid].
    intros [Hk Hin]. apply elem_of_cons in Hin as [?|Hin]; [done|].
    destruct (list_index_elem_of _ _ Hin) as (j & Hj & _).
    rewrite Hj in Hk. simpl in Hk. lia.
Qed.

(** [sorted(file_blobs, key=lambda blob: file_blob_ids.index(blob.id))] *)
Lemma sorted_ordered_blobs (ids : list Z) (table : list FileBlob) :
  sorted (λ blob, list_index (b_id blob) ids) (filter (λ b, b_id b ∈ ids) table)
  = Ok (ordered_blobs ids table).
Proof.
  assert (Forall (λ b, b_id b ∈ ids) (filter (λ b, b_id b ∈ ids) table)) as Hall.
  { apply Forall_forall. by intros b [? _]%list_elem_of_filter. }
  unfold sorted. rewrite decorate_ok by done.
  rewrite (sort_keyed_buckets (length ids)) by (by apply decorate_keys).
  by rewrite buckets_ordered_blobs.
Qed.

Lemma filter_pk_absent (id : Z) (table : list FileBlob) :
  id ∉ b_id <$> table → filter (λ b, b_id b = id) table = [].
Proof.
  induction table as [|x table IH]; [done|]. rewrite fmap_cons.
  intros [Hx Hin]%not_elem_of_cons.
  rewrite filter_cons_False by congruence. auto.
Qed.

Lemma filter_pk_unique (b : FileBlob) (table : list FileBlob) :
  NoDup (b_id <$> table) → b ∈ table → filter (λ x, b_id x = b_id b) table = [b].
Proof.
  induction table as [|x table IH]; intros Hpk Hb; [by apply elem_of_nil in Hb|].
  rewrite fmap_cons in Hpk. apply NoDup_cons in Hpk as [Hx Hpk].
  apply elem_of_cons in Hb as [<-|Hb].
  - rewrite filter_cons_True by done. by rewrite filter_pk_absent.
  - rewrite filter_cons_False; [auto|].
    intros Heq. apply Hx. rewrite Heq. by apply list_elem_of_fmap_2.
Qed.

Lemma NoDup_fmap_filter {A B} (f : A → B) (P : A → Prop) `{!∀ x, Decision (P x)} l :
  NoDup (f <$> l) → NoDup (f <$> filter P l).
Proof.
  intros Hnd. apply (sublist_NoDup _ (f <$> l)); [exact Hnd|].
  apply fmap_sublist, sublist_filter.
Qed.

(** With distinct primary keys and distinct identifiers that all exist,
    the order is the caller's. *)
Lemma ordered_blobs_ids (ids : list Z) : ∀ table,
  NoDup ids → NoDup (b_id <$> table) → (∀ id, id ∈ ids → id ∈ b_id <$> table) →
  b_id <$> ordered_blobs ids table = ids.
Proof.
  induction ids as [|id ids IH]; intros table Hids Hpk Hall; [done|].
  apply NoDup_cons in Hids as [Hid Hids]. simpl. rewrite fmap_app.
  assert (id ∈ b_id <$> table) as (b & -> & Hb)%list_elem_of_fmap
    by (apply Hall; set_solver).
  rewrite filter_pk_unique by done. simpl. f_equal.
  apply IH; [done|by apply NoDup_fmap_filter|].
  intros id' Hin.
  assert (id' ∈ b_id <$> table) as (b' & -> & Hb')%list_elem_of_fmap
    by (apply Hall; set_solver).
  apply list_elem_of_fmap_2, list_elem_of_filter. split; [|done].
  intros Heq. apply Hid. by rewrite <- Heq.
Qed.

(** ** Assembling a file from uploaded blobs *)

Lemma f_write_append (chunk : bytes) (tf : FileObj) :
  f_pos tf = length (f_data tf) →
  f_write chunk tf = mkFileObj (f_data tf ++ chunk) (length (f_data tf ++ chunk)).
Proof.
  intros Hpos. unfold f_write. rewrite Hpos.
  rewrite take_ge, Nat.sub_diag, drop_ge by (rewrite ?length_app; lia).
  simpl. by rewrite app_nil_r, length_app.
Qed.

Lemma ordered_blobs_elem_of (ids : list Z) : ∀ table b,
  b ∈ ordered_blobs ids table → b ∈ table ∧ b_id b ∈ ids.
Proof.
  induction ids as [|id ids IH]; intros table b Hb; [by apply elem_of_nil in Hb|].
  simpl in Hb. apply elem_of_app in Hb as [Hb|Hb].
  - apply list_elem_of_filter in Hb as [-> Hb]. split; [done|]. set_solver.
  - apply IH in Hb as [Hb Hin]. apply list_elem_of_filter in Hb as [_ Hb].
    split; [done|]. set_solver.
Qed.

Lemma ordered_blobs_NoDup (ids : list Z) : ∀ table,
  NoDup (b_id <$> table) → NoDup (b_id <$> ordered_blobs ids table).
Proof.
  induction ids as [|id ids IH]; intros table Hpk; [constructor|].
  simpl. rewrite fmap_app. apply NoDup_app. split_and!.
  - by apply NoDup_fmap_filter.
  - intros x (b & -> & Hb)%list_elem_of_fmap (b' & Heq & Hb')%list_elem_of_fmap.
    apply list_elem_of_filter in Hb as [Hb _].
    apply ordered_blobs_elem_of in Hb' as [Hb' _].
    apply list_elem_of_filter in Hb' as [Hb' _]. congruence.
  - by apply IH, NoDup_fmap_filter.
Qed.

(** The loop creates one row per blob, at cumulative offsets, and appends
    each blob's content to the digest input and to the temp file; it touches
    no other table and not the in-memory file. *)
Lemma assemble_loop_spec (blobs : list FileBlob) : ∀ offset acc tf self w r self' w',
  f_pos tf = length (f_data tf) →
  assemble_loop blobs offset acc tf (self, w) = (r, (self', w')) →
  self' = self ∧ storage_log w' = storage_log w ∧ fileblobs w' = fileblobs w
  ∧ files w' = files w ∧ fileblobowners w' = fileblobowners w
  ∧ ∀ offset' acc' tf', r = Ok (offset', acc', tf') →
      let data := concat (blob_data (storage_log w) <$> blobs) in
      offset' = offset + total_size blobs
      ∧ acc' = acc ++ data
      ∧ tf' = mkFileObj (f_data tf ++ data) (length (f_data tf ++ data))
      ∧ ∃ rows, fileblobindexes w' = fileblobindexes w ++ rows
          ∧ idx_blob <$> rows = blobs
          ∧ Forall (λ row, idx_file row = file_id self) rows
          ∧ cumulative_from offset rows.
Proof.
  induction blobs as [|blob blobs IH]; intros offset acc tf self w r self' w' Htf Hrun.
  - simpl in Hrun. injection Hrun as <- <- <-. split_and!; try done.
    intros offset' acc' tf' [= <- <- <-]. simpl. rewrite !app_nil_r.
    split_and!; [lia|done|by destruct tf; simpl in *; subst|].
    exists []. by rewrite app_nil_r.
  - cbn [assemble_loop] in Hrun.
    unfold bind at 1 in Hrun. unfold on_local at 1, get at 1 in Hrun.
    unfold bind at 1 in Hrun. unfold on_world at 1, FileBlobIndex_create at 1 in Hrun.
    case_bool_decide as Hdup.
    { injection Hrun as <- <- <-. split_and!; done. }
    unfold bind at 1 in Hrun. unfold on_world at 1, get at 1 in Hrun.
    unfold bind at 1 in Hrun. unfold lift at 1 in Hrun. cbn [storage_log set_next_index_id set_fileblobindexes] in Hrun.
    destruct (getfile (storage_log w) blob) as [f|e] eqn:Hget.
    2:{ injection Hrun as <- <- <-. split_and!; done. }
    apply IH in Hrun as (-> & Hlog & Hb & Hf & Ho & Hok).
    2:{ rewrite f_write_append by done. done. }
    split_and!; [done..|].
    intros offset' acc' tf' ->.
    destruct (Hok _ _ _ eq_refl) as (-> & -> & -> & rows & Hrows & Hblobs & Hfile & Hcum).
    assert (blob_data (storage_log w) blob = f_chunks f) as Hdata.
    { unfold blob_data. by rewrite Hget. }
    cbn [fmap list_fmap concat total_size foldr]. fold (total_size blobs).
    rewrite Hdata. rewrite f_write_append by done. cbn [f_data].
    rewrite <- !(assoc_L (++)).
    split_and!; [lia|done|done|].
    eexists (_ :: rows). split_and!.
    + rewrite Hrows. cbn. by rewrite <- (assoc_L (++)).
    + cbn. by rewrite Hblobs.
    + by constructor.
    + by split.
Qed.

(** With distinct primary keys among the blobs, no row of this file for any
    of them yet, and every blob readable, the loop runs to its end. *)
Lemma assemble_loop_ok (blobs : list FileBlob) : ∀ offset acc tf self w,
  NoDup (b_id <$> blobs) →
  (∀ i, i ∈ fileblobindexes w → idx_file i = file_id self →
        b_id (idx_blob i) ∉ b_id <$> blobs) →
  Forall (λ b, ∃ f, getfile (storage_log w) b = Ok f) blobs →
  ∃ res s, assemble_loop blobs offset acc tf (self, w) = (Ok res, s).
Proof.
  induction blobs as [|blob blobs IH]; intros offset acc tf self w Hpk Hfresh Hread.
  - by eexists _, _.
  - rewrite fmap_cons in Hpk. apply NoDup_cons in Hpk as [Hblob Hpk].
    apply Forall_cons in Hread as [[f Hget] Hread].
    cbn [assemble_loop].
    unfold bind at 1. unfold on_local at 1, get at 1.
    unfold bind at 1. unfold on_world at 1, FileBlobIndex_create at 1.
    rewrite bool_decide_eq_false_2.
    2:{ intros (i & Hi & Hfile & Hid & _)%Exists_exists.
        apply (Hfresh i Hi Hfile). rewrite Hid, fmap_cons. set_solver. }
    unfold bind at 1. unfold on_world at 1, get at 1.
    unfold bind at 1. unfold lift at 1.
    cbn [storage_log set_next_index_id set_fileblobindexes]. rewrite Hget.
    apply IH; [done| |done].
    cbn [fileblobindexes set_next_index_id set_fileblobindexes].
    intros i [Hi|Hi]%elem_of_app Hfile.
    + specialize (Hfresh i Hi Hfile). rewrite fmap_cons in Hfresh. set_solver.
    + apply list_elem_of_singleton in Hi as ->. done.
Qed.

(** The call, in terms of its loop. *)
Lemma assemble_from_file_blob_ids_unfold (sha1 : bytes → string) ids checksum commit self w :
  assemble_from_file_blob_ids sha1 ids checksum commit (self, w)
  = match assemble_loop (ordered_blobs ids (fileblobs w)) 0 [] (ContentFile []) (self, w) with
    | (Ok (offset, acc, tf), (self1, w1)) =>
        let self2 := set_size_checksum offset (sha1 acc) self1 in
        if bool_decide (checksum ≠ sha1 acc)
        then (Raise (AssembleChecksumMismatch "Checksum mismatch"),
              (self2, rollback w w1))
        else (f_seek 0 tf,
              (self2, if commit then (File_save self2 w1).2 else w1))
    | (Raise e, (self1, w1)) => (Raise e, (self1, rollback w w1))
    end.
Proof.
  unfold assemble_from_file_blob_ids.
  unfold bind at 1. unfold transaction_atomic at 1.
  unfold bind at 1. unfold on_world at 1, FileBlob_objects_filter_id_in at 1.
  unfold bind at 1. unfold lift at 1. rewrite sorted_ordered_blobs.
  unfold bind at 1.
  destruct (assemble_loop _ _ _ _ _) as [[[[offset acc] tf]|e] [self1 w1]]; [|done].
  unfold bind at 1. unfold on_local at 1, modify at 1.
  case_bool_decide; [done|].
  unfold ret at 1. unfold bind at 1.
  destruct commit.
  - unfold self_save, bind, on_local, get, on_world, File_save, modify, ret, lift.
    by destruct (f_seek 0 tf).
  - unfold bind, ret, lift. by destruct (f_seek 0 tf).
Qed.

Lemma File_save_elem_of (file : File) (w : World) :
  file ∈ files (File_save file w).2.
Proof.
  unfold File_save, modify. simpl. case_bool_decide as Hin.
  - destruct w. simpl in *.
    apply list_elem_of_fmap in Hin as (r & Hr & Hin).
    apply list_elem_of_fmap. exists r. split; [|done].
    by rewrite bool_decide_eq_true_2.
  - destruct w. simpl. apply elem_of_app. right. by apply list_elem_of_singleton.
Qed.

Lemma File_save_tables (file : File) (w : World) :
  fileblobindexes (File_save file w).2 = fileblobindexes w
  ∧ fileblobs (File_save file w).2 = fileblobs w
  ∧ storage_log (File_save file w).2 = storage_log w.
Proof. unfold File_save, modify. simpl. case_bool_decide; by destruct w. Qed.

(** *** C6 *)

(** C6. Whatever makes [assemble_from_file_blob_ids] raise, the tables are
    afterwards what they were before the call: no index row remains and the
    file's row is not written. And when the blobs have distinct primary
    keys, the file has no index row yet, every named blob can be read and
    the SHA-1 of the assembled bytes is not the expected checksum, the call
    raises the checksum-mismatch error. *)
Theorem assemble_mismatch_commits_nothing (sha1 : bytes → string)
    (ids : list Z) (checksum : string) (commit : bool) (self : File) (w : World)
    (r : Result FileObj) (self' : File) (w' : World) :
  assemble_from_file_blob_ids sha1 ids checksum commit (self, w) = (r, (self', w')) →
  (∀ e, r = Raise e →
     fileblobindexes w' = fileblobindexes w ∧ files w' = files w
     ∧ fileblobs w' = fileblobs w ∧ fileblobowners w' = fileblobowners w)
  ∧ (NoDup (b_id <$> fileblobs w) →
     (∀ i, i ∈ fileblobindexes w → idx_file i ≠ file_id self) →
     (∀ b, b ∈ fileblobs w → b_id b ∈ ids → ∃ f, getfile (storage_log w) b = Ok f) →
     checksum ≠ sha1 (assembled w ids) →
     r = Raise (AssembleChecksumMismatch "Checksum mismatch")).
Proof.
  rewrite assemble_from_file_blob_ids_unfold. intros Hrun. split.
  - intros e ->.
    destruct (assemble_loop _ _ _ _ _) as [[[[offset acc] tf]|e'] [self1 w1]].
    + simpl in Hrun. case_bool_decide.
      * injection Hrun as _ _ <-. by destruct w, w1.
      * unfold f_seek in Hrun. simpl in Hrun. discriminate.
    + injection Hrun as _ _ <-. by destruct w, w1.
  - intros Hpk Hfresh Hread Hmis.
    destruct (assemble_loop_ok (ordered_blobs ids (fileblobs w)) 0 [] (ContentFile [])
                self w) as ([[offset acc] tf] & [self1 w1] & Hloop).
    { by apply ordered_blobs_NoDup. }
    { intros i Hi Hfile. by destruct (Hfresh i Hi). }
    { apply Forall_forall. intros b [Hb Hid]%ordered_blobs_elem_of. auto. }
    rewrite Hloop in Hrun.
    apply assemble_loop_spec in Hloop as (_ & _ & _ & _ & _ & Hok); [|done].
    destruct (Hok _ _ _ eq_refl) as (_ & Hacc & _). simpl in Hacc. subst acc.
    simpl in Hrun. fold (assembled w ids) in Hrun.
    rewrite bool_decide_eq_true_2 in Hrun by done. by injection Hrun as <- _ _.
Qed.

Lemma assemble_mismatch_commits_nothing_witness :
  (assemble_from_file_blob_ids ex_sha1 [1; 2] "not-the-digest" true (ex_file, ex_store)).1
  = Raise (AssembleChecksumMismatch "Checksum mismatch")
  ∧ fileblobindexes
      (assemble_from_file_blob_ids ex_sha1 [1; 2] "not-the-digest" true
         (ex_file, ex_store)).2.2 = []
  ∧ files
      (assemble_from_file_blob_ids ex_sha1 [1; 2] "not-the-digest" true
         (ex_file, ex_store)).2.2 = [].
Proof.
  destruct (assemble_from_file_blob_ids ex_sha1 [1; 2] "not-the-digest" true
              (ex_file, ex_store)) as [r [self' w']] eqn:Hrun.
  destruct (assemble_mismatch_commits_nothing ex_sha1 [1; 2] "not-the-digest" true
              ex_file ex_store r self' w' Hrun) as [Hroll Hraise].
  assert (r = Raise (AssembleChecksumMismatch "Checksum mismatch")) as Hr.
  { apply Hraise.
    - vm_compute. repeat constructor; set_solver.
    - intros i Hi. by apply elem_of_nil in Hi.
    - intros b Hb _. simpl in Hb.
      apply elem_of_cons in Hb as [Hb|Hb]; [subst b; eexists; reflexivity|].
      apply list_elem_of_singleton in Hb. subst b. eexists; reflexivity.
    - vm_compute. discriminate. }
  destruct (Hroll _ Hr) as (Hi & Hf & _). simpl. by rewrite Hr, Hi, Hf.
Defined.

(** *** C7 *)

(** C7, amended. On every successful call: the blobs worked on are the named
    rows in the order of the caller's identifiers (exactly that list when
    the identifiers are distinct and all exist), one index row per blob is
    appended at the cumulative offsets from 0, the in-memory file gets the
    total size and the SHA-1 of the assembled bytes, which is the expected
    checksum, the returned temp file holds the assembled bytes and is
    positioned at the start; the file's row is written when [commit] is
    true and the files table is untouched when it is false. *)
Theorem assemble_orders_and_indexes (sha1 : bytes → string)
    (ids : list Z) (checksum : string) (commit : bool) (self : File) (w : World)
    (tf : FileObj) (self' : File) (w' : World) :
  assemble_from_file_blob_ids sha1 ids checksum commit (self, w) = (Ok tf, (self', w')) →
  let blobs := ordered_blobs ids (fileblobs w) in
  (∃ rows, fileblobindexes w' = fileblobindexes w ++ rows
     ∧ idx_blob <$> rows = blobs
     ∧ Forall (λ row, idx_file row = file_id self) rows
     ∧ cumulative_from 0 rows)
  ∧ (NoDup ids → NoDup (b_id <$> fileblobs w) →
     (∀ id, id ∈ ids → id ∈ b_id <$> fileblobs w) → b_id <$> blobs = ids)
  ∧ self' = set_size_checksum (total_size blobs) (sha1 (assembled w ids)) self
  ∧ checksum = sha1 (assembled w ids)
  ∧ tf = ContentFile (assembled w ids)
  ∧ (commit = true → self' ∈ files w')
  ∧ (commit = false → files w' = files w).
Proof.
  rewrite assemble_from_file_blob_ids_unfold. intros Hrun blobs.
  destruct (assemble_loop _ _ _ _ _) as [[[[offset acc] tf1]|e] [self1 w1]] eqn:Hloop;
    [|discriminate].
  apply assemble_loop_spec in Hloop as (-> & _ & _ & Hfiles & _ & Hok); [|done].
  destruct (Hok _ _ _ eq_refl) as (-> & Hacc & -> & rows & Hrows & Hblobs & Hfile & Hcum).
  simpl in Hacc. fold (assembled w ids) in Hacc. subst acc.
  cbn beta iota zeta in Hrun. case_bool_decide as Hsum; [discriminate|].
  injection Hrun as <- <- <-.
  split_and!.
  - exists rows. split_and!; try done.
    destruct commit; [|done]. rewrite <- Hrows. by case_bool_decide; destruct w1.
  - intros. by apply ordered_blobs_ids.
  - by rewrite Z.add_0_l.
  - by destruct (decide (checksum = sha1 (assembled w ids))).
  - done.
  - intros ->. exact (File_save_elem_of (set_size_checksum _ _ self) w1).
  - by intros ->.
Qed.

Lemma assemble_orders_and_indexes_witness :
  ∃ tf self' w',
    assemble_from_file_blob_ids ex_sha1 [1; 2] "hello" true (ex_file, ex_store)
    = (Ok tf, (self', w'))
    ∧ fileblobs ex_store = [ex_blob2; ex_blob1]
    ∧ idx_blob <$> fileblobindexes w' = [ex_blob1; ex_blob2]
    ∧ tf = ContentFile ex_hello
    ∧ self' ∈ files w'.
Proof.
  eexists _, _, _. split; [vm_compute; reflexivity|].
  match goal with |- context [mkFileObj ?d 0] => set (tf := mkFileObj d 0) end.
  match goal with |- context [{| file_id := ?i; file_size := ?s; file_checksum := ?c |}] =>
    set (self' := mkFile i s c) end.
  match goal with |- context [_ ∈ files ?x] => set (w' := x) end.
  destruct (assemble_orders_and_indexes ex_sha1 [1; 2] "hello" true ex_file ex_store
              tf self' w' ltac:(vm_compute; reflexivity))
    as (_ & _ & _ & _ & Htf & Hsaved & _).
  split_and!; [reflexivity|reflexivity|exact Htf|exact (Hsaved eq_refl)].
Defined.

(** C7, the claim as stated fails: a call with [commit] false succeeds and
    returns the assembled bytes, but no row of the files table holds the
    file's size and checksum afterwards. *)
Lemma assemble_without_commit_not_persisted :
  ∃ tf self' w',
    assemble_from_file_blob_ids ex_sha1 [1; 2] "hello" false (ex_file, ex_store)
    = (Ok tf, (self', w'))
    ∧ file_size self' = Some 5
    ∧ files w' = [].
Proof. eexists _, _, _. vm_compute. split_and!; reflexivity. Qed.

(** ** Batch intake *)

Lemma distinct_new_ext (sha1 : bytes → string) (datas : list bytes) : ∀ known known',
  (∀ c, c ∈ known ↔ c ∈ known') →
  distinct_new sha1 known datas = distinct_new sha1 known' datas.
Proof.
  induction datas as [|d datas IH]; intros known known' Heq; [done|]. simpl.
  rewrite (bool_decide_ext _ _ (Heq (sha1 d))). case_bool_decide.
  - by apply IH.
  - f_equal. apply IH. intros c. rewrite !elem_of_cons, Heq. done.
Qed.

(** Inputs with distinct checksums, none of them known, are all new. *)
Lemma distinct_new_all (sha1 : bytes → string) (datas : list bytes) : ∀ known,
  NoDup (sha1 <$> datas) → (∀ d, d ∈ datas → sha1 d ∉ known) →
  distinct_new sha1 known datas = datas.
Proof.
  induction datas as [|d datas IH]; intros known Hnd Hnew; [done|].
  rewrite fmap_cons in Hnd. apply NoDup_cons in Hnd as [Hd Hnd]. simpl.
  rewrite bool_decide_eq_false_2 by (apply Hnew; set_solver).
  f_equal. apply IH; [done|]. intros d' Hd'. apply not_elem_of_cons. split.
  - intros Heq. apply Hd. rewrite <- Heq. by apply list_elem_of_fmap_2.
  - apply Hnew. set_solver.
Qed.

Section BatchProofs.

Variable sha1 : bytes → string.
Variable uuid4 : nat → N.
Variable organization : option Z.

Lemma _ensure_blob_owned_spec blob s w :
  ∃ owners, _ensure_blob_owned organization blob (s, w)
            = (Ok tt, (s, set_fileblobowners owners w)).
Proof.
  unfold _ensure_blob_owned. destruct organization as [o|].
  - unfold transaction_atomic, on_world, FileBlobOwner_create. case_bool_decide.
    + exists (fileblobowners w). by destruct w.
    + by eexists.
  - exists (fileblobowners w). by destruct w.
Qed.

(** [_flush_blobs] saves the waiting upload, if there is one, releases its
    lock and gives the permit back. *)
Lemma _flush_blobs_spec s w :
  batch_inv s w →
  ∃ s' w', _flush_blobs organization (s, w) = (Ok tt, (s', w'))
    ∧ batch_inv s' w'
    ∧ blobs_to_save s' = []
    ∧ checksums_seen s' = checksums_seen s
    ∧ storage_log w' = storage_log w
    ∧ fileblobs w `prefix_of` fileblobs w'
    ∧ blob_info <$> table_and_pending s' w' = blob_info <$> table_and_pending s w.
Proof.
  intros (Hlen & Hkey & Hlocks & Hsem & Hheld & Hnd & Hseen).
  destruct s as [seen created pend lks sem]. simpl in *.
  destruct pend as [|[blob lock] pend].
  - exists (mkFromFiles seen created [] lks sem), w.
    split_and!; try done.
  - destruct pend; [|simpl in Hlen; lia].
    apply Forall_cons in Hkey as [Hkey _]. simpl in Hkey. subst lock lks.
    unfold table_and_pending in Hnd, Hseen. simpl in Hnd, Hseen.
    rewrite fmap_app in Hnd. apply NoDup_app in Hnd as (Hnd & Hnew & _).
    assert (b_checksum blob ∉ b_checksum <$> fileblobs w) as Hfresh.
    { intros Hin. apply (Hnew _ Hin). simpl. set_solver. }
    unfold _flush_blobs. rewrite bind_on_local_get.
    cbn [blobs_to_save length _flush_blobs_loop].
    rewrite bind_on_local_get. cbn [blobs_to_save reverse rev_append].
    rewrite bind_on_local_modify. unfold _save_blob.
    unfold bind at 1. unfold bind at 1. unfold on_world at 1, FileBlob_save at 1.
    rewrite bool_decide_eq_false_2 by done.
    match goal with |- context [_ensure_blob_owned _ ?b (?s0, ?w0)] =>
      destruct (_ensure_blob_owned_spec b s0 w0) as [owners ->] end.
    unfold bind at 1. unfold on_world at 1, _locked_blob_exit, lock_release, modify at 1.
    rewrite bind_on_local_modify. unfold semaphore_release. rewrite bind_on_local_modify.
    cbn [_flush_blobs_loop]. rewrite bind_on_local_get. simpl.
    eexists _, _. split; [reflexivity|].
    destruct w as [bs ixs os fs nb ni log held clk uc]. simpl in *.
    unfold batch_inv, table_and_pending. simpl.
    assert (filter (λ l : string, l ≠ b_checksum blob) [b_checksum blob] = []) as ->.
    { rewrite filter_cons_False; [done|]. intros Hne. by apply Hne. }
    simpl. rewrite !app_nil_r.
    split_and!; try done.
    + lia.
    + unfold MULTI_BLOB_UPLOAD_CONCURRENCY in *. lia.
    + rewrite Hheld. set_solver.
    + rewrite fmap_app. apply NoDup_app. split_and!; [done| |apply NoDup_singleton].
      intros c Hc Hc'. simpl in Hc'. apply list_elem_of_singleton in Hc'. by subst.
    + intros c Hc. specialize (Hseen c Hc). by rewrite fmap_app in *.
    + by apply prefix_app_r.
    + by rewrite !fmap_app.
Qed.


Lemma blob_info_checksums (l l' : list FileBlob) :
  blob_info <$> l = blob_info <$> l' → b_checksum <$> l = b_checksum <$> l'.
Proof.
  intros H. change b_checksum with (fst ∘ blob_info).
  by rewrite !(list_fmap_compose blob_info fst), H.
Qed.

(** One input of the batch: content that is known (in the table, waiting to
    be saved, or seen earlier) is not written again; new content is written
    once and waits to be saved. *)
Lemma from_files_step_spec d s w :
  batch_inv s w →
  ∃ s' w',
    from_files_step sha1 uuid4 organization (ContentFile d) None (s, w) = (Ok tt, (s', w'))
    ∧ batch_inv s' w'
    ∧ fileblobs w `prefix_of` fileblobs w'
    ∧ if bool_decide (sha1 d ∈ b_checksum <$> table_and_pending s w)
      then storage_log w' = storage_log w
           ∧ blob_info <$> table_and_pending s' w' = blob_info <$> table_and_pending s w
      else (∃ path, storage_log w' = (path, d) :: storage_log w)
           ∧ blob_info <$> table_and_pending s' w'
             = (blob_info <$> table_and_pending s w) ++ [(sha1 d, len d)].
Proof.
  intros Hinv.
  destruct (_flush_blobs_spec s w Hinv)
    as (s1 & w1 & Hflush & Hinv1 & Hpend1 & Hseen1 & Hlog1 & Hpre1 & Hinfo1).
  rewrite <- (blob_info_checksums _ _ Hinfo1), <- Hinfo1, <- Hlog1.
  unfold from_files_step. unfold bind at 1. rewrite Hflush.
  rewrite _get_size_and_checksum_spec, f_rest_ContentFile.
  cbn beta iota zeta. unfold bind at 1, lift at 1. cbn beta iota zeta.
  rewrite bind_on_local_get.
  clear Hflush Hinfo1 Hlog1 Hseen1 Hinv.
  destruct Hinv1 as (_ & _ & Hlocks & Hsem & Hheld & Hnd & Hseen).
  destruct s1 as [seen created pend lks sem]. simpl in *. subst pend lks.
  unfold table_and_pending in *. simpl in *. rewrite app_nil_r in *.
  destruct w1 as [bs ixs os fs nb ni log held clk uc]. simpl in *. subst held.
  case_bool_decide as Hdup.
  { eexists _, _. split; [reflexivity|].
    rewrite bool_decide_eq_true_2 by auto.
    unfold batch_inv, table_and_pending. simpl. rewrite !app_nil_r.
    split_and!; try done. lia. }
  rewrite bind_on_local_modify.
  unfold bind at 1. unfold on_world at 1, _locked_blob_enter.
  unfold bind at 1. unfold lock_acquire at 1.
  rewrite bool_decide_eq_false_2 by set_solver.
  unfold FileBlob_objects_get. cbn [fileblobs set_locks_held locks_held].
  destruct (decide (sha1 d ∈ b_checksum <$> bs)) as [Hin|Hout].
  - rewrite bool_decide_eq_true_2 by done.
    apply list_elem_of_fmap in Hin as (existing & Hsum & Hin).
    rewrite Hsum, filter_checksum_unique by done.
    unfold bind at 1. unfold on_world at 1, _locked_blob_exit, lock_release, modify at 1.
    rewrite bind_on_local_modify.
    match goal with |- context [_ensure_blob_owned _ ?b (?s0, ?w0)] =>
      destruct (_ensure_blob_owned_spec b s0 w0) as [owners ->] end.
    eexists _, _. split; [reflexivity|].
    unfold batch_inv, table_and_pending. simpl. rewrite !app_nil_r.
    split_and!; try done.
    + lia.
    + set_solver.
    + intros c [->|Hc]%elem_of_cons; [|auto].
      by apply list_elem_of_fmap_2.
  - rewrite bool_decide_eq_false_2 by done.
    rewrite filter_checksum_absent by done.
    rewrite bind_on_local_modify.
    unfold bind at 1. unfold semaphore_acquire at 1. cbn [semaphore set_locks].
    assert (sem = 8%nat) as -> by (unfold MULTI_BLOB_UPLOAD_CONCURRENCY in *; lia).
    unfold _upload_and_pend_chunk, FileBlob_new, generate_unique_path, storage_save.
    unfold bind, on_world, on_local, modify. simpl.
    eexists _, _. split; [reflexivity|].
    unfold batch_inv, table_and_pending. simpl.
    split_and!; try done.
    + by repeat constructor.
    + rewrite fmap_app. apply NoDup_app. split_and!; [done| |apply NoDup_singleton].
      intros c Hc Hc'. simpl in Hc'. apply list_elem_of_singleton in Hc'. by subst.
    + intros c [->|Hc]%elem_of_cons; rewrite fmap_app; set_solver.
    + by eexists.
    + by rewrite fmap_app.
Qed.


Lemma from_files_loop_spec datas : ∀ s w,
  batch_inv s w →
  ∃ s' w',
    from_files_loop sha1 uuid4 organization (files_with_checksums (plain_files datas)) (s, w)
    = (Ok tt, (s', w'))
    ∧ batch_inv s' w'
    ∧ fileblobs w `prefix_of` fileblobs w'
    ∧ let new := distinct_new sha1 (b_checksum <$> table_and_pending s w) datas in
      snd <$> storage_log w' = reverse new ++ (snd <$> storage_log w)
      ∧ blob_info <$> table_and_pending s' w'
        = (blob_info <$> table_and_pending s w) ++ ((λ d, (sha1 d, len d)) <$> new).
Proof.
  induction datas as [|d datas IH]; intros s w Hinv.
  - exists s, w. simpl. rewrite app_nil_r. by split_and!.
  - destruct (from_files_step_spec d s w Hinv) as (s1 & w1 & Hstep & Hinv1 & Hpre1 & Hcase).
    destruct (IH s1 w1 Hinv1) as (s' & w' & Hloop & Hinv' & Hpre' & Hlog' & Hinfo').
    exists s', w'. cbn [plain_files files_with_checksums fmap list_fmap from_files_loop].
    unfold bind at 1. rewrite Hstep.
    split; [exact Hloop|]. split; [done|]. split; [by etrans|].
    cbn [distinct_new]. case_bool_decide as Hknown.
    + destruct Hcase as [Hlog1 Hinfo1].
      rewrite (blob_info_checksums _ _ Hinfo1) in Hlog', Hinfo'.
      by rewrite Hlog', Hinfo', Hlog1, Hinfo1.
    + destruct Hcase as [[path Hlog1] Hinfo1].
      assert (distinct_new sha1 (b_checksum <$> table_and_pending s1 w1) datas
              = distinct_new sha1 (sha1 d :: (b_checksum <$> table_and_pending s w)) datas)
        as Hnew.
      { apply distinct_new_ext. intros c.
        change b_checksum with (fst ∘ blob_info).
        rewrite !(list_fmap_compose blob_info fst), Hinfo1, fmap_app. simpl.
        rewrite elem_of_app, !elem_of_cons, elem_of_nil. tauto. }
      rewrite Hnew in Hlog', Hinfo'. rewrite Hlog', Hinfo', Hlog1, Hinfo1.
      rewrite reverse_cons, fmap_cons, <- !(assoc_L (++)). done.
Qed.

End BatchProofs.

Lemma distinct_new_covers (sha1 : bytes → string) (datas : list bytes) : ∀ known d,
  d ∈ datas → sha1 d ∈ known ++ (sha1 <$> distinct_new sha1 known datas).
Proof.
  induction datas as [|x datas IH]; intros known d Hd; [by apply elem_of_nil in Hd|].
  simpl. apply elem_of_cons in Hd as [->|Hd].
  - case_bool_decide; [set_solver|]. rewrite fmap_cons. set_solver.
  - case_bool_decide; [by apply IH|].
    specialize (IH (sha1 x :: known) d Hd). rewrite fmap_cons. set_solver.
Qed.

(** *** C8 *)

(** C8, amended. From a world where no upload lock is held and checksums are
    unique, [from_files] on a batch of plain file objects succeeds and
    evaluates to [None]; it writes to storage once per input whose content
    is new (neither in the table nor the content of an earlier input of the
    batch), in input order, and adds one row per such input, with its
    checksum and size; afterwards no lock is held, checksums are still
    unique, and every input's checksum has a row, the same row for inputs
    with the same bytes.  When inputs 2 and 5 repeat input 1, the others
    are distinct and nothing is in the table yet, the writes are two fewer
    than the inputs. *)
Theorem from_files_deduplicates (sha1 : bytes → string) (uuid4 : nat → N)
    (organization : option Z) (datas : list bytes) (w : World) :
  locks_held w = ∅ →
  NoDup (b_checksum <$> fileblobs w) →
  let new := distinct_new sha1 (b_checksum <$> fileblobs w) datas in
  ∃ w',
    from_files sha1 uuid4 organization (plain_files datas) w = (Ok PyNone, w')
    ∧ snd <$> storage_log w' = reverse new ++ (snd <$> storage_log w)
    ∧ (∃ rows, fileblobs w' = fileblobs w ++ rows
         ∧ blob_info <$> rows = (λ d, (sha1 d, len d)) <$> new)
    ∧ locks_held w' = ∅
    ∧ NoDup (b_checksum <$> fileblobs w')
    ∧ (∀ d, d ∈ datas → ∃ b, b ∈ fileblobs w' ∧ b_checksum b = sha1 d)
    ∧ (∀ a c e rest,
         datas = a :: a :: c :: e :: a :: rest →
         NoDup (sha1 <$> a :: c :: e :: rest) →
         fileblobs w = [] →
         new = a :: c :: e :: rest
         ∧ (length (storage_log w') + 2 = length (storage_log w) + length datas)%nat).
Proof.
  intros Hheld Hnd new.
  set (locals := mkFromFiles [] [] [] [] MULTI_BLOB_UPLOAD_CONCURRENCY).
  assert (batch_inv locals w) as Hinv.
  { unfold batch_inv, table_and_pending. simpl. rewrite app_nil_r.
    split_and!; try done; [lia|]. intros c Hc. by apply elem_of_nil in Hc. }
  destruct (from_files_loop_spec sha1 uuid4 organization datas locals w Hinv)
    as (s1 & w1 & Hloop & Hinv1 & Hpre1 & Hlog1 & Hinfo1).
  destruct (_flush_blobs_spec uuid4 organization s1 w1 Hinv1)
    as (s2 & w2 & Hflush & Hinv2 & Hpend2 & _ & Hlog2 & Hpre2 & Hinfo2).
  unfold table_and_pending in Hlog1, Hinfo1, Hinfo2. simpl in Hlog1, Hinfo1.
  rewrite Hpend2 in Hinfo2. simpl in Hinfo2. rewrite !app_nil_r in *.
  fold new in Hlog1, Hinfo1. rewrite Hinfo1 in Hinfo2. rewrite <- Hlog2 in Hlog1.
  destruct Hinv2 as (_ & _ & Hlocks2 & _ & Hheld2 & Hnd2 & _).
  rewrite Hpend2 in Hlocks2. simpl in Hlocks2.
  unfold table_and_pending in Hnd2. rewrite Hpend2 in Hnd2. simpl in Hnd2.
  rewrite app_nil_r in Hnd2. rewrite Hlocks2 in Hheld2. simpl in Hheld2.
  assert (∃ rows, fileblobs w2 = fileblobs w ++ rows) as [rows Hrows].
  { destruct Hpre1 as [r1 Hr1], Hpre2 as [r2 Hr2]. exists (r1 ++ r2).
    by rewrite Hr2, Hr1, <- (assoc_L (++)). }
  assert (blob_info <$> rows = (λ d, (sha1 d, len d)) <$> new) as Hrowinfo.
  { rewrite Hrows, fmap_app in Hinfo2. by apply app_inv_head in Hinfo2. }
  exists w2. split_and!.
  - unfold from_files, finally. fold locals. unfold bind at 1. rewrite Hloop, Hflush.
    unfold release_locks. destruct s2 as [? ? ? lks ?]. simpl in Hlocks2. subst lks.
    reflexivity.
  - done.
  - by exists rows.
  - done.
  - done.
  - intros d Hd.
    pose proof (distinct_new_covers sha1 datas (b_checksum <$> fileblobs w) d Hd) as Hcov.
    fold new in Hcov.
    assert (sha1 d ∈ b_checksum <$> fileblobs w2) as (b & Hb & Hin)%list_elem_of_fmap.
    { assert (b_checksum <$> fileblobs w2
              = (b_checksum <$> fileblobs w) ++ (sha1 <$> new)) as ->; [|exact Hcov].
      transitivity (fst <$> (blob_info <$> fileblobs w2));
        [by rewrite <- list_fmap_compose|].
      rewrite Hinfo2, fmap_app, <- !list_fmap_compose. done. }
    by exists b.
  - intros a c e rest Hdatas Hdistinct Hempty.
    assert (new = a :: c :: e :: rest) as Hnew.
    { unfold new. rewrite Hdatas, Hempty. clear -Hdistinct.
      rewrite !fmap_cons in Hdistinct.
      apply NoDup_cons in Hdistinct as [Ha Hdistinct].
      apply NoDup_cons in Hdistinct as [Hc Hdistinct].
      apply NoDup_cons in Hdistinct as [He Hdistinct].
      apply not_elem_of_cons in Ha as [Hac Ha]. apply not_elem_of_cons in Ha as [Hae Ha].
      apply not_elem_of_cons in Hc as [Hce Hc].
      cbn [distinct_new fmap list_fmap].
      rewrite (bool_decide_eq_false_2 (sha1 a ∈ [])) by apply not_elem_of_nil.
      rewrite (bool_decide_eq_true_2 (sha1 a ∈ [sha1 a])) by set_solver.
      rewrite (bool_decide_eq_false_2 (sha1 c ∈ [sha1 a])) by set_solver.
      rewrite (bool_decide_eq_false_2 (sha1 e ∈ [sha1 c; sha1 a])) by set_solver.
      rewrite (bool_decide_eq_true_2 (sha1 a ∈ [sha1 e; sha1 c; sha1 a])) by set_solver.
      do 3 f_equal. apply distinct_new_all; [done|].
      intros d Hd. assert (sha1 d ∈ sha1 <$> rest) by (by apply list_elem_of_fmap_2).
      set_solver. }
    split; [done|].
    apply (f_equal length) in Hlog1. rewrite length_app, length_reverse, !length_fmap in Hlog1.
    rewrite Hlog1, Hnew, Hdatas. simpl. lia.
Qed.

Lemma from_files_deduplicates_witness :
  ∃ w',
    from_files ex_sha1 ex_uuid4 None (plain_files ex_batch) ex_world = (Ok PyNone, w')
    ∧ length (storage_log w') = 4%nat
    ∧ length (fileblobs w') = 4%nat.
Proof.
  destruct (from_files_deduplicates ex_sha1 ex_uuid4 None ex_batch ex_world
              eq_refl ltac:(constructor))
    as (w' & Hrun & Hlog & (rows & Hrows & Hinfo) & _).
  exists w'. split; [exact Hrun|]. split.
  - apply (f_equal length) in Hlog. rewrite length_fmap in Hlog. rewrite Hlog. reflexivity.
  - apply (f_equal length) in Hinfo. rewrite length_fmap in Hinfo.
    rewrite Hrows, length_app, Hinfo. reflexivity.
Defined.

(** C8, the claim as stated fails: the call on six inputs gives back no list
    of blob references; it evaluates to [None]. *)
Lemma from_files_returns_no_list :
  length (plain_files ex_batch) = 6%nat
  ∧ (from_files ex_sha1 ex_uuid4 None (plain_files ex_batch) ex_world).1 = Ok PyNone
  ∧ ¬ ∃ l, (from_files ex_sha1 ex_uuid4 None (plain_files ex_batch) ex_world).1
           = Ok (PyBlobs l).
Proof.
  assert ((from_files ex_sha1 ex_uuid4 None (plain_files ex_batch) ex_world).1 = Ok PyNone)
    as Hnone by (vm_compute; reflexivity).
  split_and!; [reflexivity|exact Hnone|].
  intros [l Hl]. rewrite Hnone in Hl. discriminate.
Qed.

(** ** More on the chunked reader *)

Section ReaderMore.

Variable log : list (Path * bytes).

(** [read(n)] for [n >= 0] in terms of what is left to read. *)
Lemma read_n_remaining r n :
  indexed log (_indexes r) → streaming_inv log r → closed r = false → 0 ≤ n →
  ∃ r', read log n r = (Ok (take (Z.to_nat n) (remaining log r)), r')
        ∧ streaming_inv log r' ∧ _indexes r' = _indexes r ∧ closed r' = false
        ∧ remaining log r' = drop (Z.to_nat n) (remaining log r).
Proof.
  intros Hidx Hinv Hc Hn.
  destruct (read_n_loop_spec log (read_fuel log r) r n []) as (r' & Hrun & ? & ? & Hc' & ?);
    auto.
  exists r'. unfold read. unfold bind at 1, get at 1. rewrite Hc.
  destruct Hinv as [-> _]. destruct (Z.ltb_spec n 0); [lia|].
  rewrite Hrun. split_and!; auto. congruence.
Qed.

(** A stream that is inside its blob stays inside it under [read]. *)
Lemma read_n_loop_bounds fuel : ∀ r n acc res r',
  read_n_loop log fuel n acc r = (res, r') →
  (∀ f, _curfile r = Some f → (f_pos f ≤ length (f_data f))%nat) →
  ∀ f, _curfile r' = Some f → (f_pos f ≤ length (f_data f))%nat.
Proof.
  induction fuel as [|fuel IH]; intros r n acc res r' Hrun Hb.
  { unfold read_n_loop, raise in Hrun. injection Hrun as _ <-. done. }
  cbn [read_n_loop] in Hrun. unfold bind at 1, get at 1 in Hrun.
  destruct (_curfile r) as [f|] eqn:Hf;
    [|unfold ret in Hrun; injection Hrun as _ <-; intros g Hg; congruence].
  assert (f_pos f ≤ length (f_data f))%nat as Hbf by (by apply Hb).
  case_bool_decide as Hn.
  2:{ unfold ret in Hrun. injection Hrun as _ <-. intros g Hg. congruence. }
  unfold bind at 1, curfile_read in Hrun. rewrite Hf in Hrun.
  pose proof (f_read_take (Z.min n 32768) f ltac:(lia)) as Htake.
  pose proof (f_read_pos (Z.min n 32768) f) as Hpos.
  pose proof (f_read_data (Z.min n 32768) f) as Hdata.
  destruct (f_read (Z.min n 32768) f) as [out f'] eqn:Hrd. simpl in Htake, Hpos, Hdata.
  assert (f_pos f' ≤ length (f_data f'))%nat as Hb'.
  { rewrite Hpos, Hdata, Htake, length_take, f_rest_length. lia. }
  case_bool_decide as Hout.
  - unfold bind at 1, _nextidx in Hrun. cbn [prefetched set_curfile _idxiter] in Hrun.
    destruct (prefetched r).
    { injection Hrun as _ <-. simpl. intros ? [= <-]. done. }
    destruct (_idxiter r) as [|idx rest].
    + apply (IH _ _ _ _ _ Hrun). simpl. done.
    + cbn [idx_blob] in Hrun. unfold getfile in Hrun.
      destruct (b_path (idx_blob idx)) as [path|].
      2:{ injection Hrun as _ <-. simpl. intros ? [= <-]. done. }
      unfold storage_open in Hrun. destruct (storage_lookup log path) as [b|].
      2:{ injection Hrun as _ <-. simpl. intros ? [= <-]. done. }
      apply (IH _ _ _ _ _ Hrun). simpl. intros ? [= <-]. simpl. lia.
  - apply (IH _ _ _ _ _ Hrun). simpl. intros ? [= <-]. done.
Qed.

(** The logical offset of a reader whose stream is inside its blob is at
    most the total size. *)
Lemma position_le_size r :
  indexed log (_indexes r) → streaming_inv log r →
  (∀ f, _curfile r = Some f → (f_pos f ≤ length (f_data f))%nat) →
  0 ≤ position r ≤ len (file_bytes log (_indexes r)).
Proof.
  intros Hidx (_ & [[Hf Hci]|(pre & idx & post & f & Hdec & Hci & Hit & Hf & Hdata & _)]) Hb.
  - unfold position. rewrite Hf, (size_file_bytes log) by done. unfold len. lia.
  - unfold position. rewrite Hf, Hci. specialize (Hb f Hf).
    rewrite Hdec in Hidx |- *. rewrite (indexed_offset log _ _ _ Hidx).
    rewrite file_bytes_app, file_bytes_cons. unfold len, f_tell.
    rewrite !length_app, <- Hdata. lia.
Qed.

(** Conversely, a logical offset inside the file means the stream is inside
    its blob. *)
Lemma position_bounds r :
  indexed log (_indexes r) → streaming_inv log r →
  position r ≤ len (file_bytes log (_indexes r)) →
  ∀ f, _curfile r = Some f → (f_pos f ≤ length (f_data f))%nat.
Proof.
  intros Hidx (_ & [[Hf Hci]|(pre & idx & post & f & Hdec & Hci & Hit & Hf & Hdata & Hpos)]) Hp g Hg.
  - congruence.
  - rewrite Hf in Hg. injection Hg as <-. destruct Hpos as [Hpos| ->]; [done|].
    unfold position in Hp. rewrite Hf, Hci in Hp.
    rewrite Hdec in Hidx, Hp. rewrite (indexed_offset log _ _ _ Hidx) in Hp.
    rewrite file_bytes_app, file_bytes_cons in Hp.
    change (file_bytes log []) with (@nil Byte.byte) in Hp. rewrite app_nil_r in Hp.
    unfold len, f_tell in Hp. rewrite length_app, <- Hdata in Hp. lia.
Qed.

(** [read(n)] for [n < 0] in terms of what is left to read. *)
Lemma read_all_remaining r n :
  indexed log (_indexes r) → streaming_inv log r → closed r = false → n < 0 →
  read log n r = (Ok (remaining log r), drained r).
Proof.
  intros Hidx Hinv Hc Hn. unfold read. unfold bind at 1, get at 1. rewrite Hc.
  pose proof Hinv as (-> & _). destruct (Z.ltb_spec n 0); [|lia].
  rewrite read_all_loop_spec; auto using inv_idxiter_ok. by destruct Hinv.
Qed.

(** How far [read(n)] moves a reader that stands inside the file. *)
Lemma read_n_position r n r' out :
  indexed log (_indexes r) → streaming_inv log r → closed r = false → 0 ≤ n →
  position r ≤ size r →
  read log n r = (Ok out, r') →
  position r' = position r + len out.
Proof.
  intros Hidx Hinv Hc Hn Hp Hrun.
  rewrite (size_file_bytes log) in Hp by done.
  pose proof (position_bounds r Hidx Hinv Hp) as Hb.
  pose proof (position_le_size r Hidx Hinv Hb) as Hpr.
  destruct (read_n_remaining r n Hidx Hinv Hc Hn) as (r1 & Hrun1 & Hinv1 & Hi1 & Hc1 & Hrem1).
  rewrite Hrun in Hrun1. injection Hrun1 as -> <-.
  assert (∀ f, _curfile r' = Some f → (f_pos f ≤ length (f_data f))%nat) as Hb'.
  { unfold read in Hrun. unfold bind at 1, get at 1 in Hrun. rewrite Hc in Hrun.
    destruct Hinv as [Hpf _]. rewrite Hpf in Hrun.
    destruct (Z.ltb_spec n 0); [lia|].
    by apply (read_n_loop_bounds _ _ _ _ _ _ Hrun). }
  rewrite <- Hi1 in Hidx.
  pose proof (position_le_size r' Hidx Hinv1 Hb') as Hpr'.
  rewrite (remaining_position log r') in Hrem1 by done.
  rewrite Hi1 in *.
  rewrite (remaining_position log r) in Hrem1 |- * by done.
  apply (f_equal length) in Hrem1. rewrite !length_drop in Hrem1.
  unfold len in *. rewrite length_take, length_drop. lia.
Qed.

(** A [read(n)] that asks for more than is left leaves no stream open. *)
Lemma read_n_loop_exhausts fuel : ∀ r n acc res r',
  prefetched r = false →
  (_curfile r ≠ None → Forall (λ idx, blob_ok log (idx_blob idx)) (_idxiter r)) →
  (read_fuel log r ≤ fuel)%nat →
  len (remaining log r) < n →
  read_n_loop log fuel n acc r = (res, r') →
  _curfile r' = None ∧ prefetched r' = false ∧ closed r' = closed r
  ∧ _indexes r' = _indexes r.
Proof.
  induction fuel as [|fuel IH]; intros r n acc res r' Hp Hok Hfuel Hn Hrun;
    rewrite read_fuel_eq in Hfuel; [lia|].
  cbn [read_n_loop] in Hrun. unfold bind at 1, get at 1 in Hrun.
  unfold remaining in Hn.
  destruct (_curfile r) as [f|] eqn:Hf.
  2:{ unfold ret in Hrun. injection Hrun as _ <-. done. }
  specialize (Hok ltac:(done)). simpl in Hfuel.
  rewrite bool_decide_eq_true_2 in Hrun by (unfold len in Hn; lia).
  unfold bind at 1, curfile_read in Hrun. rewrite Hf in Hrun.
  pose proof (f_read_rest (Z.min n 32768) f) as Hrest.
  pose proof (f_read_take (Z.min n 32768) f ltac:(unfold len in Hn; lia)) as Htake.
  destruct (f_read (Z.min n 32768) f) as [out f'] eqn:Hrd. simpl in Hrest, Htake.
  case_bool_decide as Hout.
  - assert (f_rest f = []) as Hnil.
    { apply (f_read_nil (Z.min n 32768)); [unfold len in Hn; lia|by rewrite Hrd]. }
    rewrite Hnil in *. simpl in Hn, Hfuel. unfold bind at 1 in Hrun.
    destruct (_idxiter r) as [|idx post] eqn:Hit.
    + rewrite _nextidx_nil in Hrun by done.
      destruct fuel as [|fuel']; [simpl in Hfuel; lia|].
      cbn [read_n_loop] in Hrun. unfold bind at 1, get at 1 in Hrun. simpl in Hrun.
      unfold ret in Hrun. by injection Hrun as _ <-.
    + apply Forall_cons in Hok as [Hidx Hok].
      rewrite (_nextidx_cons _ _ idx post) in Hrun by done.
      apply IH in Hrun as (? & ? & ? & ?); [done|done| | |].
      * simpl. done.
      * rewrite read_fuel_eq. simpl. rewrite f_rest_ContentFile.
        rewrite file_bytes_cons, length_app in Hfuel. simpl in Hfuel. lia.
      * unfold remaining. simpl. rewrite f_rest_ContentFile.
        by rewrite file_bytes_cons in Hn.
  - assert (length out ≠ 0)%nat as Hne by (by destruct out).
    assert (length out ≤ length (f_rest f))%nat as Hle by (rewrite Htake, length_take; lia).
    apply IH in Hrun as (? & ? & ? & ?); [done|done|done| |].
    + rewrite read_fuel_eq. simpl. rewrite Hrest, length_drop. lia.
    + unfold remaining. simpl. rewrite Hrest. unfold len in *.
      rewrite length_app, length_drop. rewrite length_app in Hn. lia.
Qed.

End ReaderMore.

(** X1. Successive reads return successive pieces of the file: [read(n1)]
    followed by [read(n2)] returns together what [read(n1 + n2)] would
    have returned, and [read(n1)] followed by a read to the end returns
    what a read to the end would have returned.  When the reader stands
    inside the file, [tell()] afterwards has advanced by the number of
    bytes returned. *)
Theorem sequential_reads_compose (log : list (Path * bytes))
    (indexes : list FileBlobIndex) (r : ChunkedFileBlobIndexWrapper) (n1 n2 : Z)
    (Hidx : indexed log indexes) (Hreach : reachable log indexes r)
    (Hopen : closed r = false) (Hn1 : 0 ≤ n1) (Hn2 : 0 ≤ n2) :
  ∃ out1 r1 out2 r2,
    read log n1 r = (Ok out1, r1) ∧ read log n2 r1 = (Ok out2, r2)
    ∧ (read log (n1 + n2) r).1 = Ok (out1 ++ out2)
    ∧ (∃ rest, (read log (-1) r1).1 = Ok rest ∧ (read log (-1) r).1 = Ok (out1 ++ rest))
    ∧ (position r ≤ size r → tell r1 = (Ok (position r + len out1), r1)).
Proof.
  destruct (reachable_inv log indexes r Hidx Hreach) as (Hi & Hne & Hinv). subst indexes.
  destruct (read_n_remaining log r n1 Hidx Hinv Hopen Hn1)
    as (r1 & Hrun1 & Hinv1 & Hi1 & Hc1 & Hrem1).
  pose proof Hidx as Hidx1. rewrite <- Hi1 in Hidx1.
  destruct (read_n_remaining log r1 n2 Hidx1 Hinv1 Hc1 Hn2)
    as (r2 & Hrun2 & _ & _ & _ & _).
  destruct (read_n_remaining log r (n1 + n2) Hidx Hinv Hopen ltac:(lia))
    as (r3 & Hrun3 & _ & _ & _ & _).
  eexists _, r1, _, r2. split_and!; [exact Hrun1|exact Hrun2| | |].
  - rewrite Hrun3, Hrem1. simpl. rewrite take_take_drop. do 2 f_equal. lia.
  - exists (remaining log r1).
    rewrite !(read_all_remaining log) by (done || lia). simpl.
    by rewrite Hrem1, take_drop.
  - intros Hp. rewrite (tell_position log) by done. do 2 f_equal.
    by apply (read_n_position log r n1).
Qed.

Lemma sequential_reads_compose_witness :
  ∃ r1 r2,
    read ex_log 1 ex_reader = (Ok [Byte.x68], r1)
    ∧ read ex_log 3 r1 = (Ok [Byte.x65; Byte.x6c; Byte.x6c], r2)
    ∧ (read ex_log 4 ex_reader).1 = Ok [Byte.x68; Byte.x65; Byte.x6c; Byte.x6c]
    ∧ tell r1 = (Ok 1, r1).
Proof.
  destruct (sequential_reads_compose ex_log ex_indexes ex_reader 1 3 ex_indexed
              (reach_init _ _ _ ex_reader_init) eq_refl ltac:(lia) ltac:(lia))
    as (out1 & r1 & out2 & r2 & H1 & H2 & H3 & _ & H5).
  assert (out1 = [Byte.x68]) as -> by (vm_compute in H1; congruence).
  assert (out2 = [Byte.x65; Byte.x6c; Byte.x6c]) as ->.
  { assert (r1 = (read ex_log 1 ex_reader).2) as -> by (by rewrite H1).
    vm_compute in H2. congruence. }
  exists r1, r2. split_and!; [exact H1|exact H2|exact H3|].
  apply H5. vm_compute. discriminate.
Defined.

(** X2. A [read(n)] that asks for more than is left between [tell()] and
    the end exhausts the reader: [tell()] is then the total size and every
    further read returns nothing.  In particular, after a [seek] to or past
    the end a read of at least one byte moves [tell()] to the total size,
    whatever position was sought. *)
Theorem read_beyond_end_exhausts (log : list (Path * bytes))
    (indexes : list FileBlobIndex) (r : ChunkedFileBlobIndexWrapper) (n : Z)
    (Hidx : indexed log indexes) (Hreach : reachable log indexes r)
    (Hopen : closed r = false) (Hn : 0 < n) :
  (size r - position r < n →
     (tell (read log n r).2).1 = Ok (size r)
     ∧ ∀ m, (read log m (read log n r).2).1 = Ok [])
  ∧ (∀ pos, size r ≤ pos →
       (tell (seek log pos r).2).1 = Ok pos
       ∧ (read log n (seek log pos r).2).1 = Ok []
       ∧ (tell (read log n (seek log pos r).2).2).1 = Ok (size r)).
Proof.
  assert (∀ r, reachable log indexes r → closed r = false → size r - position r < n →
            _curfile (read log n r).2 = None ∧ prefetched (read log n r).2 = false
            ∧ closed (read log n r).2 = false ∧ _indexes (read log n r).2 = _indexes r)
    as Hexhaust.
  { clear r Hreach Hopen. intros r Hreach Hopen Hlt.
    destruct (reachable_inv log indexes r Hidx Hreach) as (Hi & Hne & Hinv). subst indexes.
    pose proof Hinv as (Hp & _).
    destruct (read log n r) as [res r'] eqn:Hrun.
    unfold read in Hrun. unfold bind at 1, get at 1 in Hrun. rewrite Hopen, Hp in Hrun.
    destruct (Z.ltb_spec n 0); [lia|].
    apply read_n_loop_exhausts in Hrun as (? & ? & ? & ?);
      [simpl; split_and!; congruence|done| |done|].
    - intros Hcur. by apply inv_idxiter_ok.
    - rewrite (remaining_position log) by done.
      rewrite (size_file_bytes log) in Hlt by done.
      unfold len in *. rewrite length_drop. lia. }
  assert (∀ r', _curfile r' = None → prefetched r' = false → closed r' = false →
            (tell r').1 = Ok (size r') ∧ ∀ m, (read log m r').1 = Ok []) as Hnone.
  { intros r' Hf Hp Hc. split.
    - unfold tell, bind, get, ret. by rewrite Hc, Hf, Hp.
    - intros m. unfold read. unfold bind at 1, get at 1. rewrite Hc, Hp.
      unfold read_fuel. destruct (m <? 0).
      + cbn [read_all_loop]. unfold bind, get, ret. by rewrite Hf.
      + cbn [read_n_loop]. unfold bind, get, ret. by rewrite Hf. }
  split.
  - intros Hlt. destruct (Hexhaust r Hreach Hopen Hlt) as (Hf & Hp & Hc & Hi).
    destruct (Hnone _ Hf Hp Hc) as [Htell Hread]. split; [|done].
    rewrite Htell. unfold size. by rewrite Hi.
  - intros pos Hpos.
    destruct (reachable_inv log indexes r Hidx Hreach) as (Hi & Hne & Hinv). subst indexes.
    assert (0 ≤ size r) as Hsz.
    { rewrite (size_file_bytes log) by done. unfold len. lia. }
    destruct (seek_spec log r pos) as (pre & idx & post & Hdec & Hle & Hpost & Hseek);
      auto; [lia|].
    pose proof (reach_seek log _ r pos Hreach) as Hreach'.
    pose proof (seek_target_inv log _ pre idx post pos Hidx Hdec Hle Hpost) as Hinv'.
    assert (position (seek log pos r).2 = pos) as Hposition.
    { rewrite Hseek. unfold position, f_tell. simpl. lia. }
    assert (closed (seek log pos r).2 = false) as Hc' by (by rewrite Hseek).
    assert (size (seek log pos r).2 = size r) as Hsize by (by rewrite Hseek).
    split_and!.
    + rewrite (tell_position log); [by rewrite Hposition|by rewrite Hseek|done].
    + rewrite (read_spec log (_indexes r)) by done. rewrite Hposition.
      rewrite (size_file_bytes log) in Hpos by done.
      rewrite drop_ge by (unfold len in Hpos; lia).
      destruct (n <? 0); [done|]. by rewrite take_nil.
    + destruct (Hexhaust _ Hreach' Hc') as (Hf & Hp & Hc & Hi'); [lia|].
      destruct (Hnone _ Hf Hp Hc) as [Htell _].
      rewrite Htell. unfold size. rewrite Hi'. by rewrite Hseek.
Qed.

Lemma read_beyond_end_exhausts_witness :
  (tell (seek ex_log 9 ex_reader).2).1 = Ok 9
  ∧ (read ex_log 1 (seek ex_log 9 ex_reader).2).1 = Ok []
  ∧ (tell (read ex_log 1 (seek ex_log 9 ex_reader).2).2).1 = Ok 5.
Proof.
  destruct (read_beyond_end_exhausts ex_log ex_indexes ex_reader 1 ex_indexed
              (reach_init _ _ _ ex_reader_init) eq_refl ltac:(lia)) as [_ H].
  exact (H 9 ltac:(vm_compute; discriminate)).
Defined.

(** X3. Random access is the same in both modes: over the same index,
    [seek(pos)] with [pos >= 0] followed by [read(n)] returns the same bytes
    from a prefetch-mode reader as from a streaming-mode reader, namely the
    bytes of the file from [pos] on (all of them for [n < 0], at most [n]
    otherwise), and [tell()] after the seek is [pos] in both; a negative
    [pos] is refused by both with the same error and moves neither. *)
Theorem random_access_modes_agree (log : list (Path * bytes))
    (indexes : list FileBlobIndex) (rs rp : ChunkedFileBlobIndexWrapper) (pos n : Z)
    (Hidx : indexed log indexes)
    (Hs : ChunkedFileBlobIndexWrapper_init log indexes false = Ok rs)
    (Hp : ChunkedFileBlobIndexWrapper_init log indexes true = Ok rp) :
  (0 ≤ pos →
     let expected :=
       if n <? 0 then drop (Z.to_nat pos) (file_bytes log indexes)
       else take (Z.to_nat n) (drop (Z.to_nat pos) (file_bytes log indexes)) in
     (read log n (seek log pos rs).2).1 = Ok expected
     ∧ (read log n (seek log pos rp).2).1 = Ok expected
     ∧ (tell (seek log pos rs).2).1 = Ok pos
     ∧ (tell (seek log pos rp).2).1 = Ok pos)
  ∧ (pos < 0 →
     seek log pos rs = (Raise (IOError "Invalid argument"), rs)
     ∧ seek log pos rp = (Raise (IOError "Invalid argument"), rp)).
Proof.
  rewrite (init_prefetch log) in Hp by done. injection Hp as <-.
  pose proof (reach_init log indexes rs Hs) as Hreach.
  destruct (reachable_inv log indexes rs Hidx Hreach) as (Hi & Hne & Hinv).
  destruct (init_streaming log indexes Hidx Hne) as (pre0 & idx0 & post0 & _ & _ & _ & Heq).
  rewrite Heq in Hs. injection Hs as Hrs.
  assert (closed rs = false) as Hopen by (by rewrite <- Hrs).
  split.
  - intros Hpos expected. subst indexes.
    destruct (seek_spec log rs pos) as (pre & idx & post & Hdec & Hle & Hpost & Hseek); auto.
    pose proof (reach_seek log _ rs pos Hreach) as Hreach'.
    pose proof (seek_target_inv log _ pre idx post pos Hidx Hdec Hle Hpost) as Hinv'.
    assert (position (seek log pos rs).2 = pos) as Hposition.
    { rewrite Hseek. unfold position, f_tell. simpl. lia. }
    assert (closed (seek log pos rs).2 = false) as Hc' by (by rewrite Hseek).
    assert ((pos <? 0) = false) as Hlt by lia.
    split_and!.
    + rewrite (read_spec log (_indexes rs)) by done. by rewrite Hposition.
    + unfold seek, bind, get, curfile_seek, f_seek. simpl. rewrite Hlt. simpl.
      unfold read, bind, get, curfile_read, f_read, f_rest. simpl. done.
    + rewrite (tell_position log); [by rewrite Hposition|by rewrite Hseek|done].
    + unfold seek, bind, get, curfile_seek, f_seek. simpl. rewrite Hlt. simpl.
      unfold tell, bind, get, ret, f_tell. simpl. f_equal. lia.
  - intros Hneg. assert ((pos <? 0) = true) as Hlt by lia. split.
    + unfold seek, bind, get. rewrite Hopen. destruct Hinv as (-> & _). by rewrite Hlt.
    + unfold seek, bind, get, curfile_seek, f_seek. simpl. by rewrite Hlt.
Qed.

Lemma random_access_modes_agree_witness :
  ∃ rp, ChunkedFileBlobIndexWrapper_init ex_log ex_indexes true = Ok rp
        ∧ (read ex_log 2 (seek ex_log 1 ex_reader).2).1 = Ok [Byte.x65; Byte.x6c]
        ∧ (read ex_log 2 (seek ex_log 1 rp).2).1 = Ok [Byte.x65; Byte.x6c].
Proof.
  eexists. split; [reflexivity|].
  destruct (random_access_modes_agree ex_log ex_indexes ex_reader _ 1 2 ex_indexed
              ex_reader_init eq_refl) as [H _].
  destruct (H ltac:(lia)) as (H1 & H2 & _). split; [exact H1|exact H2].
Defined.

(** X4. [detach_tempfile] is refused in streaming mode, with a [TypeError]
    and no change to the reader.  In prefetch mode it hands out the temp
    file rewound to the start, wherever the reader stood, and leaves the
    reader closed and without a file: every later [read], [seek] and
    [tell] raises the closed-file error and a second [detach_tempfile]
    fails.  Detached from a freshly built prefetch-mode reader after any
    seek and read, the temp file is the whole file. *)
Theorem detach_tempfile_hands_over (log : list (Path * bytes))
    (r : ChunkedFileBlobIndexWrapper) :
  (prefetched r = false →
     detach_tempfile r
     = (Raise (TypeError "Can only detech tempfiles in prefetch mode"), r))
  ∧ (prefetched r = true → ∀ f, _curfile r = Some f →
     ∃ r', detach_tempfile r = (Ok (mkFileObj (f_data f) 0), r')
       ∧ closed r' = true ∧ _curfile r' = None
       ∧ (∀ cs, Forall (λ e, e = Some (ValueError "I/O operation on closed file"))
                  (run_calls log cs r'))
       ∧ (detach_tempfile r').1 = Raise AttributeError)
  ∧ (∀ indexes pos n, indexed log indexes →
       ChunkedFileBlobIndexWrapper_init log indexes true = Ok r → 0 ≤ pos →
       (detach_tempfile (read log n (seek log pos r).2).2).1
       = Ok (ContentFile (file_bytes log indexes))).
Proof.
  split_and!.
  - intros Hp. unfold detach_tempfile, bind, get. by rewrite Hp.
  - intros Hp f Hf. eexists. split_and!.
    + unfold detach_tempfile, bind, get, modify, close, lift, f_seek. rewrite Hp, Hf.
      simpl. reflexivity.
    + done.
    + done.
    + intros cs.
      match goal with |- Forall _ (run_calls _ _ ?s) =>
        assert (closed s = true) as Hc by done; revert Hc; generalize s end.
      induction cs as [|c cs IH]; intros r' Hc; simpl; [constructor|].
      rewrite closed_call_fails by done. constructor; auto.
    + unfold detach_tempfile, bind, get, modify, close, raise. simpl. by rewrite Hp.
  - intros indexes pos n Hidx Hinit Hpos.
    rewrite (init_prefetch log) in Hinit by done. injection Hinit as <-.
    assert ((pos <? 0) = false) as Hlt by lia.
    unfold seek, bind, get, curfile_seek, f_seek. simpl. rewrite Hlt. simpl.
    unfold read, bind, get, curfile_read, f_read. simpl.
    unfold detach_tempfile, bind, get, modify, close, lift, f_seek. simpl. done.
Qed.

Lemma detach_tempfile_hands_over_witness :
  ∃ rp, ChunkedFileBlobIndexWrapper_init ex_log ex_indexes true = Ok rp
        ∧ (detach_tempfile (read ex_log 2 (seek ex_log 1 rp).2).2).1 = Ok (ContentFile ex_hello)
        ∧ detach_tempfile ex_reader
          = (Raise (TypeError "Can only detech tempfiles in prefetch mode"), ex_reader).
Proof.
  eexists. split; [reflexivity|].
  match goal with |- (detach_tempfile (read _ _ (seek _ _ ?rp).2).2).1 = _ ∧ _ =>
    destruct (detach_tempfile_hands_over ex_log rp) as (_ & _ & H) end.
  split.
  - exact (H ex_indexes 1 2 ex_indexed eq_refl ltac:(lia)).
  - destruct (detach_tempfile_hands_over ex_log ex_reader) as (H1 & _). exact (H1 eq_refl).
Defined.

(** X5. A streaming-mode reader can be reopened: [open()] after [close()],
    from whatever state, succeeds and puts the reader at position 0, where
    a read to the end returns the whole file.  A prefetch-mode reader
    cannot: [close()] drops its temp file, so [open()] fails on the missing
    file, having already cleared the [closed] flag, and later reads fail
    the same way. *)
Theorem reopen_after_close (log : list (Path * bytes))
    (indexes : list FileBlobIndex) (r : ChunkedFileBlobIndexWrapper)
    (Hidx : indexed log indexes) :
  (reachable log indexes r →
     (open log (close r).2).1 = Ok tt
     ∧ closed (open log (close r).2).2 = false
     ∧ (tell (open log (close r).2).2).1 = Ok 0
     ∧ (read log (-1) (open log (close r).2).2).1 = Ok (file_bytes log indexes))
  ∧ (prefetched r = true →
     (open log (close r).2).1 = Raise AttributeError
     ∧ closed (open log (close r).2).2 = false
     ∧ ∀ n, (read log n (open log (close r).2).2).1 = Raise AttributeError).
Proof.
  split.
  - intros Hreach.
    pose proof (reach_open log _ _ (reach_close log _ _ Hreach)) as Hreach'.
    destruct (reachable_inv log indexes r Hidx Hreach) as (Hi & Hne & Hp & _).
    subst indexes.
    set (rc := set_closed false (close r).2).
    assert (open log (close r).2 = seek log 0 rc) as Hopen by done.
    destruct (seek_spec log rc 0) as (pre & idx & post & Hdec & Hle & Hpost & Hseek);
      auto; [split; [done|by left]|lia|].
    pose proof (seek_target_inv log _ pre idx post 0 Hidx Hdec Hle Hpost) as Hinv'.
    assert (idx_offset idx = 0) as Hoff.
    { pose proof Hidx as Hidx'. change (_indexes rc) with (_indexes r) in Hdec.
      rewrite Hdec in Hidx'. apply (indexed_offset log) in Hidx'. unfold len in Hidx'. lia. }
    rewrite Hopen in *. rewrite Hseek in *. cbn [fst snd] in *.
    change (_indexes rc) with (_indexes r) in *.
    match goal with |- context [tell ?x] => set (st := x) in * end.
    assert (position st = 0) as Hposition.
    { unfold position, f_tell. simpl. lia. }
    split_and!; [done|done| |].
    + rewrite (tell_position log) by done. by rewrite Hposition.
    + rewrite (read_spec log (_indexes r)) by done. by rewrite Hposition.
  - intros Hp. destruct r as [ixs cf ci it pf cl]. simpl in Hp. subst pf.
    split_and!; [reflexivity|reflexivity|]. intros n. reflexivity.
Qed.

Lemma reopen_after_close_witness :
  (read ex_log (-1) (open ex_log (close (read ex_log 3 ex_reader).2).2).2).1 = Ok ex_hello.
Proof.
  destruct (reopen_after_close ex_log ex_indexes (read ex_log 3 ex_reader).2 ex_indexed)
    as [H _].
  destruct (H (reach_read _ _ _ 3 (reach_init _ _ _ ex_reader_init))) as (_ & _ & _ & H4).
  exact H4.
Defined.

(** ** More on the blob store *)

Lemma filter_checksum_nil (l : list FileBlob) (c : string) :
  filter (λ b, b_checksum b = c) l = [] → c ∉ b_checksum <$> l.
Proof.
  intros Hnil (b & -> & Hb)%list_elem_of_fmap.
  by apply (filter_nil_not_elem_of _ _ b Hnil).
Qed.

Lemma storage_lookup_elem_of (log : list (Path * bytes)) p d :
  storage_lookup log p = Some d → (p, d) ∈ log.
Proof.
  unfold storage_lookup. destruct (find _ log) as [[p' d']|] eqn:Hfind; [|done].
  simpl. intros Heq. injection Heq as <-.
  apply find_some in Hfind as [Hin Hp]. apply bool_decide_eq_true in Hp.
  simpl in Hp. subst p'. by apply list_elem_of_In.
Qed.

Lemma storage_lookup_cons_ne (log : list (Path * bytes)) p q d :
  q ≠ p → storage_lookup ((q, d) :: log) p = storage_lookup log p.
Proof.
  intros Hne. unfold storage_lookup. simpl. by rewrite bool_decide_eq_false_2.
Qed.

Lemma getfile_elem_of (log : list (Path * bytes)) b data :
  getfile log b = Ok (ContentFile data) → ∃ p, b_path b = Some p ∧ (p, data) ∈ log.
Proof.
  unfold getfile, storage_open. destruct (b_path b) as [p|]; [|done].
  destruct (storage_lookup log p) as [d|] eqn:Hl; [|done].
  intros [= <-]. exists p. split; [done|]. by apply storage_lookup_elem_of.
Qed.

Section StoreMore.

Variable sha1 : bytes → string.
Variable uuid4 : nat → N.

(** [from_file] by the rows that have the checksum of the input. *)
Lemma from_file_cases w data :
  lock_key (sha1 data) ∉ locks_held w →
  from_file sha1 uuid4 (ContentFile data) w
  = match filter (λ b, b_checksum b = sha1 data) (fileblobs w) with
    | [] => (Ok (new_blob sha1 uuid4 w data), world_after_upload sha1 uuid4 w data)
    | [b] => (Ok b, w)
    | _ => (Raise MultipleObjectsReturned, w)
    end.
Proof.
  intros Hlock.
  destruct (filter _ (fileblobs w)) as [|b [|b' l]] eqn:Hfilter.
  - apply from_file_miss; [done|]. by apply filter_checksum_nil.
  - unfold from_file. rewrite _get_size_and_checksum_spec.
    rewrite f_rest_ContentFile. unfold bind at 1, lift at 1.
    unfold with_locked_blob, _locked_blob_enter.
    unfold bind at 1. unfold bind at 1, lock_acquire.
    rewrite bool_decide_eq_false_2 by done.
    unfold FileBlob_objects_get. simpl. rewrite Hfilter.
    unfold finally, ret, _locked_blob_exit, lock_release, modify. simpl.
    rewrite lock_released by done. by destruct w.
  - unfold from_file. rewrite _get_size_and_checksum_spec.
    rewrite f_rest_ContentFile. unfold bind at 1, lift at 1.
    unfold with_locked_blob, _locked_blob_enter.
    unfold bind at 1. unfold bind at 1, lock_acquire.
    rewrite bool_decide_eq_false_2 by done.
    unfold FileBlob_objects_get. simpl. rewrite Hfilter.
    unfold bind, lock_release, modify, raise. simpl.
    rewrite lock_released by done. by destruct w.
Qed.

End StoreMore.

(** X6. [_get_size_and_checksum] returns the number of bytes between the
    cursor and the end of the stream and the SHA-1 of exactly those bytes,
    however many 64 KiB reads that takes, and leaves the cursor at the end:
    a second call on the same stream returns size 0 and the digest of the
    empty string. *)
Theorem get_size_and_checksum_of_rest (sha1 : bytes → string) (f : FileObj) :
  (_get_size_and_checksum sha1 f).1 = Ok (len (f_rest f), sha1 (f_rest f))
  ∧ f_data (_get_size_and_checksum sha1 f).2 = f_data f
  ∧ f_rest (_get_size_and_checksum sha1 f).2 = []
  ∧ (_get_size_and_checksum sha1 (_get_size_and_checksum sha1 f).2).1 = Ok (0, sha1 []).
Proof.
  rewrite _get_size_and_checksum_spec. simpl.
  assert (f_rest (mkFileObj (f_data f) (f_pos f + length (f_rest f))) = []) as Hrest.
  { unfold f_rest at 1. simpl. apply drop_ge. rewrite f_rest_length. lia. }
  split_and!; [done|done|done|].
  rewrite _get_size_and_checksum_spec, Hrest. done.
Qed.

(** X7. [from_file] never keeps the upload lock and never half-fails: when
    the lock of the input's checksum is held by someone else the call fails
    and the world is as before; when it is free the set of held locks is
    afterwards what it was, a failure can only be the duplicate-row error
    of the lookup, with the world as before, and a success returns a row of
    the table that has the input's checksum, the rows that were there
    before being kept as they were. *)
Theorem from_file_releases_lock (sha1 : bytes → string) (uuid4 : nat → N)
    (w : World) (data : bytes) :
  (lock_key (sha1 data) ∈ locks_held w →
     ∃ e, from_file sha1 uuid4 (ContentFile data) w = (Raise e, w))
  ∧ (lock_key (sha1 data) ∉ locks_held w →
     locks_held (from_file sha1 uuid4 (ContentFile data) w).2 = locks_held w
     ∧ (∀ e, (from_file sha1 uuid4 (ContentFile data) w).1 = Raise e →
          e = MultipleObjectsReturned
          ∧ (from_file sha1 uuid4 (ContentFile data) w).2 = w
          ∧ ¬ NoDup (b_checksum <$> fileblobs w))
     ∧ (∀ blob, (from_file sha1 uuid4 (ContentFile data) w).1 = Ok blob →
          b_checksum blob = sha1 data
          ∧ blob ∈ fileblobs (from_file sha1 uuid4 (ContentFile data) w).2
          ∧ fileblobs w `prefix_of` fileblobs (from_file sha1 uuid4 (ContentFile data) w).2)).
Proof.
  split.
  - intros Hheld. exists UnableToAcquireLock.
    unfold from_file. rewrite _get_size_and_checksum_spec.
    rewrite f_rest_ContentFile. unfold bind at 1, lift at 1.
    unfold with_locked_blob, _locked_blob_enter.
    unfold bind at 1. unfold bind at 1, lock_acquire.
    by rewrite bool_decide_eq_true_2.
  - intros Hfree. rewrite from_file_cases by done.
    destruct (filter _ (fileblobs w)) as [|b [|b' l]] eqn:Hfilter; simpl.
    + split_and!; [done|done|]. intros blob [= <-]. split_and!; [done|set_solver|].
      by apply prefix_app_r.
    + split_and!; [done|done|]. intros blob [= <-].
      assert (b ∈ filter (λ b, b_checksum b = sha1 data) (fileblobs w)) as Hb
        by (rewrite Hfilter; set_solver).
      apply list_elem_of_filter in Hb as [Hsum Hb]. done.
    + split_and!; [done| |done]. intros e [= <-]. split_and!; [done|done|].
      intros Hnd.
      assert (NoDup (b_checksum <$> filter (λ b, b_checksum b = sha1 data) (fileblobs w)))
        as Hnd' by (by apply NoDup_fmap_filter).
      assert (Forall (λ b, b_checksum b = sha1 data)
                (filter (λ b, b_checksum b = sha1 data) (fileblobs w))) as Hall.
      { apply Forall_forall. by intros x [? _]%list_elem_of_filter. }
      rewrite Hfilter in Hnd', Hall. rewrite !fmap_cons in Hnd'.
      apply Forall_cons in Hall as [H1 Hall]. apply Forall_cons in Hall as [H2 _].
      apply NoDup_cons in Hnd' as [Hnotin _]. apply Hnotin. rewrite H1, H2. set_solver.
Qed.

Lemma from_file_releases_lock_witness :
  (∃ e, from_file ex_sha1 ex_uuid4 (ContentFile ex_hello)
          (set_locks_held {[lock_key (ex_sha1 ex_hello)]} ex_world)
        = (Raise e, set_locks_held {[lock_key (ex_sha1 ex_hello)]} ex_world))
  ∧ locks_held (from_file ex_sha1 ex_uuid4 (ContentFile ex_hello) ex_world).2 = ∅.
Proof.
  split.
  - destruct (from_file_releases_lock ex_sha1 ex_uuid4
                (set_locks_held {[lock_key (ex_sha1 ex_hello)]} ex_world) ex_hello)
      as [H _].
    apply H. simpl. set_solver.
  - destruct (from_file_releases_lock ex_sha1 ex_uuid4 ex_world ex_hello) as [_ H].
    destruct (H ltac:(apply not_elem_of_empty)) as (H1 & _). exact H1.
Defined.

Section SoundStore.

Variable sha1 : bytes → string.
Variable uuid4 : nat → N.
Hypothesis sha1_inj : ∀ a b, sha1 a = sha1 b → a = b.
Hypothesis uuid4_inj : ∀ j k, uuid4 j = uuid4 k → j = k.

(** In a sound store a row's stored bytes are determined by its checksum. *)
Lemma sound_getfile w b data :
  store_sound sha1 uuid4 w → b ∈ fileblobs w → b_checksum b = sha1 data →
  getfile (storage_log w) b = Ok (ContentFile data) ∧ b_size b = len data.
Proof.
  intros ((_ & _ & Hsize) & _ & _ & _ & _ & Hread & _) Hb Hsum.
  destruct (Hread b Hb) as (data' & Hget & Hsum').
  assert (data' = data) as -> by (apply sha1_inj; congruence).
  split; [done|]. by apply Hsize.
Qed.

Lemma sound_blob_ok w b :
  store_sound sha1 uuid4 w → b ∈ fileblobs w → blob_ok (storage_log w) b.
Proof.
  intros Hs Hb. pose proof Hs as (_ & _ & _ & _ & _ & Hread & _).
  destruct (Hread b Hb) as (data & Hget & Hsum).
  destruct (sound_getfile w b data Hs Hb Hsum) as [_ Hsize].
  unfold blob_ok, blob_data. rewrite Hget. done.
Qed.

(** A new upload does not disturb what is stored for the rows that were
    there. *)
Lemma getfile_after_upload w b data :
  store_sound sha1 uuid4 w → b ∈ fileblobs w →
  getfile ((new_blob_path uuid4 w, data) :: storage_log w) b = getfile (storage_log w) b.
Proof.
  intros (_ & _ & _ & _ & _ & Hread & Hpaths) Hb.
  destruct (Hread b Hb) as (d & Hget & _).
  destruct (getfile_elem_of _ _ _ Hget) as (p & Hp & Hin).
  destruct (Hpaths p d Hin) as (k & Hk & Hpk).
  unfold getfile, storage_open. rewrite Hp. rewrite storage_lookup_cons_ne; [done|].
  intros Heq. rewrite <- Heq in Hpk. simpl in Hpk. apply uuid4_inj in Hpk. lia.
Qed.

Lemma upload_sound w data :
  store_sound sha1 uuid4 w → sha1 data ∉ b_checksum <$> fileblobs w →
  store_sound sha1 uuid4 (world_after_upload sha1 uuid4 w data).
Proof.
  intros Hs Hnew.
  pose proof Hs as ((Hlocks & Hnd & Hsize) & Hids & Hlt & Hiids & Hidx & Hread & Hpaths).
  unfold store_sound, store_consistent. simpl. split_and!.
  - done.
  - rewrite fmap_app. apply NoDup_app. split_and!; [done| |apply NoDup_singleton].
    intros c Hc Hc'. simpl in Hc'. apply list_elem_of_singleton in Hc'. by subst.
  - intros b d Hb Hd. apply elem_of_app in Hb as [Hb|Hb]; [by apply Hsize|].
    apply list_elem_of_singleton in Hb. subst b. simpl in *.
    by rewrite (sha1_inj _ _ Hd).
  - rewrite fmap_app. apply NoDup_app. split_and!; [done| |apply NoDup_singleton].
    intros i (b & -> & Hb)%list_elem_of_fmap Hi. simpl in Hi.
    apply list_elem_of_singleton in Hi. specialize (Hlt b Hb). lia.
  - intros b Hb. apply elem_of_app in Hb as [Hb|Hb].
    + specialize (Hlt b Hb). lia.
    + apply list_elem_of_singleton in Hb. subst b. simpl. lia.
  - done.
  - intros i Hi. destruct (Hidx i Hi) as [? ?]. split; [done|]. set_solver.
  - intros b Hb. apply elem_of_app in Hb as [Hb|Hb].
    + rewrite (getfile_after_upload w b data Hs Hb). by apply Hread.
    + apply list_elem_of_singleton in Hb. subst b. exists data. split; [|done].
      unfold getfile, storage_open, storage_lookup, new_blob, new_blob_path. simpl.
      by rewrite bool_decide_eq_true_2.
  - intros p d Hin. apply elem_of_cons in Hin as [[= -> ->]|Hin].
    + exists (uuid_calls w). split; [lia|done].
    + destruct (Hpaths p d Hin) as (k & Hk & Hpk). exists k. split; [lia|done].
Qed.

(** [from_file] in a sound store. *)
Lemma from_file_sound w data :
  store_sound sha1 uuid4 w →
  ∃ blob w',
    from_file sha1 uuid4 (ContentFile data) w = (Ok blob, w')
    ∧ store_sound sha1 uuid4 w'
    ∧ blob ∈ fileblobs w' ∧ b_checksum blob = sha1 data ∧ b_size blob = len data
    ∧ getfile (storage_log w') blob = Ok (ContentFile data)
    ∧ fileblobs w `prefix_of` fileblobs w'
    ∧ fileblobindexes w' = fileblobindexes w ∧ next_index_id w' = next_index_id w
    ∧ files w' = files w
    ∧ (if bool_decide (sha1 data ∈ b_checksum <$> fileblobs w) then w' = w
       else w' = world_after_upload sha1 uuid4 w data).
Proof.
  intros Hs. pose proof Hs as ((Hlocks & Hnd & Hsize) & _).
  assert (lock_key (sha1 data) ∉ locks_held w) as Hlock by (rewrite Hlocks; set_solver).
  case_bool_decide as Hin.
  - apply list_elem_of_fmap in Hin as (existing & Hsum & Hin).
    destruct (sound_getfile w existing data Hs Hin) as [Hget Hsz]; [done|].
    exists existing, w. split_and!; auto.
    by apply (from_file_hit sha1 uuid4 w data existing).
  - pose proof (upload_sound w data Hs Hin) as Hs'.
    exists (new_blob sha1 uuid4 w data), (world_after_upload sha1 uuid4 w data).
    split_and!; auto.
    + by apply from_file_miss.
    + simpl. set_solver.
    + apply (sound_getfile _ _ data Hs'); [simpl; set_solver|done].
    + by apply prefix_app_r.
Qed.

End SoundStore.

Lemma ex_uuid4_inj j k : ex_uuid4 j = ex_uuid4 k → j = k.
Proof. unfold ex_uuid4. lia. Qed.

Lemma ex_world_sound : store_sound ex_sha1 ex_uuid4 ex_world.
Proof.
  unfold store_sound. split_and!; try (by constructor).
  - exact ex_world_consistent.
  - intros b Hb. by apply elem_of_nil in Hb.
  - intros i Hi. by apply elem_of_nil in Hi.
  - intros b Hb. by apply elem_of_nil in Hb.
  - intros p d Hin. by apply elem_of_nil in Hin.
Qed.

(** X8. What is uploaded can be fetched: in a sound store, with a
    collision-free digest and a [uuid4] that does not repeat, [from_file]
    succeeds, the blob it returns is a row of the table whose [getfile()]
    yields exactly the uploaded bytes and whose size is their number, the
    bytes of every row that was there before are still what they were, and
    the store is sound again. *)
Theorem from_file_getfile_round_trip (sha1 : bytes → string) (uuid4 : nat → N)
    (w : World) (data : bytes)
    (Hsha1 : ∀ a b, sha1 a = sha1 b → a = b)
    (Huuid : ∀ j k, uuid4 j = uuid4 k → j = k)
    (Hsound : store_sound sha1 uuid4 w) :
  ∃ blob w',
    from_file sha1 uuid4 (ContentFile data) w = (Ok blob, w')
    ∧ blob ∈ fileblobs w'
    ∧ getfile (storage_log w') blob = Ok (ContentFile data)
    ∧ b_size blob = len data
    ∧ (∀ b, b ∈ fileblobs w → b ∈ fileblobs w'
            ∧ getfile (storage_log w') b = getfile (storage_log w) b)
    ∧ store_sound sha1 uuid4 w'.
Proof.
  destruct (from_file_sound sha1 uuid4 Hsha1 Huuid w data Hsound)
    as (blob & w' & Hrun & Hs' & Hin & Hsum & Hsz & Hget & Hpre & _ & _ & _ & Hcase).
  exists blob, w'. split_and!; auto.
  intros b Hb. split; [by eapply elem_of_prefix|].
  case_bool_decide; subst w'; [done|].
  simpl. by apply (getfile_after_upload sha1 uuid4 Huuid).
Qed.

Lemma from_file_getfile_round_trip_witness :
  ∃ blob w',
    from_file ex_sha1 ex_uuid4 (ContentFile ex_hello) ex_world = (Ok blob, w')
    ∧ getfile (storage_log w') blob = Ok (ContentFile ex_hello).
Proof.
  destruct (from_file_getfile_round_trip ex_sha1 ex_uuid4 ex_world ex_hello
              ex_sha1_inj ex_uuid4_inj ex_world_sound)
    as (blob & w' & H1 & _ & H2 & _).
  by exists blob, w'.
Defined.

(** ** Reading a file back *)

(** *** The query of [_get_chunked_blob] *)

Lemma insert_by_offset_last i l :
  Forall (λ j, idx_offset j ≤ idx_offset i) l → insert_by_offset i l = l ++ [i].
Proof.
  induction 1 as [|j l Hj _ IH]; [done|]. simpl.
  rewrite bool_decide_eq_false_2 by lia. by rewrite IH.
Qed.

Lemma order_by_offset_snoc l i :
  order_by_offset (l ++ [i]) = insert_by_offset i (order_by_offset l).
Proof. unfold order_by_offset. by rewrite reverse_snoc. Qed.

Lemma cumulative_offsets_bounded l : ∀ o,
  cumulative_from o l → Forall (λ j, 0 ≤ b_size (idx_blob j)) l →
  Forall (λ j, idx_offset j ≤ o + foldr (λ i acc, b_size (idx_blob i) + acc) 0 l) l.
Proof.
  induction l as [|j l IH]; intros o Hcum Hsz; [constructor|].
  destruct Hcum as [Ho Hcum]. apply Forall_cons in Hsz as [Hj Hsz].
  specialize (IH _ Hcum Hsz). simpl.
  assert (0 ≤ foldr (λ i acc, b_size (idx_blob i) + acc) 0 l) as Hsum.
  { clear -Hsz. induction Hsz; simpl; lia. }
  constructor; [lia|]. eapply Forall_impl; [exact IH|]. intros x Hx. simpl in Hx. lia.
Qed.

(** Rows at cumulative offsets over blobs of non-negative size are already
    in the order of the query. *)
Lemma order_by_offset_cumulative l : ∀ o,
  cumulative_from o l → Forall (λ j, 0 ≤ b_size (idx_blob j)) l →
  order_by_offset l = l.
Proof.
  induction l as [|i l IH] using rev_ind; intros o Hcum Hsz; [done|].
  apply cumulative_from_app in Hcum as [Hcum [Hi _]].
  apply Forall_app in Hsz as [Hsz _].
  rewrite order_by_offset_snoc, (IH o) by done.
  apply insert_by_offset_last. rewrite Hi. by apply cumulative_offsets_bounded.
Qed.

Lemma find_by_id (l : list FileBlob) b :
  NoDup (b_id <$> l) → b ∈ l → find (λ x, bool_decide (b_id x = b_id b)) l = Some b.
Proof.
  induction l as [|x l IH]; intros Hnd Hb; [by apply elem_of_nil in Hb|].
  rewrite fmap_cons in Hnd. apply NoDup_cons in Hnd as [Hx Hnd]. simpl.
  apply elem_of_cons in Hb as [->|Hb].
  - by rewrite bool_decide_eq_true_2.
  - rewrite bool_decide_eq_false_2; [by apply IH|].
    intros Heq. apply Hx. rewrite Heq. by apply list_elem_of_fmap_2.
Qed.

Lemma select_related_present w rows :
  NoDup (b_id <$> fileblobs w) → Forall (λ i, idx_blob i ∈ fileblobs w) rows →
  omap (select_related_blob w) rows = rows.
Proof.
  intros Hnd. induction 1 as [|i rows Hi _ IH]; [done|].
  cbn [omap list_omap]. unfold select_related_blob at 1.
  rewrite find_by_id by done. cbn [fmap option_fmap option_map].
  fold (omap (select_related_blob w) rows). rewrite IH. by destruct i.
Qed.

(** The rows of a file that had none before are the rows just created. *)
Lemma query_new_rows (self : File) w old rows o :
  fileblobindexes w = old ++ rows →
  (∀ i, i ∈ old → idx_file i ≠ file_id self) →
  Forall (λ i, idx_file i = file_id self) rows →
  NoDup (b_id <$> fileblobs w) → Forall (λ i, idx_blob i ∈ fileblobs w) rows →
  cumulative_from o rows → Forall (λ j, 0 ≤ b_size (idx_blob j)) rows →
  FileBlobIndex_objects_filter_file self w = rows.
Proof.
  intros Heq Hold Hrows Hnd Hin Hcum Hsz. unfold FileBlobIndex_objects_filter_file.
  rewrite Heq, filter_app.
  assert (filter (λ i, idx_file i = file_id self) old = []) as ->.
  { clear -Hold. induction old as [|i old IH]; [done|].
    rewrite filter_cons_False by (apply Hold; set_solver). apply IH.
    intros j Hj. apply Hold. set_solver. }
  assert (filter (λ i, idx_file i = file_id self) rows = rows) as ->.
  { clear -Hrows. induction Hrows as [|i rows Hi _ IH]; [done|].
    by rewrite filter_cons_True, IH. }
  simpl. rewrite select_related_present by done. by apply (order_by_offset_cumulative _ o).
Qed.

(** *** [putfile] in a sound store *)

Lemma chunks_loop_concat (blob_size : Z) fuel : ∀ data,
  blob_size ≠ 0 → (length data < fuel)%nat →
  concat (chunks_loop fuel blob_size data) = data.
Proof.
  induction fuel as [|fuel IH]; intros data Hbs Hfuel; [lia|]. cbn [chunks_loop].
  set (c := if blob_size <? 0 then data else take (Z.to_nat blob_size) data).
  case_bool_decide as Hc.
  - subst c. destruct (Z.ltb_spec blob_size 0); [done|].
    destruct data; [done|]. destruct (Z.to_nat blob_size) eqn:E; [exfalso; lia|done].
  - assert (length c ≠ 0)%nat by (by destruct c).
    assert (c ++ drop (length c) data = data) as Hsplit.
    { subst c. destruct (blob_size <? 0).
      - by rewrite drop_all, app_nil_r.
      - apply take_app_drop_length. }
    assert (length c ≤ length data)%nat as Hle.
    { subst c. destruct (blob_size <? 0); [done|]. rewrite length_take. lia. }
    simpl. rewrite IH; [done|done|]. rewrite length_drop. lia.
Qed.


Section PutfileSound.

Variable sha1 : bytes → string.
Variable uuid4 : nat → N.
Hypothesis sha1_inj : ∀ a b, sha1 a = sha1 b → a = b.
Hypothesis uuid4_inj : ∀ j k, uuid4 j = uuid4 k → j = k.

(** A new index row for a blob of the table keeps the store sound. *)
Lemma index_create_sound (file : File) blob offset w :
  store_sound sha1 uuid4 w → blob ∈ fileblobs w →
  store_sound sha1 uuid4
    (set_next_index_id (next_index_id w + 1)
       (set_fileblobindexes
          (fileblobindexes w ++ [mkFileBlobIndex (next_index_id w) (file_id file) blob offset])
          w)).
Proof.
  intros ((Hlocks & Hnd & Hsize) & Hids & Hlt & Hiids & Hidx & Hread & Hpaths) Hb.
  unfold store_sound, store_consistent. simpl. split_and!; try done.
  - rewrite fmap_app. apply NoDup_app. split_and!; [done| |apply NoDup_singleton].
    intros k (i & -> & Hi)%list_elem_of_fmap Hk. simpl in Hk.
    apply list_elem_of_singleton in Hk. destruct (Hidx i Hi). lia.
  - intros i [Hi|Hi]%elem_of_app.
    + destruct (Hidx i Hi). split; [lia|done].
    + apply list_elem_of_singleton in Hi. subst i. simpl. split; [lia|done].
Qed.

Lemma putfile_loop_sound (blob_size : Z) (Hbs : blob_size ≠ 0) fuel :
  ∀ fileobj results o acc self w,
    store_sound sha1 uuid4 w →
    (∀ i, i ∈ fileblobindexes w → idx_file i = file_id self → idx_offset i < o) →
    (length (f_rest fileobj) < fuel)%nat →
    let pieces := chunks_loop fuel blob_size (f_rest fileobj) in
    let new := distinct_new sha1 (b_checksum <$> fileblobs w) pieces in
    ∃ rows w',
      putfile_loop sha1 uuid4 fuel fileobj blob_size results o acc (self, w)
      = (Ok (results ++ rows, o + len (f_rest fileobj), acc ++ f_rest fileobj), (self, w'))
      ∧ store_sound sha1 uuid4 w'
      ∧ fileblobindexes w' = fileblobindexes w ++ rows
      ∧ files w' = files w
      ∧ fileblobs w `prefix_of` fileblobs w'
      ∧ cumulative_from o rows
      ∧ Forall (λ row, idx_file row = file_id self) rows
      ∧ (λ row, b_checksum (idx_blob row)) <$> rows = sha1 <$> pieces
      ∧ (∃ writes, storage_log w' = writes ++ storage_log w ∧ snd <$> writes = reverse new)
      ∧ b_checksum <$> fileblobs w' = (b_checksum <$> fileblobs w) ++ (sha1 <$> new).
Proof.
  induction fuel as [|fuel IH]; intros fileobj results o acc self w Hs Hfree Hfuel; [lia|].
  cbn [putfile_loop chunks_loop].
  pose proof (f_read_rest blob_size fileobj) as Hrest.
  assert ((f_read blob_size fileobj).1
          = if blob_size <? 0 then f_rest fileobj
            else take (Z.to_nat blob_size) (f_rest fileobj)) as Hout by done.
  destruct (f_read blob_size fileobj) as [contents fileobj'] eqn:Hrd. simpl in Hrest, Hout.
  rewrite <- Hout.
  case_bool_decide as Hc.
  - assert (f_rest fileobj = []) as Hnil.
    { destruct (Z.ltb_spec blob_size 0); [congruence|].
      apply (f_read_nil blob_size); [lia|]. rewrite Hrd. simpl. congruence. }
    exists [], w. rewrite Hnil, !app_nil_r. unfold len. simpl.
    rewrite Z.add_0_r. split_and!; auto. by exists [].
  - assert (0 < len contents) as Hmpos.
    { unfold len. destruct contents; simpl; [done|lia]. }
    assert (length contents ≤ length (f_rest fileobj))%nat as Hle.
    { rewrite Hout. destruct (blob_size <? 0); [done|]. rewrite length_take. lia. }
    assert (contents ++ f_rest fileobj' = f_rest fileobj) as Hsplit.
    { rewrite Hrest, Hout. destruct (blob_size <? 0).
      - by rewrite drop_all, app_nil_r.
      - apply take_app_drop_length. }
    destruct (from_file_sound sha1 uuid4 sha1_inj uuid4_inj w contents Hs)
      as (blob & w1 & Hff & Hs1 & Hin1 & Hsum & Hsz & _ & Hpre1 & Hidx1 & Hnext1
          & Hfiles1 & Hcase).
    rewrite (bind_on_world _ _ _ _ _ _ Hff), bind_on_local_get.
    assert (∀ i, i ∈ fileblobindexes w1 → idx_file i = file_id self → idx_offset i ≠ o)
      as Hfree1.
    { intros i Hi Hf. rewrite Hidx1 in Hi. specialize (Hfree i Hi Hf). lia. }
    rewrite (bind_on_world _ _ _ _ _ _ (FileBlobIndex_create_ok self blob o w1 Hfree1)).
    set (row := mkFileBlobIndex (next_index_id w1) (file_id self) blob o).
    set (w2 := set_next_index_id _ _).
    assert (store_sound sha1 uuid4 w2) as Hs2 by (by apply index_create_sound).
    destruct (IH fileobj' (results ++ [row]) (o + b_size blob) (acc ++ contents) self w2)
      as (rows & w' & Hrun & Hs' & Hidx' & Hfiles' & Hpre' & Hcum & Hfile & Hsums
          & (writes & Hlog & Hwrites) & Htable); auto.
    { intros i Hi Hf. subst w2. simpl in Hi. rewrite Hidx1 in Hi.
      apply elem_of_app in Hi as [Hi|Hi].
      - specialize (Hfree i Hi Hf). lia.
      - apply list_elem_of_singleton in Hi. subst i. simpl. lia. }
    { rewrite Hrest, length_drop. unfold len in Hmpos. lia. }
    exists (row :: rows), w'. rewrite Hrun. rewrite Hrest in *.
    change (fileblobs w2) with (fileblobs w1) in *.
    change (storage_log w2) with (storage_log w1) in *.
    assert (len (drop (length contents) (f_rest fileobj))
            = len (f_rest fileobj) - len contents) as Hlen'.
    { unfold len in *. rewrite length_drop. lia. }
    assert (distinct_new sha1 (b_checksum <$> fileblobs w1)
              (chunks_loop fuel blob_size (drop (length contents) (f_rest fileobj)))
            = distinct_new sha1
                (if bool_decide (sha1 contents ∈ b_checksum <$> fileblobs w)
                 then b_checksum <$> fileblobs w
                 else sha1 contents :: (b_checksum <$> fileblobs w))
                (chunks_loop fuel blob_size (drop (length contents) (f_rest fileobj))))
      as Hnew.
    { case_bool_decide; subst w1; [done|]. apply distinct_new_ext. intros c. simpl.
      rewrite fmap_app. simpl. rewrite elem_of_app, !elem_of_cons, elem_of_nil. tauto. }
    rewrite Hnew in Hwrites, Htable.
    split_and!; auto.
    + rewrite <-!(assoc_L (++)). rewrite Hsplit. simpl.
      replace (o + b_size blob + len (drop (length contents) (f_rest fileobj)))
        with (o + len (f_rest fileobj)) by (rewrite Hsz, Hlen'; lia).
      done.
    + rewrite Hidx'. subst w2. simpl. by rewrite Hidx1, <-(assoc_L (++)).
    + by rewrite Hfiles'.
    + by etrans.
    + simpl. split; [done|]. exact Hcum.
    + rewrite fmap_cons, Hsums. simpl. by rewrite Hsum.
    + cbn [distinct_new]. case_bool_decide; subst w1.
      * by exists writes.
      * exists (writes ++ [(new_blob_path uuid4 w, contents)]). split.
        -- rewrite Hlog. simpl. by rewrite <- (assoc_L (++)).
        -- by rewrite fmap_app, Hwrites, reverse_cons.
    + cbn [distinct_new]. rewrite Htable. case_bool_decide; subst w1; [done|].
      simpl. rewrite fmap_app, <- (assoc_L (++)). done.
Qed.

End PutfileSound.

Lemma File_save_sound (sha1 : bytes → string) (uuid4 : nat → N) (file : File) (w : World) :
  store_sound sha1 uuid4 w → store_sound sha1 uuid4 (File_save file w).2.
Proof.
  intros Hs. unfold File_save, modify. simpl. case_bool_decide; by destruct w.
Qed.

Lemma File_save_other (file : File) (w : World) :
  fileblobs (File_save file w).2 = fileblobs w
  ∧ fileblobindexes (File_save file w).2 = fileblobindexes w
  ∧ storage_log (File_save file w).2 = storage_log w.
Proof. unfold File_save, modify. simpl. case_bool_decide; by destruct w. Qed.

(** Reading a freshly built reader to the end, in either mode. *)
Lemma init_read_all (log : list (Path * bytes)) indexes prefetch r :
  indexed log indexes → ChunkedFileBlobIndexWrapper_init log indexes prefetch = Ok r →
  (read log (-1) r).1 = Ok (file_bytes log indexes)
  ∧ size r = len (file_bytes log indexes).
Proof.
  intros Hidx Hinit. destruct prefetch.
  - rewrite (init_prefetch log) in Hinit by done. injection Hinit as <-.
    split; [done|]. by apply (size_file_bytes log).
  - pose proof (reach_init log indexes r Hinit) as Hreach.
    destruct (reachable_inv log indexes r Hidx Hreach) as (Hi & Hne & Hinv).
    destruct (init_streaming log indexes Hidx Hne) as (pre & idx & post & Hdec & Hle & _ & Heq).
    rewrite Heq in Hinit. injection Hinit as Hr.
    split; [|rewrite <- Hi in Hidx; rewrite (size_file_bytes log) by done; by rewrite Hi].
    rewrite (read_spec log indexes) by (done || by rewrite <- Hr).
    assert (position r = 0) as ->; [|done].
    rewrite <- Hr. unfold position, f_tell. simpl.
    rewrite Hdec in Hidx. apply (indexed_offset log) in Hidx. unfold len in Hidx. lia.
Qed.

Section PutfileRoundTrip.

Variable sha1 : bytes → string.
Variable uuid4 : nat → N.
Hypothesis sha1_inj : ∀ a b, sha1 a = sha1 b → a = b.
Hypothesis uuid4_inj : ∀ j k, uuid4 j = uuid4 k → j = k.

(** The rows of blobs with the checksums of [pieces] hold [pieces]. *)
Lemma file_bytes_pieces w rows : ∀ pieces,
  store_sound sha1 uuid4 w → Forall (λ i, idx_blob i ∈ fileblobs w) rows →
  (λ row, b_checksum (idx_blob row)) <$> rows = sha1 <$> pieces →
  file_bytes (storage_log w) rows = concat pieces.
Proof.
  intros pieces Hs Hin. revert pieces.
  induction Hin as [|i rows Hi _ IH]; intros [|p pieces] Hsums; try done.
  rewrite !fmap_cons in Hsums. injection Hsums as Hp Hsums.
  rewrite file_bytes_cons, (IH pieces) by done. simpl. f_equal.
  destruct (sound_getfile sha1 uuid4 sha1_inj w _ p Hs Hi Hp) as [Hget _].
  unfold blob_data. by rewrite Hget.
Qed.

(** Index rows of a sound store that follow one another at cumulative
    offsets are an index a reader can work on. *)
Lemma sound_indexed w old rows :
  store_sound sha1 uuid4 w → fileblobindexes w = old ++ rows →
  cumulative_from 0 rows →
  indexed (storage_log w) rows
  ∧ Forall (λ i, idx_blob i ∈ fileblobs w) rows
  ∧ Forall (λ j, 0 ≤ b_size (idx_blob j)) rows.
Proof.
  intros Hs Heq Hcum. pose proof Hs as (_ & _ & _ & Hiids & Hidx & _).
  assert (Forall (λ i, idx_blob i ∈ fileblobs w) rows) as Hin.
  { apply Forall_forall. intros i Hi. apply Hidx. rewrite Heq. set_solver. }
  assert (Forall (λ i, blob_ok (storage_log w) (idx_blob i)) rows) as Hok.
  { eapply Forall_impl; [exact Hin|]. intros i Hi. by apply (sound_blob_ok sha1 uuid4). }
  split_and!; [split_and!| |]; try done.
  - rewrite Heq, fmap_app in Hiids. by apply NoDup_app in Hiids as (_ & _ & ?).
  - eapply Forall_impl; [exact Hok|]. intros i [_ ->]. unfold len. lia.
Qed.

Lemma putfile_sound self w fileobj blob_size commit :
  blob_size ≠ 0 → store_sound sha1 uuid4 w →
  (∀ i, i ∈ fileblobindexes w → idx_file i ≠ file_id self) →
  let pieces := chunks blob_size (f_rest fileobj) in
  let new := distinct_new sha1 (b_checksum <$> fileblobs w) pieces in
  ∃ rows self' w',
    putfile sha1 uuid4 fileobj blob_size commit (self, w) = (Ok rows, (self', w'))
    ∧ store_sound sha1 uuid4 w'
    ∧ file_id self' = file_id self
    ∧ fileblobindexes w' = fileblobindexes w ++ rows
    ∧ fileblobs w `prefix_of` fileblobs w'
    ∧ cumulative_from 0 rows
    ∧ Forall (λ row, idx_file row = file_id self) rows
    ∧ (λ row, b_checksum (idx_blob row)) <$> rows = sha1 <$> pieces
    ∧ concat pieces = f_rest fileobj
    ∧ (∃ writes, storage_log w' = writes ++ storage_log w ∧ snd <$> writes = reverse new)
    ∧ b_checksum <$> fileblobs w' = (b_checksum <$> fileblobs w) ++ (sha1 <$> new).
Proof.
  intros Hbs Hs Hfresh pieces new.
  destruct (putfile_loop_sound sha1 uuid4 sha1_inj uuid4_inj blob_size Hbs
              (S (length (f_rest fileobj))) fileobj [] 0 [] self w)
    as (rows & w1 & Hrun & Hs1 & Hidx & Hfiles & Hpre & Hcum & Hfile & Hsums & Hlog & Htable);
    auto.
  { intros i Hi Hf. by destruct (Hfresh i Hi). }
  set (self' := set_size_checksum (len (f_rest fileobj)) (sha1 (f_rest fileobj)) self).
  set (w' := if commit then (File_save self' w1).2 else w1).
  assert ((if commit then self_save else ret tt) (self', w1) = (Ok tt, (self', w')))
    as Hcommit by (by destruct commit).
  destruct (File_save_other self' w1) as (Hb & Hi & Hl).
  assert (fileblobs w' = fileblobs w1 ∧ fileblobindexes w' = fileblobindexes w1
          ∧ storage_log w' = storage_log w1) as (Hb' & Hi' & Hl').
  { subst w'. by destruct commit. }
  exists rows, self', w'. rewrite Hb', Hi', Hl'.
  split_and!; try done.
  - unfold putfile. unfold bind at 1. rewrite Hrun.
    rewrite bind_on_local_modify. rewrite Z.add_0_l, !app_nil_l.
    unfold bind at 1. fold self'. by rewrite Hcommit.
  - subst w'. destruct commit; [by apply File_save_sound|done].
  - apply chunks_loop_concat; [done|lia].
Qed.

End PutfileRoundTrip.

(** X9. What [putfile] stores, [getfile] reads back.  In a sound store,
    with a collision-free digest, a [uuid4] that does not repeat and a
    chunk size other than 0, after [putfile] on a file that had no index
    rows: the query of [_get_chunked_blob] returns exactly the rows
    [putfile] returned; [getfile(as_tempfile=True)] returns a temp file
    holding the bytes of the stream, positioned at the start; a reader
    obtained in prefetch mode, or in streaming mode when the stream was not
    empty, reads the bytes of the stream and reports their number as its
    size; and for an empty stream [getfile()] in streaming mode fails with
    the seek error.  The store is sound afterwards. *)
Theorem putfile_getfile_round_trip (sha1 : bytes → string) (uuid4 : nat → N)
    (self : File) (w : World) (fileobj : FileObj) (blob_size : Z) (commit : bool)
    (Hsha1 : ∀ a b, sha1 a = sha1 b → a = b)
    (Huuid : ∀ j k, uuid4 j = uuid4 k → j = k)
    (Hsize : blob_size ≠ 0)
    (Hsound : store_sound sha1 uuid4 w)
    (Hfresh : ∀ i, i ∈ fileblobindexes w → idx_file i ≠ file_id self) :
  ∃ results self' w',
    putfile sha1 uuid4 fileobj blob_size commit (self, w) = (Ok results, (self', w'))
    ∧ store_sound sha1 uuid4 w'
    ∧ FileBlobIndex_objects_filter_file self' w' = results
    ∧ File_getfile self' false true w' = Ok (AsTempfile (ContentFile (f_rest fileobj)))
    ∧ (∀ prefetch, prefetch = true ∨ f_rest fileobj ≠ [] →
         ∃ impl, File_getfile self' prefetch false w' = Ok (AsReader impl)
                 ∧ (read (storage_log w') (-1) impl).1 = Ok (f_rest fileobj)
                 ∧ size impl = len (f_rest fileobj))
    ∧ (f_rest fileobj = [] →
         File_getfile self' false false w' = Raise (ValueError "Cannot seek to pos")).
Proof.
  destruct (putfile_sound sha1 uuid4 Hsha1 Huuid self w fileobj blob_size commit
              Hsize Hsound Hfresh)
    as (rows & self' & w' & Hrun & Hs' & Hid & Hidx & Hpre & Hcum & Hfile & Hsums
        & Hconcat & _ & _).
  destruct (sound_indexed sha1 uuid4 Hsha1 Huuid w' _ rows Hs' Hidx Hcum) as (Hindexed & Hin & Hsz).
  assert (FileBlobIndex_objects_filter_file self' w' = rows) as Hquery.
  { apply (query_new_rows self' w' (fileblobindexes w) rows 0); auto.
    - intros i Hi. rewrite Hid. by apply Hfresh.
    - eapply Forall_impl; [exact Hfile|]. intros i Hi. simpl in Hi. congruence.
    - by destruct Hs' as (_ & ? & _). }
  assert (file_bytes (storage_log w') rows = f_rest fileobj) as Hbytes.
  { rewrite <- Hconcat. by apply (file_bytes_pieces sha1 uuid4 Hsha1 w'). }
  exists rows, self', w'. split_and!; auto.
  - unfold File_getfile, _get_chunked_blob. rewrite Hquery.
    rewrite (init_prefetch (storage_log w')) by done. by rewrite Hbytes.
  - intros prefetch Hmode. unfold File_getfile, _get_chunked_blob. rewrite Hquery.
    assert (∃ r, ChunkedFileBlobIndexWrapper_init (storage_log w') rows prefetch = Ok r)
      as [r Hinit].
    { destruct prefetch.
      - rewrite (init_prefetch (storage_log w')) by done. by eexists.
      - destruct Hmode as [?|Hne]; [done|].
        destruct (init_streaming (storage_log w') rows Hindexed)
          as (pre & idx & post & _ & _ & _ & ->); [|by eexists].
        intros ->. by rewrite <- Hbytes in Hne. }
    rewrite Hinit. exists r. split; [done|].
    rewrite <- Hbytes. by apply init_read_all with prefetch.
  - intros Hnil. unfold File_getfile, _get_chunked_blob. rewrite Hquery.
    assert (rows = []) as ->; [|done].
    rewrite Hnil in Hsums.
    assert (chunks blob_size [] = []) as Hempty.
    { unfold chunks. simpl. by destruct (blob_size <? 0); simpl; rewrite ?take_nil. }
    rewrite Hempty in Hsums. by apply fmap_nil_inv in Hsums.
Qed.

Lemma putfile_getfile_round_trip_witness :
  ∃ results self' w' impl,
    putfile ex_sha1 ex_uuid4 (ContentFile ex_hello) 2 true (ex_file, ex_world)
    = (Ok results, (self', w'))
    ∧ File_getfile self' false false w' = Ok (AsReader impl)
    ∧ (read (storage_log w') (-1) impl).1 = Ok ex_hello
    ∧ File_getfile self' false true w' = Ok (AsTempfile (ContentFile ex_hello)).
Proof.
  destruct (putfile_getfile_round_trip ex_sha1 ex_uuid4 ex_file ex_world
              (ContentFile ex_hello) 2 true ex_sha1_inj ex_uuid4_inj ltac:(lia)
              ex_world_sound ltac:(intros i Hi; by apply elem_of_nil in Hi))
    as (results & self' & w' & Hrun & _ & _ & Htmp & Hreader & _).
  assert (false = true ∨ f_rest (ContentFile ex_hello) ≠ []) as Hmode
    by (right; discriminate).
  destruct (Hreader false Hmode) as (impl & Hget & Hread & _).
  exists results, self', w', impl.
  split; [exact Hrun|]. split; [exact Hget|]. split; [exact Hread|exact Htmp].
Defined.



(** ** More on assembling *)

Lemma ordered_blobs_absent (id : Z) (l l2 : list Z) : ∀ table,
  (∀ b, b ∈ table → b_id b ≠ id) →
  ordered_blobs (l ++ id :: l2) table = ordered_blobs (l ++ l2) table.
Proof.
  induction l as [|x l IH]; intros table Hno.
  - simpl.
    assert (filter (λ b, b_id b = id) table = []) as ->.
    { clear -Hno. induction table as [|b table IH]; [done|].
      rewrite filter_cons_False by (apply Hno; set_solver).
      apply IH. intros b' Hb'. apply Hno. set_solver. }
    assert (filter (λ b, b_id b ≠ id) table = table) as ->; [|done].
    clear -Hno. induction table as [|b table IH]; [done|].
    rewrite filter_cons_True by (apply Hno; set_solver).
    f_equal. apply IH. intros b' Hb'. apply Hno. set_solver.
  - simpl. f_equal. apply IH. intros b [_ Hb]%list_elem_of_filter. by apply Hno.
Qed.

Lemma ordered_blobs_repeat (id : Z) (l1 l2 : list Z) : ∀ table,
  id ∈ l1 → ordered_blobs (l1 ++ id :: l2) table = ordered_blobs (l1 ++ l2) table.
Proof.
  induction l1 as [|x l1 IH]; intros table Hin; [by apply elem_of_nil in Hin|].
  simpl. f_equal. destruct (decide (x = id)) as [->|Hne].
  - apply ordered_blobs_absent. by intros b [Hb _]%list_elem_of_filter.
  - apply IH. set_solver.
Qed.

(** X11. [assemble_from_file_blob_ids] works on each blob at most once and
    only on blobs that exist: an identifier that repeats an earlier one of
    the list, or that names no row of the blob table, contributes nothing.
    The call with such an identifier in the list does exactly what the call
    without it does: same result, same index rows, same size and checksum;
    no error is raised for it. *)
Theorem assemble_ignores_repeated_and_unknown_ids (sha1 : bytes → string)
    (l1 l2 : list Z) (id : Z) (checksum : string) (commit : bool)
    (self : File) (w : World) :
  id ∈ l1 ∨ id ∉ b_id <$> fileblobs w →
  assembled w (l1 ++ id :: l2) = assembled w (l1 ++ l2)
  ∧ assemble_from_file_blob_ids sha1 (l1 ++ id :: l2) checksum commit (self, w)
    = assemble_from_file_blob_ids sha1 (l1 ++ l2) checksum commit (self, w).
Proof.
  intros Hid.
  assert (ordered_blobs (l1 ++ id :: l2) (fileblobs w)
          = ordered_blobs (l1 ++ l2) (fileblobs w)) as Heq.
  { destruct Hid as [Hin|Hout].
    - by apply ordered_blobs_repeat.
    - apply ordered_blobs_absent. intros b Hb Heq. apply Hout. rewrite <- Heq.
      by apply list_elem_of_fmap_2. }
  split.
  - unfold assembled. by rewrite Heq.
  - by rewrite !assemble_from_file_blob_ids_unfold, Heq.
Qed.

Lemma assemble_ignores_repeated_and_unknown_ids_witness :
  (assemble_from_file_blob_ids ex_sha1 [1; 2; 1] "hello" true (ex_file, ex_store)).1
  = Ok (ContentFile ex_hello)
  ∧ (assemble_from_file_blob_ids ex_sha1 [1; 9; 2] "hello" true (ex_file, ex_store)).1
    = Ok (ContentFile ex_hello).
Proof.
  split.
  - destruct (assemble_ignores_repeated_and_unknown_ids ex_sha1 [1; 2] [] 1 "hello" true
                ex_file ex_store) as [_ H]; [left; set_solver|].
    simpl in H. rewrite H. vm_compute. reflexivity.
  - destruct (assemble_ignores_repeated_and_unknown_ids ex_sha1 [1] [2] 9 "hello" true
                ex_file ex_store) as [_ H].
    { right. vm_compute. intros Hin.
      repeat (apply elem_of_cons in Hin as [Hin|Hin]; [discriminate Hin|]).
      by apply elem_of_nil in Hin. }
    simpl in H. rewrite H. vm_compute. reflexivity.
Defined.

Section AssembleSound.

Variable sha1 : bytes → string.
Variable uuid4 : nat → N.

(** The index rows the loop adds keep a sound store sound. *)
Lemma assemble_loop_sound (blobs : list FileBlob) : ∀ offset acc tf self w res self' w',
  store_sound sha1 uuid4 w → Forall (λ b, b ∈ fileblobs w) blobs →
  assemble_loop blobs offset acc tf (self, w) = (Ok res, (self', w')) →
  store_sound sha1 uuid4 w'.
Proof.
  induction blobs as [|blob blobs IH]; intros offset acc tf self w res self' w' Hs Hin Hrun.
  - simpl in Hrun. by injection Hrun as _ _ <-.
  - apply Forall_cons in Hin as [Hb Hin].
    cbn [assemble_loop] in Hrun.
    unfold bind at 1 in Hrun. unfold on_local at 1, get at 1 in Hrun.
    unfold bind at 1 in Hrun. unfold on_world at 1, FileBlobIndex_create at 1 in Hrun.
    case_bool_decide as Hdup; [done|].
    unfold bind at 1 in Hrun. unfold on_world at 1, get at 1 in Hrun.
    unfold bind at 1 in Hrun. unfold lift at 1 in Hrun.
    cbn [storage_log set_next_index_id set_fileblobindexes] in Hrun.
    destruct (getfile (storage_log w) blob) as [f|e]; [|done].
    apply IH in Hrun; [done| |done].
    by apply index_create_sound.
Qed.

End AssembleSound.

(** X12. What [assemble_from_file_blob_ids] puts together, [getfile] reads
    back.  In a sound store with a collision-free digest, after a
    successful call on a file that had no index rows: the store is sound,
    the query of [_get_chunked_blob] returns the rows of the named blobs in
    the caller's order, [getfile(as_tempfile=True)] returns a temp file
    equal to the one the call returned, and a reader obtained in prefetch
    mode, or in streaming mode when at least one blob was assembled, reads
    the same bytes. *)
Theorem assemble_getfile_round_trip (sha1 : bytes → string) (uuid4 : nat → N)
    (ids : list Z) (checksum : string) (commit : bool) (self : File) (w : World)
    (tf : FileObj) (self' : File) (w' : World)
    (Hsha1 : ∀ a b, sha1 a = sha1 b → a = b)
    (Huuid : ∀ j k, uuid4 j = uuid4 k → j = k)
    (Hsound : store_sound sha1 uuid4 w)
    (Hfresh : ∀ i, i ∈ fileblobindexes w → idx_file i ≠ file_id self) :
  assemble_from_file_blob_ids sha1 ids checksum commit (self, w) = (Ok tf, (self', w')) →
  store_sound sha1 uuid4 w'
  ∧ idx_blob <$> FileBlobIndex_objects_filter_file self' w' = ordered_blobs ids (fileblobs w)
  ∧ tf = ContentFile (assembled w ids)
  ∧ File_getfile self' false true w' = Ok (AsTempfile tf)
  ∧ (∀ prefetch, prefetch = true ∨ ordered_blobs ids (fileblobs w) ≠ [] →
       ∃ impl, File_getfile self' prefetch false w' = Ok (AsReader impl)
               ∧ (read (storage_log w') (-1) impl).1 = Ok (f_data tf)).
Proof.
  rewrite assemble_from_file_blob_ids_unfold. intros Hrun.
  destruct (assemble_loop _ _ _ _ _) as [[[[offset acc] tf1]|e] [self1 w1]] eqn:Hloop;
    [|discriminate].
  assert (Forall (λ b, b ∈ fileblobs w) (ordered_blobs ids (fileblobs w))) as Hblobs.
  { apply Forall_forall. by intros b [? _]%ordered_blobs_elem_of. }
  pose proof (assemble_loop_sound sha1 uuid4 _ _ _ _ _ _ _ _ _ Hsound Hblobs Hloop) as Hs1.
  apply assemble_loop_spec in Hloop as (-> & Hlog1 & Hb1 & Hfiles & _ & Hok); [|done].
  destruct (Hok _ _ _ eq_refl) as (-> & Hacc & -> & rows & Hrows & Hrblobs & Hfile & Hcum).
  simpl in Hacc. fold (assembled w ids) in Hacc. subst acc.
  cbn beta iota zeta in Hrun. case_bool_decide as Hsum; [discriminate|].
  injection Hrun as Htf Hself Hw.
  set (self2 := set_size_checksum (0 + total_size (ordered_blobs ids (fileblobs w)))
                  (sha1 (assembled w ids)) self) in *.
  set (w2 := if commit then (File_save self2 w1).2 else w1).
  assert (w' = w2) as -> by (by rewrite <- Hw).
  subst self' tf. clear Hw.
  destruct (File_save_other self2 w1) as (Hb & Hi & Hl).
  assert (fileblobs w2 = fileblobs w1 ∧ fileblobindexes w2 = fileblobindexes w1
          ∧ storage_log w2 = storage_log w1) as (Hb' & Hi' & Hl').
  { subst w2. by destruct commit. }
  assert (store_sound sha1 uuid4 w2) as Hs2.
  { subst w2. destruct commit; [by apply File_save_sound|done]. }
  rewrite <- Hi' in Hrows.
  destruct (sound_indexed sha1 uuid4 Hsha1 Huuid w2 _ rows Hs2 Hrows Hcum)
    as (Hindexed & Hin & Hsz).
  assert (FileBlobIndex_objects_filter_file self2 w2 = rows) as Hquery.
  { apply (query_new_rows self2 w2 (fileblobindexes w) rows 0); auto.
    by destruct Hs2 as (_ & ? & _). }
  assert (file_bytes (storage_log w2) rows = assembled w ids) as Hbytes.
  { unfold file_bytes, assembled. rewrite Hl', Hlog1, <- Hrblobs, <- list_fmap_compose. done. }
  clearbody w2. split_and!.
  - done.
  - by rewrite Hquery.
  - done.
  - unfold File_getfile, _get_chunked_blob. rewrite Hquery.
    rewrite (init_prefetch (storage_log w2)) by done. by rewrite Hbytes.
  - intros prefetch Hmode. unfold File_getfile, _get_chunked_blob. rewrite Hquery.
    assert (∃ r, ChunkedFileBlobIndexWrapper_init (storage_log w2) rows prefetch = Ok r)
      as [r Hinit].
    { destruct prefetch.
      - rewrite (init_prefetch (storage_log w2)) by done. by eexists.
      - destruct Hmode as [?|Hne]; [done|].
        destruct (init_streaming (storage_log w2) rows Hindexed)
          as (pre & idx & post & _ & _ & _ & ->); [|by eexists].
        intros ->. by rewrite <- Hrblobs in Hne. }
    rewrite Hinit. exists r. split; [done|].
    match goal with |- _ = Ok ?x =>
      replace x with (file_bytes (storage_log w2) rows) by (by rewrite Hbytes) end.
    by apply init_read_all with prefetch.
Qed.

Lemma assemble_getfile_round_trip_witness :
  ∃ w tf self' w' impl,
    w = (putfile ex_sha1 ex_uuid4 (ContentFile ex_hello) 2 true (ex_file, ex_world)).2.2
    ∧ assemble_from_file_blob_ids ex_sha1 [3; 1; 2] "ohell" true (mkFile 8 None None, w)
      = (Ok tf, (self', w'))
    ∧ File_getfile self' false false w' = Ok (AsReader impl)
    ∧ (read (storage_log w') (-1) impl).1 = Ok (f_data tf)
    ∧ f_data tf = [Byte.x6f; Byte.x68; Byte.x65; Byte.x6c; Byte.x6c].
Proof.
  destruct (putfile_sound ex_sha1 ex_uuid4 ex_sha1_inj ex_uuid4_inj ex_file ex_world
              (ContentFile ex_hello) 2 true ltac:(lia) ex_world_sound
              ltac:(intros i Hi; by apply elem_of_nil in Hi))
    as (rows & self1 & w & Hput & Hsound & _).
  assert (w = (putfile ex_sha1 ex_uuid4 (ContentFile ex_hello) 2 true
                 (ex_file, ex_world)).2.2) as Hw by (by rewrite Hput).
  destruct (assemble_from_file_blob_ids ex_sha1 [3; 1; 2] "ohell" true
              (mkFile 8 None None, w)) as [r [self' w']] eqn:Hrun.
  assert (r = Ok (ContentFile [Byte.x6f; Byte.x68; Byte.x65; Byte.x6c; Byte.x6c])) as Hr.
  { assert (r = (assemble_from_file_blob_ids ex_sha1 [3; 1; 2] "ohell" true
                   (mkFile 8 None None, w)).1) as -> by (by rewrite Hrun).
    rewrite Hw. vm_compute. reflexivity. }
  subst r.
  assert (∀ i, i ∈ fileblobindexes w → idx_file i ≠ file_id (mkFile 8 None None)) as Hfresh.
  { intros i Hi Hf. rewrite Hw in Hi. vm_compute in Hi.
    repeat (apply elem_of_cons in Hi as [->|Hi]; [discriminate Hf|]).
    by apply elem_of_nil in Hi. }
  destruct (assemble_getfile_round_trip ex_sha1 ex_uuid4 [3; 1; 2] "ohell" true
              (mkFile 8 None None) w _ self' w' ex_sha1_inj ex_uuid4_inj Hsound Hfresh Hrun)
    as (_ & Hblobs & _ & _ & Hreader).
  destruct (Hreader false) as (impl & Hget & Hread).
  { right. intros Hnil. rewrite Hnil in Hblobs. apply fmap_nil_inv in Hblobs.
    assert (length (ordered_blobs [3; 1; 2] (fileblobs w)) = 3%nat) as Hlen
      by (rewrite Hw; vm_compute; reflexivity).
    rewrite Hnil in Hlen. discriminate Hlen. }
  exists w, (ContentFile [Byte.x6f; Byte.x68; Byte.x65; Byte.x6c; Byte.x6c]), self', w', impl.
  split; [exact Hw|]. split; [exact Hrun|]. split; [exact Hget|]. split; [exact Hread|].
  reflexivity.
Defined.

(** ** More on batch intake *)

Lemma from_files_loop_app (sha1 : bytes → string) (uuid4 : nat → N)
    (organization : option Z) (l1 l2 : list (FileObj * option string)) : ∀ s,
  from_files_loop sha1 uuid4 organization (l1 ++ l2) s
  = (from_files_loop sha1 uuid4 organization l1;;
     from_files_loop sha1 uuid4 organization l2) s.
Proof.
  induction l1 as [|[f c] l1 IH]; intros s; [done|].
  cbn [app from_files_loop]. unfold bind.
  destruct (from_files_step sha1 uuid4 organization f c s) as [[[]|e] s1]; [|done].
  rewrite IH. done.
Qed.

(** X13. A reference checksum that does not match fails the whole batch:
    [from_files] raises [IOError('Checksum mismatch')] at the first input
    whose content does not have the checksum given with it.  The plain
    inputs before it are stored as by a call on them alone, one write and
    one row per new distinct content; nothing of the failing input or of
    the inputs after it is written; and no upload lock is left held. *)
Theorem from_files_checksum_mismatch (sha1 : bytes → string) (uuid4 : nat → N)
    (organization : option Z) (datas : list bytes) (d : bytes) (c : string)
    (rest : list upload) (w : World) :
  locks_held w = ∅ →
  NoDup (b_checksum <$> fileblobs w) →
  c ≠ sha1 d →
  let new := distinct_new sha1 (b_checksum <$> fileblobs w) datas in
  ∃ w',
    from_files sha1 uuid4 organization
      (plain_files datas ++ Tuple (ContentFile d) (Some c) :: rest) w
    = (Raise (IOError "Checksum mismatch"), w')
    ∧ locks_held w' = ∅
    ∧ snd <$> storage_log w' = reverse new ++ (snd <$> storage_log w)
    ∧ ∃ rows, fileblobs w' = fileblobs w ++ rows
              ∧ blob_info <$> rows = (λ d, (sha1 d, len d)) <$> new.
Proof.
  intros Hheld Hnd Hc new.
  set (locals := mkFromFiles [] [] [] [] MULTI_BLOB_UPLOAD_CONCURRENCY).
  assert (batch_inv locals w) as Hinv.
  { unfold batch_inv, table_and_pending. simpl. rewrite app_nil_r.
    split_and!; try done; [lia|]. intros x Hx. by apply elem_of_nil in Hx. }
  destruct (from_files_loop_spec sha1 uuid4 organization datas locals w Hinv)
    as (s1 & w1 & Hloop & Hinv1 & Hpre1 & Hlog1 & Hinfo1).
  destruct (_flush_blobs_spec uuid4 organization s1 w1 Hinv1)
    as (s2 & w2 & Hflush & Hinv2 & Hpend2 & _ & Hlog2 & Hpre2 & Hinfo2).
  unfold table_and_pending in Hlog1, Hinfo1, Hinfo2. simpl in Hlog1, Hinfo1.
  rewrite Hpend2 in Hinfo2. simpl in Hinfo2. rewrite !app_nil_r in *.
  fold new in Hlog1, Hinfo1. rewrite Hinfo1 in Hinfo2. rewrite <- Hlog2 in Hlog1.
  destruct Hinv2 as (_ & _ & Hlocks2 & _ & Hheld2 & _ & _).
  rewrite Hpend2 in Hlocks2. simpl in Hlocks2.
  rewrite Hlocks2 in Hheld2. simpl in Hheld2.
  assert (∃ rows, fileblobs w2 = fileblobs w ++ rows) as [rows Hrows].
  { destruct Hpre1 as [r1 Hr1], Hpre2 as [r2 Hr2]. exists (r1 ++ r2).
    by rewrite Hr2, Hr1, <- (assoc_L (++)). }
  exists w2. split_and!; [|done|done|].
  - unfold from_files, finally. fold locals.
    unfold files_with_checksums. rewrite fmap_app, fmap_cons.
    fold (files_with_checksums (plain_files datas)). fold (files_with_checksums rest).
    unfold bind at 1. rewrite from_files_loop_app. unfold bind at 1. rewrite Hloop.
    cbn [from_files_loop]. unfold bind at 1. unfold from_files_step.
    unfold bind at 1. rewrite Hflush.
    rewrite _get_size_and_checksum_spec, f_rest_ContentFile.
    cbn beta iota zeta. unfold bind at 1, lift at 1. cbn beta iota zeta.
    rewrite bool_decide_eq_true_2 by congruence.
    unfold raise, release_locks. destruct s2 as [? ? ? lks ?]. simpl in Hlocks2.
    subst lks. reflexivity.
  - exists rows. split; [done|]. rewrite Hrows, fmap_app in Hinfo2.
    by apply app_inv_head in Hinfo2.
Qed.

Lemma from_files_checksum_mismatch_witness :
  ∃ w',
    from_files ex_sha1 ex_uuid4 None
      (plain_files [ex_hello] ++ [Tuple (ContentFile [Byte.x61]) (Some "not-its-digest");
                                  Plain (ContentFile [Byte.x62])]) ex_world
    = (Raise (IOError "Checksum mismatch"), w')
    ∧ locks_held w' = ∅
    ∧ length (fileblobs w') = 1%nat.
Proof.
  destruct (from_files_checksum_mismatch ex_sha1 ex_uuid4 None [ex_hello] [Byte.x61]
              "not-its-digest" [Plain (ContentFile [Byte.x62])] ex_world
              eq_refl ltac:(constructor) ltac:(discriminate))
    as (w' & Hrun & Hlocks & _ & rows & Hrows & Hinfo).
  exists w'. split; [exact Hrun|]. split; [exact Hlocks|].
  apply (f_equal length) in Hinfo. rewrite length_fmap in Hinfo.
  rewrite Hrows, length_app, Hinfo. reflexivity.
Defined.

(** ** Deleting blobs *)

(** X14. [deletefile] needs a path: on a blob without one it fails its
    assertion and schedules nothing.  On a blob with a path it schedules
    one deletion task for that path and checksum, to run after 60 seconds,
    and clears the path of the instance; the stored bytes are not touched
    by the call.  Without [commit] the tables are not touched either.
    Afterwards [getfile()] on the instance fails its assertion, and so does
    a second [deletefile], which schedules no second task.  With [commit],
    when the blob has a row, that row is rewritten with the path
    cleared. *)
Theorem deletefile_schedules_once (self : FileBlob) (queue : list DeleteFileTask)
    (w : World) (commit : bool) :
  (b_path self = None →
     deletefile commit ((self, queue), w) = (Raise AssertionError, ((self, queue), w)))
  ∧ (∀ path, b_path self = Some path →
       let self' := mkFileBlob (b_id self) None (b_size self) (b_checksum self)
                      (b_timestamp self) in
       let queue' := queue ++ [mkDeleteFileTask path (b_checksum self) 60] in
       deletefile false ((self, queue), w) = (Ok tt, ((self', queue'), w))
       ∧ getfile (storage_log w) self' = Raise AssertionError
       ∧ (∀ commit' w', deletefile commit' ((self', queue'), w')
                        = (Raise AssertionError, ((self', queue'), w')))
       ∧ (b_id self ∈ b_id <$> fileblobs w →
          ∃ w', deletefile true ((self, queue), w) = (Ok tt, ((self', queue'), w'))
                ∧ storage_log w' = storage_log w
                ∧ self' ∈ fileblobs w'
                ∧ (∀ b, b ∈ fileblobs w' → b_id b = b_id self → b = self')
                ∧ (∀ b, b_id b ≠ b_id self → b ∈ fileblobs w' ↔ b ∈ fileblobs w))).
Proof.
  split.
  - intros Hp. unfold deletefile, bind, on_local, get. simpl. by rewrite Hp.
  - intros path Hp self' queue'. split_and!.
    + unfold deletefile, bind, on_local, get, modify, ret. simpl. by rewrite Hp.
    + done.
    + intros commit' w'. unfold deletefile, bind, on_local, get. simpl. done.
    + intros Hin.
      eexists. split; [|split_and!].
      * unfold deletefile, bind, on_local, on_world, get, modify, ret,
          FileBlob_save_existing. simpl. rewrite Hp. simpl.
        rewrite bool_decide_eq_true_2 by done. reflexivity.
      * done.
      * simpl. apply list_elem_of_fmap in Hin as (b & Hid & Hb).
        apply list_elem_of_fmap. exists b. split; [|done].
        by rewrite bool_decide_eq_true_2.
      * simpl. intros b (b0 & -> & Hb0)%list_elem_of_fmap Hid.
        case_bool_decide; [done|]. simpl in Hid. by destruct H.
      * simpl. intros b Hne. rewrite list_elem_of_fmap. split.
        -- intros (b0 & -> & Hb0). case_bool_decide as Hid; [|done]. by destruct Hne.
        -- intros Hb. exists b. split; [|done]. by rewrite bool_decide_eq_false_2.
Qed.

Lemma deletefile_schedules_once_witness :
  deletefile false ((ex_blob1, []), ex_store)
  = (Ok tt, ((mkFileBlob 1 None 2 "sha1-of-he" 0,
              [mkDeleteFileTask (0, 0, 1%N) "sha1-of-he" 60]), ex_store))
  ∧ ∃ w', deletefile true ((ex_blob1, []), ex_store)
          = (Ok tt, ((mkFileBlob 1 None 2 "sha1-of-he" 0,
                      [mkDeleteFileTask (0, 0, 1%N) "sha1-of-he" 60]), w'))
          ∧ mkFileBlob 1 None 2 "sha1-of-he" 0 ∈ fileblobs w'.
Proof.
  destruct (deletefile_schedules_once ex_blob1 [] ex_store false) as [_ H].
  destruct (H (0, 0, 1%N) eq_refl) as (H1 & _ & _ & H4).
  split; [exact H1|].
  destruct H4 as (w' & Hrun & _ & Hin & _).
  { vm_compute. set_solver. }
  exists w'. split; [exact Hrun|exact Hin].
Defined.

Lemma NoDup_fmap_eq {A B} (f : A → B) (l : list A) x y :
  NoDup (f <$> l) → x ∈ l → y ∈ l → f x = f y → x = y.
Proof.
  intros Hnd [i Hi]%list_elem_of_lookup [j Hj]%list_elem_of_lookup Heq.
  assert (i = j) as ->; [|congruence].
  eapply NoDup_lookup; [exact Hnd| |]; rewrite list_lookup_fmap.
  - by rewrite Hi.
  - rewrite Hj. simpl. by rewrite Heq.
Qed.

(** X15. [delete] works under the blob's upload lock: when the lock is
    held the call fails and nothing changes.  Otherwise the blob's row is
    removed together with the index rows and owner rows that reference it,
    the lock is free again afterwards, the stored bytes are still there
    (their removal is only scheduled, by one task, when the blob had a
    path), and the instance has no path any more.  Deleting undoes
    deduplication: when checksums were unique, a later [from_file] of the
    same bytes finds no row, writes the bytes again and creates a new
    row. *)
Theorem delete_removes_row (sha1 : bytes → string) (uuid4 : nat → N)
    (self : FileBlob) (queue : list DeleteFileTask) (w : World) :
  (lock_key (b_checksum self) ∈ locks_held w →
     ∃ e, FileBlob_delete ((self, queue), w) = (Raise e, ((self, queue), w)))
  ∧ (lock_key (b_checksum self) ∉ locks_held w →
     ∃ self' queue' w',
       FileBlob_delete ((self, queue), w) = (Ok tt, ((self', queue'), w'))
       ∧ fileblobs w' = filter (λ b, b_id b ≠ b_id self) (fileblobs w)
       ∧ fileblobindexes w'
         = filter (λ i, b_id (idx_blob i) ≠ b_id self) (fileblobindexes w)
       ∧ fileblobowners w' = filter (λ o, owner_blob o ≠ b_id self) (fileblobowners w)
       ∧ locks_held w' = locks_held w
       ∧ storage_log w' = storage_log w
       ∧ b_path self' = None
       ∧ queue' = queue ++ match b_path self with
                           | Some path => [mkDeleteFileTask path (b_checksum self) 60]
                           | None => []
                           end
       ∧ (∀ data, b_checksum self = sha1 data → self ∈ fileblobs w →
            NoDup (b_checksum <$> fileblobs w) →
            from_file sha1 uuid4 (ContentFile data) w'
            = (Ok (new_blob sha1 uuid4 w' data), world_after_upload sha1 uuid4 w' data))).
Proof.
  split.
  - intros Hheld. exists UnableToAcquireLock.
    unfold FileBlob_delete. unfold bind at 1. unfold on_local at 1, get at 1.
    cbn beta iota zeta. unfold bind at 1. unfold on_world at 1, lock_acquire.
    by rewrite bool_decide_eq_true_2.
  - intros Hfree.
    assert (∃ self' queue' w',
              FileBlob_delete ((self, queue), w) = (Ok tt, ((self', queue'), w'))
              ∧ fileblobs w' = filter (λ b, b_id b ≠ b_id self) (fileblobs w)
              ∧ fileblobindexes w'
                = filter (λ i, b_id (idx_blob i) ≠ b_id self) (fileblobindexes w)
              ∧ fileblobowners w'
                = filter (λ o, owner_blob o ≠ b_id self) (fileblobowners w)
              ∧ locks_held w' = locks_held w
              ∧ storage_log w' = storage_log w
              ∧ b_path self' = None
              ∧ queue' = queue ++ match b_path self with
                                  | Some path => [mkDeleteFileTask path (b_checksum self) 60]
                                  | None => []
                                  end) as (self' & queue' & w' & Hrun & Hb & Hi & Ho & Hl & Hs & Hp & Hq).
    { unfold FileBlob_delete. unfold bind at 1. unfold on_local at 1, get at 1.
      cbn beta iota zeta. unfold bind at 1. unfold on_world at 1, lock_acquire.
      rewrite bool_decide_eq_false_2 by done.
      unfold finally, Model_delete, deletefile, bind, on_local, on_world, get, modify,
        lock_release, ret. simpl.
      rewrite lock_released by done.
      destruct (b_path self) as [path|] eqn:Hpath; simpl.
      - eexists _, _, _. split; [reflexivity|]. by split_and!.
      - eexists _, _, _. split; [reflexivity|]. rewrite app_nil_r. by split_and!. }
    exists self', queue', w'. split_and!; try done.
    intros data Hsum Hin Hnd. apply from_file_miss.
    + rewrite Hl. by rewrite <- Hsum.
    + rewrite Hb. intros (b & Hsum' & Hb')%list_elem_of_fmap.
      apply list_elem_of_filter in Hb' as [Hid Hb'].
      apply Hid. f_equal. apply (NoDup_fmap_eq b_checksum (fileblobs w)); auto. congruence.
Qed.

Lemma delete_removes_row_witness :
  ∃ self' queue' w',
    FileBlob_delete ((ex_blob1, []), ex_store) = (Ok tt, ((self', queue'), w'))
    ∧ fileblobs w' = [ex_blob2]
    ∧ queue' = [mkDeleteFileTask (0, 0, 1%N) "sha1-of-he" 60]
    ∧ storage_log w' = ex_log.
Proof.
  destruct (delete_removes_row ex_sha1 ex_uuid4 ex_blob1 [] ex_store) as [_ H].
  destruct H as (self' & queue' & w' & Hrun & Hb & _ & _ & _ & Hs & _ & Hq & _).
  { apply not_elem_of_empty. }
  exists self', queue', w'. split; [exact Hrun|]. split; [|split; [exact Hq|exact Hs]].
  rewrite Hb. reflexivity.
Defined.

(** ** Ownership of the blobs of a batch *)

Section BatchOwners.

Variable sha1 : bytes → string.
Variable uuid4 : nat → N.
Variable organization : option Z.

Lemma _ensure_blob_owned_owner blob s w :
  ∃ owners,
    _ensure_blob_owned organization blob (s, w) = (Ok tt, (s, set_fileblobowners owners w))
    ∧ (∀ o, o ∈ fileblobowners w → o ∈ owners)
    ∧ (∀ org, organization = Some org → mkFileBlobOwner (b_id blob) org ∈ owners)
    ∧ (organization = None → owners = fileblobowners w).
Proof.
  unfold _ensure_blob_owned. destruct organization as [o|].
  - unfold transaction_atomic, on_world, FileBlobOwner_create. case_bool_decide as Hin.
    + exists (fileblobowners w). split_and!; [by destruct w|done| |done].
      by intros org [= <-].
    + eexists. split_and!; [done| | |done].
      * intros x Hx. apply elem_of_app. by left.
      * intros org [= <-]. apply elem_of_app. right. by apply list_elem_of_singleton.
  - exists (fileblobowners w). split_and!; [by destruct w|done|done|done].
Qed.

Lemma _flush_blobs_owned s w :
  batch_inv s w → batch_owned organization s w →
  ∃ s' w', _flush_blobs organization (s, w) = (Ok tt, (s', w'))
    ∧ batch_inv s' w' ∧ batch_owned organization s' w'
    ∧ blobs_to_save s' = []
    ∧ checksums_seen s' = checksums_seen s
    ∧ (b_checksum <$> table_and_pending s w) = (b_checksum <$> fileblobs w')
    ∧ (organization = None → fileblobowners w' = fileblobowners w).
Proof.
  intros (Hlen & Hkey & Hlocks & Hsem & Hheld & Hnd & Hseen) Hown.
  destruct s as [seen created pend lks sem]. simpl in *.
  destruct pend as [|[blob lock] pend].
  - exists (mkFromFiles seen created [] lks sem), w.
    unfold table_and_pending. simpl. rewrite app_nil_r. split_and!; try done.
  - destruct pend; [|simpl in Hlen; lia].
    apply Forall_cons in Hkey as [Hkey _]. simpl in Hkey. subst lock lks.
    unfold table_and_pending in Hnd, Hseen. simpl in Hnd, Hseen.
    rewrite fmap_app in Hnd. apply NoDup_app in Hnd as (Hnd & Hnew & _).
    assert (b_checksum blob ∉ b_checksum <$> fileblobs w) as Hfresh.
    { intros Hin. apply (Hnew _ Hin). simpl. set_solver. }
    unfold _flush_blobs. rewrite bind_on_local_get.
    cbn [blobs_to_save length _flush_blobs_loop].
    rewrite bind_on_local_get. cbn [blobs_to_save reverse rev_append].
    rewrite bind_on_local_modify. unfold _save_blob.
    unfold bind at 1. unfold bind at 1. unfold on_world at 1, FileBlob_save at 1.
    rewrite bool_decide_eq_false_2 by done.
    match goal with |- context [_ensure_blob_owned _ ?b (?s0, ?w0)] =>
      destruct (_ensure_blob_owned_owner b s0 w0) as (owners & -> & Hgrow & Hadd & Hnone) end.
    unfold bind at 1. unfold on_world at 1, _locked_blob_exit, lock_release, modify at 1.
    rewrite bind_on_local_modify. unfold semaphore_release. rewrite bind_on_local_modify.
    cbn [_flush_blobs_loop]. rewrite bind_on_local_get. simpl.
    eexists _, _. split; [reflexivity|].
    destruct w as [bs ixs os fs nb ni log held clk uc]. simpl in *.
    unfold batch_inv, table_and_pending. simpl.
    assert (filter (λ l : string, l ≠ b_checksum blob) [b_checksum blob] = []) as ->.
    { rewrite filter_cons_False; [done|]. intros Hne. by apply Hne. }
    simpl. rewrite !app_nil_r.
    split_and!; try done.
    + lia.
    + unfold MULTI_BLOB_UPLOAD_CONCURRENCY in *. lia.
    + rewrite Hheld. set_solver.
    + rewrite fmap_app. apply NoDup_app. split_and!; [done| |apply NoDup_singleton].
      intros c Hc Hc'. simpl in Hc'. apply list_elem_of_singleton in Hc'. by subst.
    + intros c Hc. specialize (Hseen c Hc). by rewrite fmap_app in *.
    + intros org c b Horg Hc Hb Hsum. simpl in *.
      apply elem_of_app in Hb as [Hb|Hb].
      * apply Hgrow. by apply (Hown org c b).
      * apply list_elem_of_singleton in Hb. subst b. simpl. by apply Hadd.
    + by rewrite !fmap_app.
Qed.

Lemma from_files_step_owned d s w :
  batch_inv s w → batch_owned organization s w →
  ∃ s' w',
    from_files_step sha1 uuid4 organization (ContentFile d) None (s, w) = (Ok tt, (s', w'))
    ∧ batch_inv s' w' ∧ batch_owned organization s' w'
    ∧ sha1 d ∈ checksums_seen s'
    ∧ (∀ c, c ∈ checksums_seen s → c ∈ checksums_seen s')
    ∧ (organization = None → fileblobowners w' = fileblobowners w).
Proof.
  intros Hinv Hown.
  destruct (_flush_blobs_owned s w Hinv Hown)
    as (s1 & w1 & Hflush & Hinv1 & Hown1 & Hpend1 & Hseen1 & _ & Hnone1).
  unfold from_files_step. unfold bind at 1. rewrite Hflush.
  rewrite _get_size_and_checksum_spec, f_rest_ContentFile.
  cbn beta iota zeta. unfold bind at 1, lift at 1. cbn beta iota zeta.
  rewrite bind_on_local_get. rewrite <- Hseen1.
  clear Hflush Hseen1 Hinv Hown.
  destruct Hinv1 as (_ & _ & Hlocks & Hsem & Hheld & Hnd & Hseen).
  destruct s1 as [seen created pend lks sem]. simpl in *. subst pend lks.
  unfold table_and_pending in *. simpl in *. rewrite app_nil_r in *.
  destruct w1 as [bs ixs os fs nb ni log held clk uc]. simpl in *. subst held.
  case_bool_decide as Hdup.
  { eexists _, _. split; [reflexivity|].
    unfold batch_inv, table_and_pending. simpl. rewrite !app_nil_r.
    split_and!; try done. lia. }
  rewrite bind_on_local_modify.
  unfold bind at 1. unfold on_world at 1, _locked_blob_enter.
  unfold bind at 1. unfold lock_acquire at 1.
  rewrite bool_decide_eq_false_2 by set_solver.
  unfold FileBlob_objects_get. cbn [fileblobs set_locks_held locks_held].
  destruct (decide (sha1 d ∈ b_checksum <$> bs)) as [Hin|Hout].
  - apply list_elem_of_fmap in Hin as (existing & Hsum & Hin).
    rewrite Hsum, filter_checksum_unique by done.
    unfold bind at 1. unfold on_world at 1, _locked_blob_exit, lock_release, modify at 1.
    rewrite bind_on_local_modify.
    match goal with |- context [_ensure_blob_owned _ ?b (?s0, ?w0)] =>
      destruct (_ensure_blob_owned_owner b s0 w0) as (owners & -> & Hgrow & Hadd & Hnone) end.
    eexists _, _. split; [reflexivity|].
    unfold batch_inv, table_and_pending. simpl in *. rewrite !app_nil_r.
    split_and!; try done.
    + lia.
    + set_solver.
    + intros c [->|Hc]%elem_of_cons; [|auto]. by apply list_elem_of_fmap_2.
    + intros org c b Horg Hc Hb Hsumb. simpl in *.
      apply elem_of_cons in Hc as [->|Hc].
      * assert (b = existing) as -> by (by apply (NoDup_fmap_eq b_checksum bs)).
        by apply Hadd.
      * apply Hgrow. by apply (Hown1 org c b).
    + set_solver.
    + intros c Hc. set_solver.
    + intros Hn. rewrite (Hnone Hn). by apply Hnone1.
  - rewrite filter_checksum_absent by done.
    rewrite bind_on_local_modify.
    unfold bind at 1. unfold semaphore_acquire at 1. cbn [semaphore set_locks].
    assert (sem = 8%nat) as -> by (unfold MULTI_BLOB_UPLOAD_CONCURRENCY in *; lia).
    unfold _upload_and_pend_chunk, FileBlob_new, generate_unique_path, storage_save.
    unfold bind, on_world, on_local, modify. simpl.
    eexists _, _. split; [reflexivity|].
    unfold batch_inv, table_and_pending. simpl.
    split_and!; try done.
    + by repeat constructor.
    + rewrite fmap_app. apply NoDup_app. split_and!; [done| |apply NoDup_singleton].
      intros c Hc Hc'. simpl in Hc'. apply list_elem_of_singleton in Hc'. by subst.
    + intros c [->|Hc]%elem_of_cons; rewrite fmap_app; set_solver.
    + intros org c b Horg Hc Hb Hsumb. simpl in *.
      apply elem_of_cons in Hc as [->|Hc].
      * exfalso. apply Hout. rewrite <- Hsumb. by apply list_elem_of_fmap_2.
      * by apply (Hown1 org c b).
    + set_solver.
    + intros c Hc. set_solver.
Qed.

Lemma from_files_loop_owned datas : ∀ s w,
  batch_inv s w → batch_owned organization s w →
  ∃ s' w',
    from_files_loop sha1 uuid4 organization (files_with_checksums (plain_files datas)) (s, w)
    = (Ok tt, (s', w'))
    ∧ batch_inv s' w' ∧ batch_owned organization s' w'
    ∧ (∀ d, d ∈ datas → sha1 d ∈ checksums_seen s')
    ∧ (∀ c, c ∈ checksums_seen s → c ∈ checksums_seen s')
    ∧ (organization = None → fileblobowners w' = fileblobowners w).
Proof.
  induction datas as [|d datas IH]; intros s w Hinv Hown.
  - exists s, w. split_and!; try done. intros d Hd. by apply elem_of_nil in Hd.
  - destruct (from_files_step_owned d s w Hinv Hown)
      as (s1 & w1 & Hstep & Hinv1 & Hown1 & Hd & Hmono1 & Hnone1).
    destruct (IH s1 w1 Hinv1 Hown1) as (s' & w' & Hloop & Hinv' & Hown' & Hall & Hmono & Hnone).
    exists s', w'. cbn [plain_files files_with_checksums fmap list_fmap from_files_loop].
    unfold bind at 1. rewrite Hstep.
    split; [exact Hloop|]. split_and!; try done.
    + intros d' [->|Hd']%elem_of_cons; auto.
    + auto.
    + intros Hn. rewrite (Hnone Hn). by apply Hnone1.
Qed.

End BatchOwners.

(** X16. [from_files] with an organization leaves every blob of the batch
    owned: after the call each input's content has a row in the blob table
    and that row has an owner row for the organization, whether the content
    was new, was already stored, or repeats an earlier input of the batch.
    Without an organization the owner table is left as it was. *)
Theorem from_files_owns_blobs (sha1 : bytes → string) (uuid4 : nat → N)
    (organization : option Z) (datas : list bytes) (w : World) :
  locks_held w = ∅ →
  NoDup (b_checksum <$> fileblobs w) →
  ∃ w',
    from_files sha1 uuid4 organization (plain_files datas) w = (Ok PyNone, w')
    ∧ (∀ org d, organization = Some org → d ∈ datas →
         ∃ b, b ∈ fileblobs w' ∧ b_checksum b = sha1 d
              ∧ mkFileBlobOwner (b_id b) org ∈ fileblobowners w')
    ∧ (organization = None → fileblobowners w' = fileblobowners w).
Proof.
  intros Hheld Hnd.
  set (locals := mkFromFiles [] [] [] [] MULTI_BLOB_UPLOAD_CONCURRENCY).
  assert (batch_inv locals w) as Hinv.
  { unfold batch_inv, table_and_pending. simpl. rewrite app_nil_r.
    split_and!; try done; [lia|]. intros x Hx. by apply elem_of_nil in Hx. }
  assert (batch_owned organization locals w) as Hown.
  { intros org c b _ Hc. by apply elem_of_nil in Hc. }
  destruct (from_files_loop_owned sha1 uuid4 organization datas locals w Hinv Hown)
    as (s1 & w1 & Hloop & Hinv1 & Hown1 & Hall & _ & Hnone1).
  destruct (_flush_blobs_owned uuid4 organization s1 w1 Hinv1 Hown1)
    as (s2 & w2 & Hflush & Hinv2 & Hown2 & Hpend2 & Hseen2 & _ & Hnone2).
  destruct Hinv2 as (_ & _ & Hlocks2 & _ & _ & _ & Hseen).
  rewrite Hpend2 in Hlocks2. simpl in Hlocks2.
  unfold table_and_pending in Hseen. rewrite Hpend2 in Hseen. simpl in Hseen.
  rewrite app_nil_r in Hseen.
  exists w2. split_and!.
  - unfold from_files, finally. fold locals. unfold bind at 1. rewrite Hloop, Hflush.
    unfold release_locks. destruct s2 as [? ? ? lks ?]. simpl in Hlocks2. subst lks.
    reflexivity.
  - intros org d Horg Hd.
    assert (sha1 d ∈ checksums_seen s2) as Hc by (rewrite Hseen2; by apply Hall).
    destruct (proj1 (list_elem_of_fmap _ _ _) (Hseen _ Hc)) as (b & Hsum & Hb).
    exists b. split_and!; [done|done|]. by apply (Hown2 org (sha1 d) b).
  - intros Hn. rewrite (Hnone2 Hn). by apply Hnone1.
Qed.

Lemma from_files_owns_blobs_witness :
  ∃ w',
    from_files ex_sha1 ex_uuid4 (Some 5) (plain_files ex_batch) ex_world = (Ok PyNone, w')
    ∧ ∃ b, b ∈ fileblobs w' ∧ b_checksum b = ex_sha1 ex_hello
           ∧ mkFileBlobOwner (b_id b) 5 ∈ fileblobowners w'.
Proof.
  destruct (from_files_owns_blobs ex_sha1 ex_uuid4 (Some 5) ex_batch ex_world
              eq_refl ltac:(constructor)) as (w' & Hrun & Hown & _).
  exists w'. split; [exact Hrun|].
  apply (Hown 5 ex_hello eq_refl). unfold ex_batch. apply elem_of_cons. by left.
Defined.
